(** * Percolation flood fill and Abelian sandpile relaxation

    A shallow embedding of [hw1/roll_percolation.py] and
    [hw1/roll_sandpile.py], and the properties of the two propagation
    engines.

    Conventions of the embedding:
    - a two-dimensional NumPy integer array is a list of rows of [Z]. The
      counts of the sandpile are int64 in NumPy; they stay between 0 and 3
      plus the number of pending worklist entries, so the wrap-around of
      int64 plays no part and is not modelled;
    - an index produced by [range(n)], drawn below [n] or guarded by
      [!= 0] is a [nat]: the code computes [j-1] under the guard [j != 0]
      only, where the truncated subtraction of [nat] agrees with Python's;
      [self.n - 1] is [n - 1] on [nat], which agrees with Python's for every
      grid that has a cell;
    - an indexing that NumPy would reject raises [IndexError]; a Python
      recursion deeper than the interpreter's limit raises
      [RecursionError] (the [depth] argument of [_flow_recursive]); a
      loop is run with a [fuel] bound and reports [OutOfFuel] when the
      bound is reached before the loop exits;
    - the arrays an object refers to live in an explicit heap, and NumPy's
      global random generator is part of the explicit world state. *)

From Stdlib Require Import QArith.
From stdpp Require Import base numbers list.

Open Scope Z_scope.

(** ** Python results *)

Inductive exn : Set :=
  | IndexError
  | RecursionError
  | AssertionError
  | ValueError
  | ReferenceError
  | OutOfFuel.

Inductive result (A : Type) : Type :=
  | Ok (a : A)
  | Raise (e : exn).
Arguments Ok {A} a.
Arguments Raise {A} e.

#[global] Instance result_bind : MBind result :=
  λ A B (k : A → result B) (m : result A),
    match m with
    | Ok a => k a
    | Raise e => Raise e
    end.

(** ** Two-dimensional integer arrays *)

Abbreviation ndarray := (list (list Z)).
Abbreviation pos := (nat * nat)%type.

(** [a[i][j]] *)
Definition getitem (a : ndarray) (i j : nat) : result Z :=
  match a !! i with
  | Some row =>
      match row !! j with
      | Some v => Ok v
      | None => Raise IndexError
      end
  | None => Raise IndexError
  end.

(** [a[i][j] = v] *)
Definition setitem (a : ndarray) (i j : nat) (v : Z) : result ndarray :=
  match a !! i with
  | Some row =>
      if decide (j < length row)%nat
      then Ok (<[i := <[j := v]> row]> a)
      else Raise IndexError
  | None => Raise IndexError
  end.

(** [a[i][j] += d] *)
Definition iadd (a : ndarray) (i j : nat) (d : Z) : result ndarray :=
  v ← getitem a i j;
  setitem a i j (v + d).

(** [a[-1]] *)
Definition last_row (a : ndarray) : result (list Z) :=
  match last a with
  | Some row => Ok row
  | None => Raise IndexError
  end.

(** Total counterparts, used in statements: the value of a cell (0 where
    the array has no such cell) and the array with one cell replaced. *)
Definition cell (a : ndarray) (c : pos) : Z :=
  match a !! c.1 with
  | Some row => default 0 (row !! c.2)
  | None => 0
  end.

Definition upd (a : ndarray) (c : pos) (v : Z) : ndarray :=
  alter (<[c.2 := v]>) c.1 a.

(** An [n] by [n] array. *)
Definition square (n : nat) (a : ndarray) : Prop :=
  length a = n ∧ Forall (λ row, length row = n) a.

Definition inb (n : nat) (c : pos) : Prop := (c.1 < n)%nat ∧ (c.2 < n)%nat.

(** All coordinates of an [n] by [n] array, row by row. *)
Definition coords (n : nat) : list pos :=
  i ← seq 0 n; (λ j, (i, j)) <$> seq 0 n.

(** ** Percolation *)

Module PercolationSimulation.

(** The attributes the flow uses ([p] and [random_state] play no part in
    it and are left out). *)
Record t : Type := mk {
  n : nat;
  grid : ndarray;
  grid_filled : ndarray
}.

(** [len(np.unique(np.ravel(grid)))] *)
Definition n_unique (a : ndarray) : nat :=
  length (remove_dups (concat a)).

(** [__init__] with a caller-supplied [grid]. *)
Definition __init__ (grid : ndarray) : result t :=
  if decide (n_unique grid ≤ 2)%nat
  then Ok {| n := length grid; grid := grid; grid_filled := grid |}
  else Raise AssertionError.

(** The list [output] of [_poll_neighbors]. *)
Record movement : Type := mkmov {
  mleft : bool; mright : bool; mup : bool; mdown : bool
}.

Definition _poll_neighbors (n : nat) (grid_filled : ndarray) (i j : nat)
  : result movement :=
  l ← (if decide (j ≠ 0%nat)
       then v ← getitem grid_filled i (j - 1); Ok (bool_decide (v = 1))
       else Ok false);
  r ← (if decide (j ≠ (n - 1)%nat)
       then v ← getitem grid_filled i (j + 1); Ok (bool_decide (v = 1))
       else Ok false);
  u ← (if decide (i ≠ 0%nat)
       then v ← getitem grid_filled (i - 1) j; Ok (bool_decide (v = 1))
       else Ok false);
  d ← (if decide (i ≠ (n - 1)%nat)
       then v ← getitem grid_filled (i + 1) j; Ok (bool_decide (v = 1))
       else Ok false);
  Ok (mkmov l r u d).

Fixpoint _flow_recursive (depth : nat) (n : nat) (grid_filled : ndarray)
    (i j : nat) : result ndarray :=
  match depth with
  | O => Raise RecursionError
  | S depth =>
      movement ← _poll_neighbors n grid_filled i j;
      grid_filled ←
        (if mleft movement
         then grid_filled ← setitem grid_filled i (j - 1) 2;
              _flow_recursive depth n grid_filled i (j - 1)
         else Ok grid_filled);
      grid_filled ←
        (if mright movement
         then grid_filled ← setitem grid_filled i (j + 1) 2;
              _flow_recursive depth n grid_filled i (j + 1)
         else Ok grid_filled);
      grid_filled ←
        (if mup movement
         then grid_filled ← setitem grid_filled (i - 1) j 2;
              _flow_recursive depth n grid_filled (i - 1) j
         else Ok grid_filled);
      grid_filled ←
        (if mdown movement
         then grid_filled ← setitem grid_filled (i + 1) j 2;
              _flow_recursive depth n grid_filled (i + 1) j
         else Ok grid_filled);
      Ok grid_filled
  end.

(** The body of the loop of [percolate], for one column [cind]. *)
Definition percolate_column (depth : nat) (n : nat) (grid : ndarray)
    (grid_filled : ndarray) (cind : nat) : result ndarray :=
  v ← getitem grid 0 cind;
  if decide (v = 1)
  then grid_filled ← setitem grid_filled 0 cind 2;
       _flow_recursive depth n grid_filled 0 cind
  else Ok grid_filled.

(** [for cind in range(self.n)], over the remaining columns. *)
Fixpoint percolate_loop (depth : nat) (n : nat) (grid : ndarray)
    (grid_filled : ndarray) (cols : list nat) : result ndarray :=
  match cols with
  | [] => Ok grid_filled
  | cind :: cols =>
      grid_filled ← percolate_column depth n grid grid_filled cind;
      percolate_loop depth n grid grid_filled cols
  end.

(** [percolate]: the updated object and the returned boolean. The
    recursion limit left for [_flow_recursive] is [depth]. *)
Definition percolate (depth : nat) (self : t) : result (t * bool) :=
  grid_filled ← percolate_loop depth (n self) (grid self) (grid_filled self)
                  (seq 0 (n self));
  row ← last_row grid_filled;
  Ok ({| n := n self; grid := grid self; grid_filled := grid_filled |},
      bool_decide (2 ∈ row)).

End PercolationSimulation.

(** ** What the flood fill is expected to compute *)

(** Orthogonal adjacency: the two cells share a row and sit in
    neighbouring columns, or share a column and sit in neighbouring rows. *)
Definition adjacent (c c' : pos) : Prop :=
  (c.1 = c'.1 ∧ (c'.2 = S c.2 ∨ c.2 = S c'.2)) ∨
  (c.2 = c'.2 ∧ (c'.1 = S c.1 ∨ c.1 = S c'.1)).

(** The cells of [grid] that water reaches: the Open cells of the top row,
    and every Open in-bounds cell adjacent to a reached cell. *)
Inductive reachable (n : nat) (grid : ndarray) : pos → Prop :=
  | reach_top j :
      (j < n)%nat → cell grid (0%nat, j) = 1 → reachable n grid (0%nat, j)
  | reach_step c c' :
      reachable n grid c → adjacent c c' → inb n c' → cell grid c' = 1 →
      reachable n grid c'.

(** The same as paths. A list of cells in which each is adjacent to the
    next: *)
Fixpoint chained (p : list pos) : Prop :=
  match p with
  | c :: ((c' :: _) as q) => adjacent c c' ∧ chained q
  | _ => True
  end.

(** a path of in-bounds Open cells of [grid] from the top row to [c]. *)
Definition open_path (n : nat) (grid : ndarray) (p : list pos) (c : pos)
    : Prop :=
  (∃ j, head p = Some (0%nat, j)) ∧ last p = Some c ∧ chained p ∧
  Forall (λ x, inb n x ∧ cell grid x = 1) p.

(** A grid of Blocked (0) and Open (1) sites only. *)
Definition binary (a : ndarray) : Prop :=
  Forall (Forall (λ v, v = 0 ∨ v = 1)) a.

Section FlowSpec.
Context (n : nat).
Implicit Types (g s : ndarray) (c : pos).

(** Number of Open cells. *)
Definition ones g : nat := length (filter (λ c, cell g c = 1) (coords n)).

(** [g'] is [g] with some Open cells turned into Filled cells. *)
Definition fills g g' : Prop :=
  square n g' ∧
  ∀ c, inb n c → cell g' c = cell g c ∨ (cell g c = 1 ∧ cell g' c = 2).

(** No in-bounds neighbour of [c] is Open. *)
Definition closed g c : Prop :=
  ∀ c', inb n c' → adjacent c c' → cell g c' ≠ 1.

(** [fills], and every cell filled on the way has no Open neighbour left. *)
Definition flooded g g' : Prop :=
  fills g g' ∧
  ∀ c, inb n c → cell g c ≠ 2 → cell g' c = 2 → closed g' c.

(** The filled grid [g] is sound for the source grid [s]. *)
Definition sound s g : Prop :=
  ∀ c, inb n c →
    (cell g c = 2 → reachable n s c) ∧ (cell g c ≠ 2 → cell g c = cell s c).

(** Every Filled cell has no Open neighbour left. *)
Definition all_closed g : Prop :=
  ∀ c, inb n c → cell g c = 2 → closed g c.

(** The specification of a call [_flow_recursive(i, j)] at a Filled cell,
    with [depth] stack frames left. *)
Definition flow_spec (depth : nat) : Prop :=
  ∀ g c, square n g → inb n c → cell g c = 2 → (ones g < depth)%nat →
    ∃ g', PercolationSimulation._flow_recursive depth n g c.1 c.2 = Ok g' ∧
          flooded g g' ∧ closed g' c ∧
          ∀ s, sound s g → sound s g'.

(** [g] is the flood fill of the source grid [s]: exactly the Open cells
    at the end of a path of Open cells from the top row are Filled, every
    other cell is as in [s]. *)
Definition flood_fill_of s g : Prop :=
  square n g ∧
  ∀ c, inb n c →
    (cell g c = 2 ↔ cell s c = 1 ∧ ∃ p, open_path n s p c) ∧
    (cell g c ≠ 2 → cell g c = cell s c).

(** Some cell of the last row is Filled. *)
Definition reaches_bottom g : Prop :=
  ∃ j, (j < n)%nat ∧ cell g ((n - 1)%nat, j) = 2.

End FlowSpec.


(** ** Abelian sandpile: the relaxation of [step] *)

Module AbelianSandpile.

(** Lines 41-60, the body of [for coord in ind_store] for one entry: the
    grid and the worklist after it. *)
Definition examine (n : nat) (grid : ndarray) (ind_store : list pos)
    (coord : pos) : result (ndarray * list pos) :=
  let '(rind, cind) := coord in
  v ← getitem grid rind cind;
  if decide (v < 4)
  then Ok (grid, ind_store)
  else
    grid ← iadd grid rind cind (-4);
    '(grid, ind_store) ←
      (if decide (rind ≠ 0%nat)
       then grid ← iadd grid (rind - 1) cind 1;
            Ok (grid, ind_store ++ [((rind - 1)%nat, cind)])
       else Ok (grid, ind_store));
    '(grid, ind_store) ←
      (if decide (rind ≠ (n - 1)%nat)
       then grid ← iadd grid (rind + 1) cind 1;
            Ok (grid, ind_store ++ [((rind + 1)%nat, cind)])
       else Ok (grid, ind_store));
    '(grid, ind_store) ←
      (if decide (cind ≠ 0%nat)
       then grid ← iadd grid rind (cind - 1) 1;
            Ok (grid, ind_store ++ [(rind, (cind - 1)%nat)])
       else Ok (grid, ind_store));
    '(grid, ind_store) ←
      (if decide (cind ≠ (n - 1)%nat)
       then grid ← iadd grid rind (cind + 1) 1;
            Ok (grid, ind_store ++ [(rind, (cind + 1)%nat)])
       else Ok (grid, ind_store));
    Ok (grid, ind_store).

(** [for coord in ind_store]: the list iterator stands at position [k]. A
    Python list iterator reads the list it walks by position, so the
    entries that the body appends are visited by the same loop. *)
Fixpoint for_loop (fuel : nat) (n : nat) (grid : ndarray)
    (ind_store : list pos) (k : nat) : result (ndarray * list pos) :=
  match fuel with
  | O => Raise OutOfFuel
  | S fuel =>
      match ind_store !! k with
      | None => Ok (grid, ind_store)
      | Some coord =>
          '(grid, ind_store) ← examine n grid ind_store coord;
          for_loop fuel n grid ind_store (S k)
      end
  end.

(** [while True], with [del ind_store[:start_len]] at the end of each round. *)
Fixpoint while_loop (fuel : nat) (n : nat) (grid : ndarray)
    (ind_store : list pos) : result ndarray :=
  match fuel with
  | O => Raise OutOfFuel
  | S fuel =>
      let start_len := length ind_store in
      if decide (start_len = 0%nat)
      then Ok grid
      else
        '(grid, ind_store) ← for_loop fuel n grid ind_store 0;
        while_loop fuel n grid (drop start_len ind_store)
  end.

(** [step], from the drawn site [sand_drop] on (lines 32-62). *)
Definition step_at (fuel : nat) (n : nat) (grid : ndarray)
    (sand_drop : pos) : result ndarray :=
  grid ← iadd grid sand_drop.1 sand_drop.2 1;
  while_loop fuel n grid [sand_drop].

(** *** The same loops with a topple counter

    The instrumented variant records, in [topples], the cells that
    avalanche, in order. No branch reads the record. *)

Definition examine_log (n : nat) (grid : ndarray) (ind_store : list pos)
    (topples : list pos) (coord : pos)
    : result (ndarray * list pos * list pos) :=
  v ← getitem grid coord.1 coord.2;
  '(grid, ind_store) ← examine n grid ind_store coord;
  Ok (grid, ind_store, if decide (v < 4) then topples else topples ++ [coord]).

Fixpoint for_loop_log (fuel : nat) (n : nat) (grid : ndarray)
    (ind_store : list pos) (topples : list pos) (k : nat)
    : result (ndarray * list pos * list pos) :=
  match fuel with
  | O => Raise OutOfFuel
  | S fuel =>
      match ind_store !! k with
      | None => Ok (grid, ind_store, topples)
      | Some coord =>
          '(grid, ind_store, topples) ←
            examine_log n grid ind_store topples coord;
          for_loop_log fuel n grid ind_store topples (S k)
      end
  end.

Fixpoint while_loop_log (fuel : nat) (n : nat) (grid : ndarray)
    (ind_store : list pos) (topples : list pos)
    : result (ndarray * list pos) :=
  match fuel with
  | O => Raise OutOfFuel
  | S fuel =>
      let start_len := length ind_store in
      if decide (start_len = 0%nat)
      then Ok (grid, topples)
      else
        '(grid, ind_store, topples) ←
          for_loop_log fuel n grid ind_store topples 0;
        while_loop_log fuel n grid (drop start_len ind_store) topples
  end.

Definition step_at_log (fuel : nat) (n : nat) (grid : ndarray)
    (sand_drop : pos) : result (ndarray * list pos) :=
  grid ← iadd grid sand_drop.1 sand_drop.2 1;
  while_loop_log fuel n grid [sand_drop] [].

(** *** The object, the arrays it refers to, and NumPy's global generator

    The three uses the class makes of [np.random]. The generator is
    NumPy's; its state is global to the process. *)
Class NumpyRandom (rng : Type) : Type := {
  (** [np.random.seed(random_state)] *)
  np_random_seed : option Z → rng → rng;
  (** [np.random.choice([0, 1, 2, 3], size=(n, n))] *)
  np_random_choice_grid : nat → rng → ndarray * rng;
  (** [np.random.choice(n, 2)], for [n] greater than 0 *)
  np_random_choice : nat → rng → pos * rng
}.

Section Object.
Context {rng : Type} `{NumpyRandom rng}.

(** The arrays allocated so far, and the state of the global generator. An
    array is referred to by its position in [heap]. *)
Record world : Type := mkworld {
  heap : list ndarray;
  np_random : rng
}.

Record t : Type := mk {
  n : nat;
  grid : nat;
  history : list nat
}.

(** [a.copy()]: a new array with the elements of [a]. *)
Definition np_copy (a : nat) (w : world) : result (nat * world) :=
  match heap w !! a with
  | Some v => Ok (length (heap w), mkworld (heap w ++ [v]) (np_random w))
  | None => Raise ReferenceError
  end.

Definition __init__ (n : nat) (random_state : option Z) (w : world)
    : result (t * world) :=
  let r := np_random_seed random_state (np_random w) in
  let '(a, r) := np_random_choice_grid n r in
  let grid := length (heap w) in
  let w := mkworld (heap w ++ [a]) r in
  '(snapshot, w) ← np_copy grid w;
  Ok (mk n grid [snapshot], w).

(** [step]. [np.random.choice(0, 2)] raises [ValueError]. The avalanche
    works in place on the array [self.grid] refers to. *)
Definition step (fuel : nat) (self : t) (w : world) : result (t * world) :=
  if decide (n self = 0%nat)
  then Raise ValueError
  else
    let '(sand_drop, r) := np_random_choice (n self) (np_random w) in
    match heap w !! grid self with
    | None => Raise ReferenceError
    | Some a =>
        a ← step_at fuel (n self) a sand_drop;
        Ok (self, mkworld (<[grid self := a]> (heap w)) r)
    end.

Fixpoint simulate (fuel : nat) (n_step : nat) (self : t) (w : world)
    : result (t * world) :=
  match n_step with
  | O => Ok (self, w)
  | S n_step =>
      '(self, w) ← step fuel self w;
      '(snapshot, w) ← np_copy (grid self) w;
      simulate fuel n_step
        (mk (n self) (grid self) (history self ++ [snapshot])) w
  end.

(** The state of the generator after [k] draws of a site. *)
Fixpoint after_draws (k : nat) (n : nat) (r : rng) : rng :=
  match k with
  | O => r
  | S k => after_draws k n (np_random_choice n r).2
  end.

(** The arrays that [history] refers to, as they are in [w]. *)
Definition snapshots (self : t) (w : world) : list (option ndarray) :=
  (λ l, heap w !! l) <$> history self.

(** *** The same run with an owned random stream and no shared arrays

    This second definition follows the words of the specification (a
    seeded stream drawn once for the grid and continued for each
    perturbation site, snapshots that are independent values). It is
    compared with [__init__] and [simulate]. *)
Fixpoint stream_history (fuel : nat) (n_step : nat) (n : nat) (a : ndarray)
    (r : rng) : result (list ndarray) :=
  match n_step with
  | O => Ok []
  | S n_step =>
      let '(sand_drop, r) := np_random_choice n r in
      a ← step_at fuel n a sand_drop;
      l ← stream_history fuel n_step n a r;
      Ok (a :: l)
  end.

Definition seeded_history (fuel : nat) (n_step : nat) (n : nat) (seed : Z)
    (r0 : rng) : result (list ndarray) :=
  let '(a, r) := np_random_choice_grid n (np_random_seed (Some seed) r0) in
  l ← stream_history fuel n_step n a r;
  Ok (a :: l).

End Object.
Arguments world : clear implicits.

(** [check_difference]: [np.sum(grid1 != grid2)]. NumPy compares two
    arrays element by element after broadcasting their shapes: along each
    axis the two extents must be equal, or one of them must be 1, in which
    case that array is repeated along the axis; otherwise the comparison
    raises [ValueError]. Arrays are taken rectangular. *)
Definition shape (a : ndarray) : nat * nat :=
  (length a, length (default [] (head a))).

Definition broadcast_dim (d1 d2 : nat) : option nat :=
  if decide (d1 = d2) then Some d1
  else if decide (d1 = 1%nat) then Some d2
  else if decide (d2 = 1%nat) then Some d1
  else None.

(** The element that position [c] of the broadcast array reads in [a]. *)
Definition broadcast_cell (a : ndarray) (c : pos) : Z :=
  cell a (if decide ((shape a).1 = 1%nat) then 0%nat else c.1,
          if decide ((shape a).2 = 1%nat) then 0%nat else c.2).

Definition coords_rc (r c : nat) : list pos :=
  i ← seq 0 r; (λ j, (i, j)) <$> seq 0 c.

Definition check_difference (grid1 grid2 : ndarray) : result Z :=
  match broadcast_dim (shape grid1).1 (shape grid2).1,
        broadcast_dim (shape grid1).2 (shape grid2).2 with
  | Some r, Some c =>
      Ok (Z.of_nat (length (filter
            (λ x, broadcast_cell grid1 x ≠ broadcast_cell grid2 x)
            (coords_rc r c))))
  | _, _ => Raise ValueError
  end.

End AbelianSandpile.

(** ** Sandpile vocabulary *)

Definition zsum {A : Type} (f : A → Z) (l : list A) : Z :=
    foldr (λ x acc, f x + acc) 0 l.

(** [np.sum(grid)] *)
Definition grid_sum (a : ndarray) : Z := zsum (zsum id) a.

(** Occurrences of a cell in a worklist. *)
Definition occ (x : pos) (l : list pos) : Z :=
  zsum (λ y, if decide (y = x) then 1 else 0) l.

Section SandpileSpec.
Context (n : nat).
Implicit Types (g : ndarray) (c : pos).

(** The in-bounds orthogonal neighbours of a cell, in the order in which
    the code visits them: up, down, left, right. *)
Definition nbrs c : list pos :=
  (if decide (c.1 ≠ 0%nat) then [((c.1 - 1)%nat, c.2)] else []) ++
  (if decide (c.1 ≠ (n - 1)%nat) then [((c.1 + 1)%nat, c.2)] else []) ++
  (if decide (c.2 ≠ 0%nat) then [(c.1, (c.2 - 1)%nat)] else []) ++
  (if decide (c.2 ≠ (n - 1)%nat) then [(c.1, (c.2 + 1)%nat)] else []).

Definition addc g c (d : Z) : ndarray := upd g c (cell g c + d).

(** One avalanche at [c]: four grains leave [c], one lands on each
    in-bounds neighbour. *)
Definition topple g c : ndarray :=
  fold_left (λ g nb, addc g nb 1) (nbrs c) (addc g c (-4)).

(** Every count is at most 3. *)
Definition stable g : Prop := ∀ c, inb n c → cell g c ≤ 3.

Definition nonneg g : Prop := ∀ c, inb n c → 0 ≤ cell g c.

(** A sequence of avalanches, each at an in-bounds cell holding at least
    four grains at its turn. *)
Fixpoint legal g (l : list pos) : Prop :=
  match l with
  | [] => True
  | c :: l => inb n c ∧ 4 ≤ cell g c ∧ legal (topple g c) l
  end.

Definition topple_all g (l : list pos) : ndarray := fold_left topple l g.

(** Grains that leave the grid when [c] topples: one for each neighbour
    out of bounds. *)
Definition lost c : Z := 4 - Z.of_nat (length (nbrs c)).

(** A cell of the first or last row or column. *)
Definition boundary c : Prop :=
  c.1 = 0%nat ∨ c.1 = (n - 1)%nat ∨ c.2 = 0%nat ∨ c.2 = (n - 1)%nat.

#[global] Instance boundary_dec c : Decision (boundary c).
Proof. unfold boundary. apply _. Defined.

(** The potential that bounds the relaxation: each avalanche lowers it by
    at least four. *)
Definition weight c : Z :=
  (Z.of_nat c.1 + 1) * (Z.of_nat n - Z.of_nat c.1) +
  (Z.of_nat c.2 + 1) * (Z.of_nat n - Z.of_nat c.2).

Definition potential g : Z := zsum (λ c, weight c * cell g c) (coords n).

(** What the loops rely on: a square grid of non-negative counts and a
    worklist of in-bounds cells. *)
Definition base g (st : list pos) : Prop :=
  square n g ∧ nonneg g ∧ Forall (inb n) st.

(** Every cell holding four grains or more is still pending, as often as
    it has to topple. *)
Definition pending g (st : list pos) : Prop :=
  ∀ x, inb n x → cell g x ≤ 3 + occ x st.

(** Fuel that suffices for the loops of one [step] on a stable grid. *)
Definition step_fuel : nat := Z.to_nat (4 * zsum weight (coords n)) + 3.

End SandpileSpec.


(** ** A worklist relaxation in an arbitrary order

    This second relaxation follows the words of the specification (section
    4.3, step 2) instead of the code: repeatedly take a coordinate from the
    worklist; discard it when its count is below 4; otherwise subtract 4,
    add 1 to each in-bounds neighbour and push the neighbour. The policy
    [pick] chooses, from the grid and the worklist, which pending entry is
    taken next. It is compared with the loops of the code. *)

Section Worklist.
Context (pick : ndarray → list pos → nat).

Fixpoint worklist_relax (fuel : nat) (n : nat) (g : ndarray) (wl : list pos)
    : result ndarray :=
  match fuel with
  | O => Raise OutOfFuel
  | S fuel =>
      if decide (wl = [])
      then Ok g
      else
        let k := (pick g wl `mod` length wl)%nat in
        match wl !! k with
        | None => Raise IndexError
        | Some c =>
            if decide (cell g c < 4)
            then worklist_relax fuel n g (delete k wl)
            else worklist_relax fuel n (topple n g c) (delete k wl ++ nbrs n c)
        end
  end.

End Worklist.

(** The same relaxation as a relation: every way of emptying the worklist,
    taking any pending entry at each turn. *)
Inductive worklist_run (n : nat) : ndarray → list pos → ndarray → Prop :=
  | wr_done g : worklist_run n g [] g
  | wr_skip g wl k c g' :
      wl !! k = Some c → cell g c < 4 →
      worklist_run n g (delete k wl) g' →
      worklist_run n g wl g'
  | wr_topple g wl k c g' :
      wl !! k = Some c → 4 ≤ cell g c →
      worklist_run n (topple n g c) (delete k wl ++ nbrs n c) g' →
      worklist_run n g wl g'.

(** First in, first out: the oldest entry. *)
Definition fifo : ndarray → list pos → nat := λ _ _, 0%nat.

(** Last in, first out: the newest entry. *)
Definition lifo : ndarray → list pos → nat := λ _ wl, (length wl - 1)%nat.


(** An [r] by [c] array. *)
Definition rect (r c : nat) (a : ndarray) : Prop :=
  length a = r ∧ Forall (λ row, length row = c) a.

(** ** The contract of NumPy's generator, and a generator to test with *)

(** A square grid of counts between 0 and 3. *)
Definition good (n : nat) (a : ndarray) : Prop :=
  square n a ∧ nonneg n a ∧ stable n a.

(** What the class relies on: a seeded state depends on the seed only; the
    initial grid is [n] by [n] with entries drawn from 0, 1, 2, 3; a drawn
    site has both indices below [n]. *)
Class NumpyRandomSpec (rng : Type) `{AbelianSandpile.NumpyRandom rng} : Prop := {
  seed_resets s r1 r2 :
    AbelianSandpile.np_random_seed (Some s) r1
    = AbelianSandpile.np_random_seed (Some s) r2;
  choice_grid_good n r : good n (AbelianSandpile.np_random_choice_grid n r).1;
  choice_inb n r :
    (0 < n)%nat → inb n (AbelianSandpile.np_random_choice n r).1
}.

(** The invariant of a sandpile object: its grid and every snapshot are
    good, and no snapshot is the array of the grid. *)
Definition obj_inv {rng : Type} (N : nat) (self : AbelianSandpile.t)
    (w : AbelianSandpile.world rng) : Prop :=
  AbelianSandpile.n self = N ∧
  (∃ a, AbelianSandpile.heap w !! AbelianSandpile.grid self = Some a ∧ good N a) ∧
  (AbelianSandpile.grid self ∉ AbelianSandpile.history self) ∧
  Forall (λ l, ∃ a, AbelianSandpile.heap w !! l = Some a ∧ good N a)
         (AbelianSandpile.history self).

(** Construct, then simulate: one run of an instance. *)
Definition run {rng : Type} `{AbelianSandpile.NumpyRandom rng}
    (fuel : nat) (N : nat) (random_state : option Z) (n_step : nat)
    (w : AbelianSandpile.world rng)
    : result (AbelianSandpile.t * AbelianSandpile.world rng) :=
  ('(self, w) ← AbelianSandpile.__init__ N random_state w;
   AbelianSandpile.simulate fuel n_step self w).

(** Two instances with the same seed, both constructed before either is
    simulated; the result is the two histories. *)
Definition interleaved {rng : Type} `{AbelianSandpile.NumpyRandom rng}
    (fuel : nat) (N : nat) (seed : Z) (n_step : nat)
    (w : AbelianSandpile.world rng)
    : result (list (option ndarray) * list (option ndarray)) :=
  ('(a, w) ← AbelianSandpile.__init__ N (Some seed) w;
   '(b, w) ← AbelianSandpile.__init__ N (Some seed) w;
   '(a, w) ← AbelianSandpile.simulate fuel n_step a w;
   '(b, w) ← AbelianSandpile.simulate fuel n_step b w;
   Ok (AbelianSandpile.snapshots a w, AbelianSandpile.snapshots b w)).

(** A counter in place of the Mersenne Twister: it satisfies the contract
    and computes, which is all the examples need. *)
Definition counter_random : AbelianSandpile.NumpyRandom nat := {|
  AbelianSandpile.np_random_seed := λ s r,
    match s with Some z => Z.to_nat z | None => S r end;
  AbelianSandpile.np_random_choice_grid := λ n r,
    ((λ i, (λ j, Z.of_nat ((r + i * n + j) `mod` 4)) <$> seq 0 n) <$> seq 0 n,
     (r + n * n)%nat);
  AbelianSandpile.np_random_choice := λ n r,
    (((r `mod` n)%nat, ((r `div` n) `mod` n)%nat), (r + 2)%nat)
|}.

(** ** Further vocabulary for the percolation engine *)

(** A path of Open cells from the top row to the bottom row. *)
Definition crossing (n : nat) (grid : ndarray) : Prop :=
  ∃ p c, open_path n grid p c ∧ c.1 = (n - 1)%nat.

(** Every Open site of [s] is Open in [s']. *)
Definition opens_more (n : nat) (s s' : ndarray) : Prop :=
  ∀ c, inb n c → cell s c = 1 → cell s' c = 1.

(** [np.flipud(a)] and [np.fliplr(a)] *)
Definition flipud (a : ndarray) : ndarray := reverse a.
Definition fliplr (a : ndarray) : ndarray := reverse <$> a.

(** The positions that [flipud] and [fliplr] move a cell to. *)
Definition flip_row (n : nat) (c : pos) : pos := ((n - 1 - c.1)%nat, c.2).
Definition flip_col (n : nat) (c : pos) : pos := (c.1, (n - 1 - c.2)%nat).

(** The grid in which every site is Open. *)
Definition all_open (n : nat) : ndarray := replicate n (replicate n 1).

(** The order in which the flow started at the top-left corner visits the
    all-Open grid: the even rows from left to right, the odd rows from
    right to left. [snake_index n c] is the position of [c] in that order,
    [snake_grid n k] the grid once the cells up to position [k] are
    Filled. *)
Definition snake_index (n : nat) (c : pos) : nat :=
  (c.1 * n + (if Nat.even c.1 then c.2 else n - 1 - c.2))%nat.

Definition snake_grid (n k : nat) : ndarray :=
  (λ i, (λ j, if decide (snake_index n (i, j) ≤ k)%nat then 2 else 1)
          <$> seq 0 n) <$> seq 0 n.

(** ** Percolation: the constructor and the random lattice

    [np.random.random()] returns a float64 of the interval from 0
    (included) to 1 (excluded) and [p] is a float: both are rationals
    here, and the comparison [>] of two floats is the comparison of the
    rationals. [np.zeros((n, n))] holds floats as well; the values 0.0,
    1.0 and 2.0 that the class writes and compares are the integers 0, 1
    and 2. The generator is the one of the sandpile: NumPy's global
    one. *)
Module PercolationConstructor.

Class NumpyRandomSample (rng : Type) `{AbelianSandpile.NumpyRandom rng}
    : Type := {
  (** [np.random.random()] *)
  np_random_random : rng → Q * rng
}.

(** [np.zeros((n, n))] *)
Definition np_zeros (n : nat) : ndarray := replicate n (replicate n 0).

Section Constructor.
Context {rng : Type} `{NumpyRandomSample rng}.

(** [for cind in range(self.n)] of [_initialize_grid], over the remaining
    columns of row [rind]. *)
Fixpoint initialize_row (p : Q) (grid : ndarray) (rind : nat)
    (cols : list nat) (r : rng) : result (ndarray * rng) :=
  match cols with
  | [] => Ok (grid, r)
  | cind :: cols =>
      let '(u, r) := np_random_random r in
      grid ← (if Qlt_le_dec p u then setitem grid rind cind 1 else Ok grid);
      initialize_row p grid rind cols r
  end.

(** [for rind in range(self.n)], over the remaining rows. *)
Fixpoint initialize_rows (n : nat) (p : Q) (grid : ndarray)
    (rows : list nat) (r : rng) : result (ndarray * rng) :=
  match rows with
  | [] => Ok (grid, r)
  | rind :: rows =>
      '(grid, r) ← initialize_row p grid rind (seq 0 n) r;
      initialize_rows n p grid rows r
  end.

Definition _initialize_grid (n : nat) (p : Q) (grid : ndarray) (r : rng)
    : result (ndarray * rng) :=
  initialize_rows n p grid (seq 0 n) r.

(** [__init__(n, p, grid, random_state)]: the object and the state of the
    global generator after the call. With a supplied [grid] the arguments
    [n] and [p] are not used. *)
Definition __init__ (n : nat) (p : Q) (grid : option ndarray)
    (random_state : option Z) (r : rng)
    : result (PercolationSimulation.t * rng) :=
  let r := AbelianSandpile.np_random_seed random_state r in
  match grid with
  | None =>
      '(g, r) ← _initialize_grid n p (np_zeros n) r;
      Ok (PercolationSimulation.mk n g g, r)
  | Some g =>
      self ← PercolationSimulation.__init__ g;
      Ok (self, r)
  end.

(** The first [k] values that [np.random.random()] returns from the state
    [r], and the state after them. *)
Fixpoint np_random_draws (k : nat) (r : rng) : list Q * rng :=
  match k with
  | O => ([], r)
  | S k =>
      let '(u, r) := np_random_random r in
      let '(us, r) := np_random_draws k r in
      (u :: us, r)
  end.

End Constructor.
End PercolationConstructor.

(** What the constructor relies on: a drawn float lies between 0
    (included) and 1 (excluded), and a seeded state depends on the seed
    only. *)
Class NumpyRandomSampleSpec (rng : Type)
    `{PercolationConstructor.NumpyRandomSample rng} : Prop := {
  random_unit r :
    (0 <= (PercolationConstructor.np_random_random r).1)%Q ∧
    ((PercolationConstructor.np_random_random r).1 < 1)%Q;
  sample_seed_resets s r1 r2 :
    AbelianSandpile.np_random_seed (Some s) r1
    = AbelianSandpile.np_random_seed (Some s) r2
}.

(** The counter generator, drawing the tenths in turn. *)
Definition counter_sample
    : @PercolationConstructor.NumpyRandomSample nat counter_random := {|
  PercolationConstructor.np_random_random := λ r,
    (Qmake (Z.of_nat (r `mod` 10)) 10, S r)
|}.


(** ** NumPy's global generator

    [np.random] is a Mersenne Twister (MT19937) seeded by [mt19937_seed],
    and [np.random.choice] without [p] draws its indices with the bounded
    integers of the legacy [randint]: for a range that fits in 32 bits,
    each value is the next 32-bit output under a mask, drawn again while
    it exceeds the range. The words of the state are 32-bit integers in
    [Z]. *)
Module MT19937.

Record state : Type := mk {
  key : list Z;
  pos : nat
}.

Definition mask32 (z : Z) : Z := Z.land z 4294967295.

Definition word (l : list Z) (k : nat) : Z := default 0 (l !! k).

(** [mt19937_seed]: the 624 words from position [i] on. *)
Fixpoint seed_from (k : nat) (i : Z) (s : Z) : list Z :=
  match k with
  | O => []
  | S k =>
      s :: seed_from k (i + 1)
             (mask32 (1812433253 * Z.lxor s (Z.shiftr s 30) + i + 1))
  end.

Definition mt19937_seed (seed : Z) : state :=
  mk (seed_from 624 0 (mask32 seed)) 624.

(** [mt19937_gen]: the next 624 words. The C code updates the array in
    place, so that word [k] reads the old words [k] and [k + 1] and, from
    [k = 227] on, the new word [k - 227]; the last word reads the new
    word 0. [new] holds the words computed so far. *)
Fixpoint gen_from (fuel : nat) (k : nat) (old new : list Z) : list Z :=
  match fuel with
  | O => new
  | S fuel =>
      let next := if decide (k = 623%nat) then word new 0
                  else word old (k + 1) in
      let y := Z.lor (Z.land (word old k) 2147483648)
                     (Z.land next 2147483647) in
      let far := if decide (k < 227)%nat then word old (k + 397)
                 else word new (k - 227) in
      let x := Z.lxor (Z.lxor far (Z.shiftr y 1))
                      (if Z.odd y then 2567483615 else 0) in
      gen_from fuel (S k) old (new ++ [x])
  end.

Definition mt19937_gen (old : list Z) : list Z := gen_from 624 0 old [].

Definition temper (y : Z) : Z :=
  let y := Z.lxor y (Z.shiftr y 11) in
  let y := Z.lxor y (Z.land (Z.shiftl y 7) 2636928640) in
  let y := Z.lxor y (Z.land (Z.shiftl y 15) 4022730752) in
  Z.lxor y (Z.shiftr y 18).

(** [mt19937_next]: the next 32-bit output. *)
Definition mt19937_next (st : state) : Z * state :=
  let st := if decide (pos st = 624%nat)
            then mk (mt19937_gen (key st)) 0 else st in
  (temper (word (key st) (pos st)), mk (key st) (S (pos st))).

(** [gen_mask]: the smallest number of the form 2^k - 1 that is at least
    [rng], for [rng] at least 1. *)
Definition gen_mask (rng : Z) : Z := Z.ones (Z.log2 rng + 1).

(** [buffered_bounded_masked_uint32]: outputs are drawn until one is at
    most [rng] under the mask. At most [fuel] outputs are tried. *)
Fixpoint bounded_masked (fuel : nat) (rng mask : Z) (st : state)
    : Z * state :=
  match fuel with
  | O => (0, st)
  | S fuel =>
      let '(y, st) := mt19937_next st in
      let v := Z.land y mask in
      if decide (v ≤ rng) then (v, st)
      else bounded_masked fuel rng mask st
  end.

(** One value of [randint(0, high)], for [high] at least 1 and at most
    2^32: no output is drawn when only 0 can be returned. *)
Definition randint (high : Z) (st : state) : Z * state :=
  let rng := high - 1 in
  if decide (rng = 0) then (0, st)
  else bounded_masked 64 rng (gen_mask rng) st.

(** [randint(0, high, size=k)] *)
Fixpoint randints (k : nat) (high : Z) (st : state) : list Z * state :=
  match k with
  | O => ([], st)
  | S k =>
      let '(v, st) := randint high st in
      let '(l, st) := randints k high st in
      (v :: l, st)
  end.

(** [randint(0, high, size=(r, c))]: the values fill the array row by
    row. *)
Fixpoint randint_rows (r c : nat) (high : Z) (st : state) : ndarray * state :=
  match r with
  | O => ([], st)
  | S r =>
      let '(row, st) := randints c high st in
      let '(a, st) := randint_rows r c high st in
      (row :: a, st)
  end.

(** The three calls of the class. [np.random.seed] raises for a seed
    that is not between 0 and 2^32 - 1, and with [None] it takes fresh
    entropy from the operating system: neither case is modelled (the seed
    is reduced to 32 bits, the state is kept). [choice([0, 1, 2, 3],
    size=(n, n))] indexes the list [0, 1, 2, 3] with [randint(0, 4,
    size=(n, n))]; [choice(n, 2)] is [randint(0, n, size=2)]. *)
Definition numpy_random : AbelianSandpile.NumpyRandom state := {|
  AbelianSandpile.np_random_seed := λ s st,
    match s with Some z => mt19937_seed z | None => st end;
  AbelianSandpile.np_random_choice_grid := λ n st, randint_rows n n 4 st;
  AbelianSandpile.np_random_choice := λ n st,
    let '(l, st) := randints 2 (Z.of_nat n) st in
    ((Z.to_nat (word l 0), Z.to_nat (word l 1)), st)
|}.

End MT19937.

Section ArrayFacts.
Context (n : nat).
Implicit Types (a b : ndarray) (c : pos) (v : Z).

Lemma square_lookup a i :
  square n a → (i < n)%nat → ∃ row, a !! i = Some row ∧ length row = n.
Proof.
  intros [Hl Hr] Hi.
  destruct (lookup_lt_is_Some_2 a i) as [row Hrow]; [lia|].
  exists row. split; [done|].
  eapply (Forall_lookup_1 _ _ _ _ Hr Hrow).
Qed.

Lemma getitem_ok a i j :
  square n a → inb n (i, j) → getitem a i j = Ok (cell a (i, j)).
Proof.
  intros Hsq [Hi Hj]; simpl in *.
  destruct (square_lookup a i Hsq Hi) as (row & Hrow & Hlen).
  unfold getitem, cell; simpl. rewrite Hrow.
  destruct (lookup_lt_is_Some_2 row j) as [v Hv]; [lia|].
  by rewrite Hv.
Qed.

Lemma setitem_ok a i j v :
  square n a → inb n (i, j) → setitem a i j v = Ok (upd a (i, j) v).
Proof.
  intros Hsq [Hi Hj]; simpl in *.
  destruct (square_lookup a i Hsq Hi) as (row & Hrow & Hlen).
  unfold setitem, upd; simpl. rewrite Hrow.
  rewrite decide_True by lia. f_equal.
  apply list_eq; intros k. destruct (decide (k = i)) as [->|Hne].
  - rewrite list_lookup_insert_eq by (eapply lookup_lt_Some; eauto).
    by rewrite list_lookup_alter, decide_True, Hrow by done.
  - rewrite list_lookup_insert_ne, list_lookup_alter_ne by done. done.
Qed.

Lemma square_upd a c v : square n a → square n (upd a c v).
Proof.
  intros [Hl Hr]. split; unfold upd.
  - by rewrite length_alter.
  - apply Forall_alter; [done|]. intros row _ Hrow. by rewrite length_insert.
Qed.

Lemma cell_upd_eq a c v : square n a → inb n c → cell (upd a c v) c = v.
Proof.
  intros Hsq [Hi Hj].
  destruct (square_lookup a c.1 Hsq Hi) as (row & Hrow & Hlen).
  unfold cell, upd. rewrite list_lookup_alter, decide_True, Hrow by done; simpl.
  rewrite list_lookup_insert_eq by lia. done.
Qed.

Lemma cell_upd_ne a c c' v : c ≠ c' → cell (upd a c v) c' = cell a c'.
Proof.
  intros Hne. unfold cell, upd.
  destruct (decide (c.1 = c'.1)) as [He|Hn].
  - rewrite <- He, list_lookup_alter, decide_True by done.
    destruct (a !! c.1) as [row|]; simpl; [|done].
    rewrite list_lookup_insert_ne; [done|].
    intros He2. apply Hne. destruct c, c'; simpl in *; congruence.
  - by rewrite list_lookup_alter_ne.
Qed.

Lemma cell_upd a c c' v :
  square n a → inb n c →
  cell (upd a c v) c' = if decide (c' = c) then v else cell a c'.
Proof.
  intros. case_decide as He.
  - subst. by apply cell_upd_eq.
  - by apply cell_upd_ne.
Qed.

Lemma ndarray_ext a b :
  square n a → square n b → (∀ c, inb n c → cell a c = cell b c) → a = b.
Proof.
  intros Ha Hb Hc. apply list_eq; intros i.
  destruct (decide (i < n)%nat) as [Hi|Hi].
  - destruct (square_lookup a i Ha Hi) as (ra & Hra & Hla).
    destruct (square_lookup b i Hb Hi) as (rb & Hrb & Hlb).
    rewrite Hra, Hrb. f_equal. apply list_eq; intros j.
    destruct (decide (j < n)%nat) as [Hj|Hj].
    + specialize (Hc (i, j) (conj Hi Hj)). unfold cell in Hc; simpl in Hc.
      rewrite Hra, Hrb in Hc.
      destruct (lookup_lt_is_Some_2 ra j) as [x Hx]; [lia|].
      destruct (lookup_lt_is_Some_2 rb j) as [y Hy]; [lia|].
      rewrite Hx, Hy in *. simpl in Hc. by subst.
    + rewrite !lookup_ge_None_2 by lia. done.
  - destruct Ha as [Ha _], Hb as [Hb _].
    rewrite !lookup_ge_None_2 by lia. done.
Qed.

Lemma elem_of_coords c : c ∈ coords n ↔ inb n c.
Proof.
  unfold coords, inb. rewrite list_elem_of_bind. split.
  - intros (i & Hj & Hi). apply list_elem_of_fmap in Hj as (j & -> & Hj).
    apply elem_of_seq in Hi, Hj. simpl. lia.
  - intros [Hi Hj]. exists c.1. split.
    + apply list_elem_of_fmap. exists c.2. split; [by destruct c|].
      apply elem_of_seq. lia.
    + apply elem_of_seq. lia.
Qed.

Lemma NoDup_coords : NoDup (coords n).
Proof.
  unfold coords. apply NoDup_bind.
  - intros i1 i2 c _ _ H1 H2.
    apply list_elem_of_fmap in H1 as (j1 & -> & _).
    apply list_elem_of_fmap in H2 as (j2 & [=] & _). done.
  - intros i _. apply NoDup_fmap_2; [|apply NoDup_seq].
    intros j1 j2 [=]. done.
  - apply NoDup_seq.
Qed.
End ArrayFacts.

(** ** Counting cells *)

Section Counting.
Context {A : Type}.
Implicit Types (P Q : A → Prop) (l : list A).

Lemma filter_length_mono P Q `{∀ x, Decision (P x)} `{∀ x, Decision (Q x)} l :
  (∀ x, x ∈ l → P x → Q x) →
  (length (filter P l) ≤ length (filter Q l))%nat.
Proof.
  induction l as [|x l IH]; intros HPQ; [done|].
  rewrite !filter_cons.
  assert (length (filter P l) ≤ length (filter Q l))%nat as IH'.
  { apply IH. intros y Hy. apply HPQ. by right. }
  destruct (decide (P x)) as [HP|HP], (decide (Q x)) as [HQ|HQ];
    simpl; try lia.
  destruct HQ. apply HPQ; [left|done].
Qed.

Lemma filter_length_lt P Q `{∀ x, Decision (P x)} `{∀ x, Decision (Q x)} l x :
  (∀ y, y ∈ l → P y → Q y) → x ∈ l → Q x → ¬ P x →
  (length (filter P l) < length (filter Q l))%nat.
Proof.
  induction l as [|y l IH]; intros HPQ Hx HQ HP.
  { by apply elem_of_nil in Hx. }
  rewrite !filter_cons.
  assert (length (filter P l) ≤ length (filter Q l))%nat as Hle.
  { apply filter_length_mono. intros z Hz. apply HPQ. by right. }
  apply elem_of_cons in Hx as [<-|Hx].
  - rewrite (decide_False (P:=P x)), (decide_True (P:=Q x)) by done.
    simpl. lia.
  - assert (length (filter P l) < length (filter Q l))%nat as Hlt.
    { apply IH; try done. intros z Hz. apply HPQ. by right. }
    destruct (decide (P y)), (decide (Q y)); simpl; try lia.
    destruct n. apply HPQ; [left|done].
Qed.
End Counting.

(** ** The flood fill *)

Section Flow.
Import PercolationSimulation.
Context (n : nat).
Implicit Types (g s : ndarray) (c : pos).

Lemma fills_refl g : square n g → fills n g g.
Proof. intros. split; [done|]. intros; by left. Qed.

Lemma fills_trans g1 g2 g3 : fills n g1 g2 → fills n g2 g3 → fills n g1 g3.
Proof.
  intros [_ H12] [Hsq H23]. split; [done|]. intros c Hc.
  destruct (H12 c Hc) as [E1|[E1 E1']], (H23 c Hc) as [E2|[E2 E2']];
    [left|right|right|]; try (split; congruence); try congruence.
Qed.

Lemma fills_upd g c :
  square n g → inb n c → cell g c = 1 ∨ cell g c = 2 → fills n g (upd g c 2).
Proof.
  intros Hsq Hc Hv. split; [by apply square_upd|]. intros c' Hc'.
  rewrite (cell_upd n) by done. case_decide; subst; [|by left].
  destruct Hv; [by right|by left].
Qed.

Lemma fills_keeps_filled g g' c : fills n g g' → inb n c → cell g c = 2 → cell g' c = 2.
Proof. intros [_ H] Hc Hv. destruct (H c Hc) as [?|[? ?]]; congruence. Qed.

Lemma fills_not_open g g' c : fills n g g' → inb n c → cell g c ≠ 1 → cell g' c ≠ 1.
Proof. intros [_ H] Hc Hv. destruct (H c Hc) as [?|[? ?]]; congruence. Qed.

Lemma closed_mono g g' c : fills n g g' → closed n g c → closed n g' c.
Proof. intros Hf Hcl c' Hc' Hadj. eapply fills_not_open; eauto. Qed.

Lemma flooded_refl g : square n g → flooded n g g.
Proof. intros. split; [by apply fills_refl|]. intros; congruence. Qed.

Lemma flooded_trans g1 g2 g3 : flooded n g1 g2 → flooded n g2 g3 → flooded n g1 g3.
Proof.
  intros [H12 C12] [H23 C23]. split; [by eapply fills_trans|].
  intros c Hc Hn H3. destruct (decide (cell g2 c = 2)) as [H2|H2].
  - eapply closed_mono; eauto.
  - eauto.
Qed.

Lemma ones_mono g g' : fills n g g' → (ones n g' ≤ ones n g)%nat.
Proof.
  intros [_ H]. apply filter_length_mono. intros c Hc%elem_of_coords Hv.
  destruct (H c Hc) as [?|[? ?]]; congruence.
Qed.

Lemma ones_lt g g' c :
  fills n g g' → inb n c → cell g c = 1 → cell g' c ≠ 1 → (ones n g' < ones n g)%nat.
Proof.
  intros [_ H] Hc H1 H2. apply (filter_length_lt _ _ _ c); try done.
  - intros c' Hc'%elem_of_coords Hv.
    destruct (H c' Hc') as [?|[? ?]]; congruence.
  - by apply elem_of_coords.
Qed.

Lemma length_coords : length (coords n) = (n * n)%nat.
Proof.
  unfold coords.
  assert (∀ l : list nat,
    length (l ≫= λ i : nat, (λ j : nat, (i, j)) <$> seq 0 n)
    = (length l * n)%nat) as E.
  { induction l as [|i l IH]; [done|].
    rewrite bind_cons, length_app, IH, length_fmap, length_seq.
    simpl. lia. }
  by rewrite E, length_seq.
Qed.

Lemma ones_bound g : (ones n g ≤ n * n)%nat.
Proof. unfold ones. rewrite <- length_coords. apply length_filter. Qed.

Lemma sound_upd s g c c0 :
  square n g → sound n s g → inb n c0 → cell g c0 = 2 → adjacent c0 c →
  inb n c → cell g c = 1 ∨ cell g c = 2 → sound n s (upd g c 2).
Proof.
  intros Hsq Hs Hc0 Hv0 Hadj Hc Hv c' Hc'.
  rewrite (cell_upd n) by done. case_decide as He; [subst c'|by apply Hs].
  split; [intros _|congruence].
  destruct Hv as [Hv|Hv]; [|by apply Hs].
  eapply reach_step; [by apply (Hs c0)|done|done|].
  destruct (Hs c Hc) as [_ E]. rewrite <- E; [done|congruence].
Qed.

(** What [_poll_neighbors] returns on a square grid. *)
Lemma poll_neighbors_ok g i j :
  square n g → inb n (i, j) →
  _poll_neighbors n g i j =
    Ok {| mleft := bool_decide (j ≠ 0%nat ∧ cell g (i, (j - 1)%nat) = 1);
          mright := bool_decide (j ≠ (n - 1)%nat ∧ cell g (i, (j + 1)%nat) = 1);
          mup := bool_decide (i ≠ 0%nat ∧ cell g ((i - 1)%nat, j) = 1);
          mdown := bool_decide (i ≠ (n - 1)%nat ∧ cell g ((i + 1)%nat, j) = 1) |}.
Proof.
  intros Hsq [Hi Hj]; simpl in *. unfold _poll_neighbors.
  assert (∀ (P : Prop) `{Decision P} i' j',
    (P → inb n (i', j')) →
    (if decide P
     then v ← getitem g i' j'; Ok (bool_decide (v = 1))
     else Ok false) = Ok (bool_decide (P ∧ cell g (i', j') = 1))) as E.
  { intros P ? i' j' Hin. case_decide as HP.
    - rewrite (getitem_ok n) by auto. simpl.
      f_equal. apply bool_decide_ext. tauto.
    - f_equal. symmetry. apply bool_decide_eq_false. tauto. }
  rewrite !E; [done|..]; intros ?; split; simpl; lia.
Qed.

(** The neighbours of an in-bounds cell, as the four guarded directions. *)
Lemma adjacent_cases i j c' :
  inb n (i, j) → inb n c' → adjacent (i, j) c' →
  (j ≠ 0%nat ∧ c' = (i, (j - 1)%nat)) ∨
  (j ≠ (n - 1)%nat ∧ c' = (i, (j + 1)%nat)) ∨
  (i ≠ 0%nat ∧ c' = ((i - 1)%nat, j)) ∨
  (i ≠ (n - 1)%nat ∧ c' = ((i + 1)%nat, j)).
Proof.
  destruct c' as [i' j']. unfold inb, adjacent; simpl.
  intros [Hi Hj] [Hi' Hj'] [[E1 [E2|E2]]|[E1 [E2|E2]]]; subst.
  - right; left. split; [lia|]. f_equal; lia.
  - left. split; [lia|]. f_equal; lia.
  - do 3 right. split; [lia|]. f_equal; lia.
  - do 2 right; left. split; [lia|]. f_equal; lia.
Qed.

(** One of the four branches of [_flow_recursive]: fill the neighbour and
    recurse into it. *)
Lemma flow_branch depth g c nb :
  flow_spec n depth →
  square n g → inb n c → cell g c = 2 → adjacent c nb → inb n nb →
  cell g nb = 1 ∨ cell g nb = 2 →
  (ones n (upd g nb 2) < depth)%nat →
  ∃ g', (g1 ← setitem g nb.1 nb.2 2; _flow_recursive depth n g1 nb.1 nb.2) = Ok g' ∧
        flooded n g g' ∧ cell g' nb = 2 ∧
        ∀ s, sound n s g → sound n s g'.
Proof.
  intros IH Hsq Hc Hvc Hadj Hnb Hv Hd.
  destruct nb as [i' j']. rewrite (setitem_ok n) by done. simpl.
  pose proof (fills_upd g (i', j') Hsq Hnb Hv) as Hf.
  destruct (IH (upd g (i', j') 2) (i', j')) as (g' & Hrun & [Hf' Hcl'] & Hclc & Hs);
    [by apply square_upd|done|by apply (cell_upd_eq n)|done|].
  exists g'. split; [done|]. split; [split|split].
  - by eapply fills_trans.
  - intros c' Hc' Hn H2.
    destruct (decide (c' = (i', j'))) as [->|Hne]; [done|].
    apply Hcl'; [done| |done]. by rewrite cell_upd_ne.
  - eapply fills_keeps_filled; [done..|]. by apply (cell_upd_eq n).
  - intros s Hsound. apply Hs. by apply (sound_upd s g (i', j') c).
Qed.

(** The same branch behind its guard, as it stands in the body: the flag
    was polled on [g0], the branch runs on the current grid [g]. *)
Lemma flow_branch_if depth g0 g c nb (P : Prop) `{Decision P} :
  flow_spec n depth →
  square n g0 → inb n c → cell g0 c = 2 → (ones n g0 ≤ depth)%nat →
  (P → adjacent c nb ∧ inb n nb) →
  flooded n g0 g → (∀ s, sound n s g0 → sound n s g) →
  ∃ g', (if bool_decide (P ∧ cell g0 nb = 1)
         then g1 ← setitem g nb.1 nb.2 2; _flow_recursive depth n g1 nb.1 nb.2
         else Ok g) = Ok g' ∧
        flooded n g g' ∧ flooded n g0 g' ∧
        (∀ s, sound n s g0 → sound n s g') ∧
        (P → cell g' nb ≠ 1).
Proof.
  intros IH Hsq Hc Hvc Hd HP Hfl Hs.
  pose proof Hfl as [Hf _]. pose proof Hf as [Hsqg Hcells].
  case_bool_decide as Hb.
  - destruct Hb as [Hp Hv]. destruct (HP Hp) as [Hadj Hnb].
    assert (cell g nb = 1 ∨ cell g nb = 2) as Hv'.
    { destruct (Hcells nb Hnb) as [->|[_ ->]]; auto. }
    destruct (flow_branch depth g c nb) as (g' & Hrun & Hfl' & Hv2 & Hs');
      try done.
    { by eapply fills_keeps_filled. }
    { eapply Nat.lt_le_trans; [|exact Hd].
      apply (ones_lt g0 _ nb); try done.
      - eapply fills_trans; [done|]. by apply fills_upd.
      - rewrite (cell_upd_eq n) by done. done. }
    exists g'. split; [done|]. split; [done|]. split; [|split].
    + by eapply flooded_trans.
    + intros s Hs0. apply Hs'. by apply Hs.
    + intros _. rewrite Hv2. done.
  - exists g. split; [done|]. split; [by apply flooded_refl|].
    split; [done|]. split; [done|].
    intros Hp. destruct (HP Hp) as [_ Hnb].
    eapply fills_not_open; [done..|]. tauto.
Qed.

Lemma flow_ok depth : flow_spec n depth.
Proof.
  induction depth as [|depth IH]; intros g [i j] Hsq Hc Hvc Hd; [lia|].
  simpl. rewrite poll_neighbors_ok by done. simpl.
  assert (ones n g ≤ depth)%nat as Hd' by lia.
  pose proof Hc as [Hi Hj]; simpl in Hi, Hj.
  destruct (flow_branch_if depth g g (i, j) (i, (j - 1)%nat) (j ≠ 0%nat))
    as (g1 & R1 & F1 & G1 & S1 & N1); try done.
  { intros ?. unfold adjacent, inb; simpl. split; [left|]; lia. }
  { by apply flooded_refl. }
  simpl in R1. rewrite R1. simpl.
  destruct (flow_branch_if depth g g1 (i, j) (i, (j + 1)%nat) (j ≠ (n - 1)%nat))
    as (g2 & R2 & F2 & G2 & S2 & N2); try done.
  { intros ?. unfold adjacent, inb; simpl. split; [left|]; lia. }
  simpl in R2. rewrite R2. simpl.
  destruct (flow_branch_if depth g g2 (i, j) ((i - 1)%nat, j) (i ≠ 0%nat))
    as (g3 & R3 & F3 & G3 & S3 & N3); try done.
  { intros ?. unfold adjacent, inb; simpl. split; [right|]; lia. }
  simpl in R3. rewrite R3. simpl.
  destruct (flow_branch_if depth g g3 (i, j) ((i + 1)%nat, j) (i ≠ (n - 1)%nat))
    as (g4 & R4 & F4 & G4 & S4 & N4); try done.
  { intros ?. unfold adjacent, inb; simpl. split; [right|]; lia. }
  simpl in R4. rewrite R4. simpl.
  exists g4. split; [done|]. split; [done|]. split; [|done].
  intros c' Hc' Hadj.
  destruct F2 as [F2 _], F3 as [F3 _], F4 as [F4 _].
  destruct (adjacent_cases i j c' Hc Hc' Hadj)
    as [[? ->]|[[? ->]|[[? ->]|[? ->]]]].
  - do 3 (eapply fills_not_open; [done..|]). auto.
  - do 2 (eapply fills_not_open; [done..|]). auto.
  - eapply fills_not_open; [done..|]. auto.
  - auto.
Qed.

(** A deeper recursion limit does not change a result already obtained. *)
Lemma flow_depth_mono depth depth' g i j g' :
  _flow_recursive depth n g i j = Ok g' → (depth ≤ depth')%nat →
  _flow_recursive depth' n g i j = Ok g'.
Proof.
  revert depth' g i j g'.
  induction depth as [|depth IH]; intros depth' g i j g' Hrun Hle; [done|].
  destruct depth' as [|depth']; [lia|]. simpl in *.
  destruct (_poll_neighbors n g i j) as [[l r u d]|]; simpl in *; [|done].
  assert (∀ (b : bool) g0 i' j' g1,
    (if b then x ← setitem g0 i' j' 2; _flow_recursive depth n x i' j'
     else Ok g0) = Ok g1 →
    (if b then x ← setitem g0 i' j' 2; _flow_recursive depth' n x i' j'
     else Ok g0) = Ok g1) as E.
  { intros [] g0 i' j' g1; [|done].
    destruct (setitem g0 i' j' 2); simpl; [|done].
    intros. apply (IH depth'); [done|lia]. }
  destruct (if l then _ else _) as [g1|] eqn:E1 in Hrun; simpl in Hrun; [|done].
  rewrite (E _ _ _ _ _ E1). simpl.
  destruct (if r then _ else _) as [g2|] eqn:E2 in Hrun; simpl in Hrun; [|done].
  rewrite (E _ _ _ _ _ E2). simpl.
  destruct (if u then _ else _) as [g3|] eqn:E3 in Hrun; simpl in Hrun; [|done].
  rewrite (E _ _ _ _ _ E3). simpl.
  destruct (if d then _ else _) as [g4|] eqn:E4 in Hrun; simpl in Hrun; [|done].
  rewrite (E _ _ _ _ _ E4). simpl. done.
Qed.

Lemma percolate_loop_depth_mono depth depth' s g cols g' :
  percolate_loop depth n s g cols = Ok g' → (depth ≤ depth')%nat →
  percolate_loop depth' n s g cols = Ok g'.
Proof.
  revert g. induction cols as [|cind cols IH]; intros g Hrun Hle; [done|].
  simpl in *. unfold percolate_column in *.
  destruct (getitem s 0 cind) as [v|]; simpl in *; [|done].
  case_decide.
  - destruct (setitem g 0 cind 2) as [g1|]; simpl in *; [|done].
    destruct (_flow_recursive depth n g1 0 cind) as [g2|] eqn:E;
      simpl in *; [|done].
    rewrite (flow_depth_mono _ _ _ _ _ _ E Hle). simpl. by apply IH.
  - simpl in *. by apply IH.
Qed.

Lemma sound_upd_top s g j :
  square n g → sound n s g → (j < n)%nat → cell s (0%nat, j) = 1 →
  sound n s (upd g (0%nat, j) 2).
Proof.
  intros Hsq Hs Hj Hv c' Hc'.
  assert (inb n (0%nat, j)) by (split; simpl; lia).
  rewrite (cell_upd n) by done. case_decide as He; [subst c'|by apply Hs].
  split; [intros _|congruence]. by apply reach_top.
Qed.

Lemma fills_open_or_filled g g' c :
  fills n g g' → inb n c →
  cell g c = 1 ∨ cell g c = 2 → cell g' c = 1 ∨ cell g' c = 2.
Proof. intros [_ H] Hc Hv. destruct (H c Hc) as [->|[_ ->]]; auto. Qed.

Lemma all_closed_flooded g g' :
  all_closed n g → flooded n g g' → all_closed n g'.
Proof.
  intros Hcl [Hf Hnew] c Hc Hv.
  destruct (decide (cell g c = 2)) as [Hg|Hg]; [|by apply Hnew].
  eapply closed_mono; [done|]. by apply Hcl.
Qed.

(** The loop of [percolate] over the columns [cols], from a filled grid
    [g] in which the Open top cells of [cols] are still Open or already
    Filled: each of them ends Filled and without Open neighbour. *)
Lemma percolate_loop_ok depth s g cols :
  (n * n < depth)%nat →
  square n s → square n g →
  Forall (λ j, (j < n)%nat ∧
               (cell s (0%nat, j) = 1 →
                cell g (0%nat, j) = 1 ∨ cell g (0%nat, j) = 2)) cols →
  ∃ g', percolate_loop depth n s g cols = Ok g' ∧
        flooded n g g' ∧ (sound n s g → sound n s g') ∧
        Forall (λ j, cell s (0%nat, j) = 1 →
                     cell g' (0%nat, j) = 2 ∧ closed n g' (0%nat, j)) cols.
Proof.
  intros Hd Hs. revert g.
  induction cols as [|j cols IH]; intros g Hsq Hcols.
  { exists g. split; [done|]. split; [by apply flooded_refl|]. done. }
  apply Forall_cons in Hcols as [[Hj Hg] Hcols].
  assert (inb n (0%nat, j)) as Hc by (split; simpl; lia).
  simpl. unfold percolate_column. rewrite (getitem_ok n) by done. simpl.
  case_decide as Hv.
  - rewrite (setitem_ok n) by done. simpl. specialize (Hg Hv).
    pose proof (fills_upd g _ Hsq Hc Hg) as Hf1.
    destruct (flow_ok depth (upd g (0%nat, j) 2) (0%nat, j))
      as (g1 & Hrun & [Hf Hnew] & Hclc & Hs1).
    { by apply square_upd. } { done. } { by apply (cell_upd_eq n). }
    { pose proof (ones_bound (upd g (0%nat, j) 2)). lia. }
    simpl in Hrun. rewrite Hrun. simpl.
    assert (flooded n g g1) as Hgg1.
    { split; [by eapply fills_trans|]. intros c Hcin Hgc Hv2.
      destruct (decide (c = (0%nat, j))) as [->|Hne]; [done|].
      apply Hnew; [done| |done]. by rewrite cell_upd_ne. }
    destruct (IH g1) as (g' & Hrun' & Hf' & Hs' & Htop).
    { by destruct Hf. }
    { eapply Forall_impl; [exact Hcols|]. intros j' [Hj' Hg'].
      split; [done|]. intros Hv'.
      apply (fills_open_or_filled g g1); [by destruct Hgg1|split; simpl; lia|auto]. }
    exists g'. split; [done|]. split; [by eapply flooded_trans|].
    split; [|apply Forall_cons; split; [|done]].
    + intros Hsound. apply Hs', Hs1. by apply sound_upd_top.
    + intros _. destruct Hf' as [Hf' _]. split.
      * apply (fills_keeps_filled g1 g'); [done..|].
        apply (fills_keeps_filled (upd g (0%nat, j) 2) g1); [done..|].
        by apply (cell_upd_eq n).
      * by eapply closed_mono.
  - simpl. destruct (IH g) as (g' & Hrun' & Hf' & Hs' & Htop); try done.
    exists g'. split; [done|]. split; [done|]. split; [done|].
    apply Forall_cons. split; [done|done].
Qed.

(** In a sound grid in which every Filled cell is closed and the Open
    cells of the top row are Filled, every reachable cell is Filled. *)
Lemma reachable_filled s g c :
  sound n s g → all_closed n g →
  (∀ j, (j < n)%nat → cell s (0%nat, j) = 1 → cell g (0%nat, j) = 2) →
  reachable n s c → cell g c = 2.
Proof.
  intros Hs Hcl Htop. induction 1 as [j Hj Hv|c c' Hr IH Hadj Hc' Hv].
  - by apply Htop.
  - destruct (decide (cell g c' = 2)) as [|Hn]; [done|].
    destruct (Hs c' Hc') as [_ E]. specialize (E Hn).
    assert (inb n c) as Hc.
    { destruct Hr; [split; simpl; lia|done]. }
    destruct (Hcl c Hc IH c' Hc' Hadj). congruence.
Qed.

Lemma reachable_open s c : reachable n s c → inb n c ∧ cell s c = 1.
Proof. destruct 1; [split; [split; simpl; lia|done]|done]. Qed.

Lemma chained_snoc (p : list pos) x :
  chained (p ++ [x]) ↔ chained p ∧ ∀ c0, last p = Some c0 → adjacent c0 x.
Proof.
  induction p as [|c [|c' q] IH].
  - simpl. split; [|done]. intros _. split; [done|]. intros c0 [=].
  - simpl. split.
    + intros [Hadj _]. split; [done|]. by intros c0 [= <-].
    + intros [_ H]. split; [|done]. by apply H.
  - change (chained ((c :: c' :: q) ++ [x]))
      with (adjacent c c' ∧ chained ((c' :: q) ++ [x])).
    change (chained (c :: c' :: q)) with (adjacent c c' ∧ chained (c' :: q)).
    change (last (c :: c' :: q)) with (last (c' :: q)).
    rewrite IH. tauto.
Qed.

(** Reachability is the existence of a path of Open cells from the top
    row. *)
Lemma reachable_iff_path s c :
  reachable n s c ↔ ∃ p, open_path n s p c.
Proof.
  split.
  - induction 1 as [j Hj Hv|c c' Hr (p & (j & Hh) & Hl & Hch & Hall) Hadj Hc' Hv].
    + exists [(0%nat, j)]. split; [by exists j|]. split; [done|].
      split; [done|]. apply Forall_singleton. split; [split; simpl; lia|done].
    + exists (p ++ [c']). split; [|split; [|split]].
      * exists j. destruct p; [done|]. done.
      * by rewrite last_snoc.
      * apply chained_snoc. split; [done|]. intros c0 E.
        rewrite Hl in E. by injection E as <-.
      * apply Forall_app. split; [done|]. by apply Forall_singleton.
  - intros (p & Hh & Hl & Hch & Hall). revert c Hh Hl Hch Hall.
    induction p as [|x q IH] using rev_ind; intros c [j Hh] Hl Hch Hall.
    { done. }
    rewrite last_snoc in Hl. injection Hl as ->.
    apply Forall_app in Hall as [Hq [Hc Hv]%Forall_singleton].
    apply chained_snoc in Hch as [Hch Hadj].
    destruct (last q) as [c0|] eqn:E.
    + apply (reach_step n s c0 c); [|by apply Hadj|done|done].
      apply IH; try done. exists j. destruct q; [done|]. done.
    + apply last_None in E as ->. simpl in Hh. injection Hh as ->.
      apply reach_top; [by destruct Hc|done].
Qed.

Lemma binary_cell s c :
  square n s → binary s → inb n c → cell s c = 0 ∨ cell s c = 1.
Proof.
  intros Hsq Hb [Hi Hj].
  destruct (square_lookup n s c.1 Hsq Hi) as (row & Hrow & Hlen).
  destruct (lookup_lt_is_Some_2 row c.2) as [v Hv]; [lia|].
  unfold cell. rewrite Hrow, Hv. simpl.
  eapply Forall_lookup_1 in Hb; [|done].
  by eapply Forall_lookup_1 in Hb.
Qed.

Lemma sound_init s : square n s → binary s → sound n s s.
Proof.
  intros Hsq Hb c Hc. split; [|done].
  destruct (binary_cell s c Hsq Hb Hc); lia.
Qed.

Lemma all_closed_init s : square n s → binary s → all_closed n s.
Proof.
  intros Hsq Hb c Hc. destruct (binary_cell s c Hsq Hb Hc); lia.
Qed.

Lemma upd_same g c : square n g → inb n c → upd g c (cell g c) = g.
Proof.
  intros Hsq Hc. apply (ndarray_ext n); [by apply square_upd|done|].
  intros c' Hc'. rewrite (cell_upd n) by done. case_decide; by subst.
Qed.

(** [2 in self.grid_filled[-1]] *)
Lemma last_row_ok g :
  (0 < n)%nat → square n g →
  ∃ row, last_row g = Ok row ∧
         (2 ∈ row ↔ ∃ j, (j < n)%nat ∧ cell g ((n - 1)%nat, j) = 2).
Proof.
  intros Hn Hsq.
  destruct (square_lookup n g (n - 1)%nat Hsq) as (row & Hrow & Hlen); [lia|].
  exists row. unfold last_row. rewrite last_lookup.
  destruct Hsq as [Hl _].
  replace (pred (length g)) with (n - 1)%nat by lia. rewrite Hrow.
  split; [done|]. unfold cell; simpl. rewrite Hrow.
  rewrite list_elem_of_lookup. split.
  - intros [j Hj]. exists j. split.
    + apply lookup_lt_Some in Hj. lia.
    + by rewrite Hj.
  - intros (j & Hj & Hv). exists j.
    destruct (lookup_lt_is_Some_2 row j) as [v Hv']; [lia|].
    rewrite Hv' in *. simpl in Hv. by subst.
Qed.

(** A call at a cell without Open neighbours changes nothing and needs
    one stack frame only. *)
Lemma flow_closed depth g c :
  square n g → inb n c → closed n g c →
  _flow_recursive (S depth) n g c.1 c.2 = Ok g.
Proof.
  intros Hsq Hc Hcl. destruct c as [i j]. simpl.
  rewrite poll_neighbors_ok by done. simpl.
  destruct Hc as [Hi Hj]; simpl in *.
  rewrite !bool_decide_eq_false_2; [done|..]; intros [Hg Hv];
    revert Hv; apply Hcl; unfold inb, adjacent; simpl; lia.
Qed.

(** The loop of [percolate] on a grid in which the Open top cells are
    Filled and have no Open neighbour. *)
Lemma percolate_loop_again depth s g cols :
  square n s → square n g →
  Forall (λ j, (j < n)%nat ∧
               (cell s (0%nat, j) = 1 →
                cell g (0%nat, j) = 2 ∧ closed n g (0%nat, j))) cols →
  percolate_loop (S depth) n s g cols = Ok g.
Proof.
  intros Hs Hsq. induction cols as [|j cols IH]; intros Hcols; [done|].
  apply Forall_cons in Hcols as [[Hj Htop] Hcols].
  assert (inb n (0%nat, j)) as Hc by (split; simpl; lia).
  cbn [percolate_loop]. unfold percolate_column.
  rewrite (getitem_ok n) by done. cbn [mbind result_bind].
  case_decide as Hv.
  - rewrite (setitem_ok n) by done. cbn [mbind result_bind].
    destruct (Htop Hv) as [Hfilled Hclosed].
    rewrite <- Hfilled at 1. rewrite upd_same by done.
    pose proof (flow_closed depth g (0%nat, j) Hsq Hc Hclosed) as E.
    cbn [fst snd] in E. rewrite E.
    cbn [mbind result_bind]. by apply IH.
  - cbn [mbind result_bind]. by apply IH.
Qed.
End Flow.

Section Percolate.
Import PercolationSimulation.
Context (n : nat) (s : ndarray).
Hypothesis (Hn : (0 < n)%nat) (Hsq : square n s).

Lemma percolate_loop_total depth :
  (n * n < depth)%nat →
  ∃ g, percolate_loop depth n s s (seq 0 n) = Ok g ∧
       flooded n s g ∧ (sound n s s → sound n s g) ∧
       ∀ j, (j < n)%nat → cell s (0%nat, j) = 1 →
            cell g (0%nat, j) = 2 ∧ closed n g (0%nat, j).
Proof.
  intros Hd.
  destruct (percolate_loop_ok n depth s s (seq 0 n)) as (g & R & F & So & T);
    try done.
  { apply Forall_seq. intros j Hj. split; [lia|auto]. }
  exists g. repeat (split; [done|]). intros j Hj.
  rewrite Forall_seq in T. apply T. lia.
Qed.

Lemma percolate_total depth :
  (n * n < depth)%nat →
  ∃ g b, percolate depth (mk n s s) = Ok (mk n s g, b).
Proof.
  intros Hd. destruct (percolate_loop_total depth Hd) as (g & R & [[Hg _] _] & _).
  destruct (last_row_ok n g Hn Hg) as (row & Hrow & _).
  exists g, (bool_decide (2 ∈ row)).
  unfold percolate. simpl. rewrite R. simpl. by rewrite Hrow.
Qed.

(** A completed call of [percolate] on a fresh object. *)
Lemma percolate_run depth self' b :
  percolate depth (mk n s s) = Ok (self', b) →
  ∃ g, self' = mk n s g ∧
       flooded n s g ∧ (sound n s s → sound n s g) ∧
       (∀ j, (j < n)%nat → cell s (0%nat, j) = 1 →
             cell g (0%nat, j) = 2 ∧ closed n g (0%nat, j)) ∧
       (b = true ↔ reaches_bottom n g).
Proof.
  unfold percolate. simpl. intros Hrun.
  destruct (percolate_loop depth n s s (seq 0 n)) as [g|] eqn:R;
    simpl in Hrun; [|done].
  destruct (percolate_loop_total (Nat.max depth (S (n * n))))
    as (g' & R' & F & So & T); [lia|].
  rewrite (percolate_loop_depth_mono n _ (Nat.max depth (S (n * n))) _ _ _ _ R) in R'
    by lia.
  injection R' as <-.
  destruct (last_row_ok n g Hn (proj1 (proj1 F))) as (row & Hrow & Hb).
  rewrite Hrow in Hrun. simpl in Hrun. injection Hrun as <- <-.
  exists g. repeat (split; [done|]).
  rewrite bool_decide_eq_true. done.
Qed.

Lemma flooded_is_flood_fill g :
  binary s → flooded n s g → sound n s g →
  (∀ j, (j < n)%nat → cell s (0%nat, j) = 1 → cell g (0%nat, j) = 2) →
  flood_fill_of n s g.
Proof.
  intros Hbin Hfl Hs Htop.
  assert (all_closed n g) as Hcl.
  { eapply all_closed_flooded; [|done]. by apply all_closed_init. }
  destruct Hfl as [[Hg _] _]. split; [done|]. intros c Hc.
  split; [split|by apply Hs].
  - intros Hv. destruct (Hs c Hc) as [Hr _]. specialize (Hr Hv).
    split; [by apply (reachable_open n s c)|]. by apply reachable_iff_path.
  - intros [_ Hr%reachable_iff_path]. by eapply reachable_filled.
Qed.
End Percolate.

(** ** The percolation engine: results *)

Module PercolationResults.
Import PercolationSimulation.

Lemma n_unique_binary (a : ndarray) : binary a → (n_unique a ≤ 2)%nat.
Proof.
  intros Hb. unfold n_unique.
  assert (remove_dups (concat a) ⊆+ [0; 1]) as Hsub.
  { apply NoDup_submseteq; [apply NoDup_remove_dups|].
    intros v Hv. rewrite elem_of_remove_dups in Hv.
    apply list_elem_of_In, in_concat in Hv as (row & Hrow & Hv).
    apply list_elem_of_In in Hrow, Hv.
    unfold binary in Hb. rewrite Forall_forall in Hb. specialize (Hb row Hrow).
    rewrite Forall_forall in Hb. destruct (Hb v Hv) as [->| ->].
    - by left.
    - right; by left. }
  by apply submseteq_length in Hsub.
Qed.

(** The constructor accepts every grid of 0s and 1s, and the object it
    builds has [grid_filled] equal to [grid]. *)
Lemma init_binary (a : ndarray) :
  binary a → __init__ a = Ok (mk (length a) a a).
Proof.
  intros Hb. unfold __init__.
  by rewrite decide_True by by apply n_unique_binary.
Qed.

(** C1: on a valid n by n grid of 0s and 1s (n at least 1), whenever
    [percolate] completes, the filled grid holds 2 exactly at the Open
    cells reachable from an Open top-row cell through orthogonally
    adjacent in-bounds Open cells, every other cell keeps its source
    value, and the result is True exactly when some cell of the last row
    is 2; it completes as soon as the recursion limit exceeds n*n. On
    [[1,0],[1,1]] the filled grid is [[2,0],[2,2]] and the result True. *)
Theorem percolate_fills_reachable :
  (∀ (n : nat) (s : ndarray) (depth : nat),
      (0 < n)%nat → square n s → binary s →
      (∀ self' b,
          percolate depth (mk n s s) = Ok (self', b) →
          PercolationSimulation.n self' = n ∧ grid self' = s ∧
          flood_fill_of n s (grid_filled self') ∧
          (b = true ↔ reaches_bottom n (grid_filled self'))) ∧
      ((n * n < depth)%nat →
       ∃ self' b, percolate depth (mk n s s) = Ok (self', b))) ∧
  (self ← __init__ [[1; 0]; [1; 1]]; percolate 5 self)
  = Ok (mk 2 [[1; 0]; [1; 1]] [[2; 0]; [2; 2]], true).
Proof.
  split; [|by vm_compute].
  intros n s depth Hn Hsq Hbin. split.
  - intros self' b Hrun.
    destruct (percolate_run n s Hn Hsq depth self' b Hrun)
      as (g & -> & F & So & T & Hb).
    simpl. repeat (split; [done|]). split; [|done].
    apply flooded_is_flood_fill; try done.
    + apply So. by apply sound_init.
    + intros j Hj Hv. by apply T.
  - intros Hd.
    destruct (percolate_total n s Hn Hsq depth Hd) as (g & b & R).
    by exists (mk n s g), b.
Qed.

Lemma percolate_fills_reachable_witness :
  ∃ self' b,
    percolate 5 (mk 2 [[1; 0]; [1; 1]] [[1; 0]; [1; 1]]) = Ok (self', b) ∧
    flood_fill_of 2 [[1; 0]; [1; 1]] (grid_filled self') ∧
    (b = true ↔ reaches_bottom 2 (grid_filled self')).
Proof.
  assert (0 < 2)%nat as Hn by lia.
  assert (square 2 [[1; 0]; [1; 1]]) as Hsq.
  { split; [reflexivity|]. repeat constructor. }
  assert (binary [[1; 0]; [1; 1]]) as Hbin.
  { unfold binary. repeat (apply Forall_cons_2 || apply Forall_nil_2); auto. }
  destruct (proj1 percolate_fills_reachable 2%nat [[1; 0]; [1; 1]] 5%nat
              Hn Hsq Hbin) as [Hrun Htot].
  assert (2 * 2 < 5)%nat as Hd by (simpl; lia).
  destruct (Htot Hd) as (self' & b & R).
  exists self', b. split; [exact R|].
  destruct (Hrun self' b R) as (_ & _ & Hf & Hb). split; assumption.
Defined.

(** C7: the constructor accepts the grid [[0,2],[2,0]], which holds a
    value outside 0 and 1: the assertion counts distinct values. *)
Theorem init_accepts_non_binary_grid :
  __init__ [[0; 2]; [2; 0]] = Ok (mk 2 [[0; 2]; [2; 0]] [[0; 2]; [2; 0]]) ∧
  ¬ binary [[0; 2]; [2; 0]].
Proof.
  split; [by vm_compute|].
  intros Hb. apply Forall_cons in Hb as [Hrow _].
  apply Forall_cons in Hrow as [_ Hrow].
  apply Forall_cons in Hrow as [[?|?] _]; lia.
Qed.

(** C9: when a first call of [percolate] on a fresh object (over any n by
    n grid, n at least 1) has completed, a second call (with any recursion
    limit of at least one frame) returns the same object, with the filled
    grid unchanged, and the same boolean. *)
Theorem percolate_twice (n : nat) (s : ndarray) (depth depth' : nat)
    (self1 : t) (b1 : bool) :
  (0 < n)%nat → square n s →
  percolate depth (mk n s s) = Ok (self1, b1) →
  (0 < depth')%nat →
  percolate depth' self1 = Ok (self1, b1).
Proof.
  intros Hn Hsq Hrun Hd.
  destruct (percolate_run n s Hn Hsq depth self1 b1 Hrun)
    as (g & -> & [[Hg _] _] & _ & T & Hb).
  destruct depth' as [|d]; [lia|].
  unfold percolate. simpl.
  rewrite (percolate_loop_again n d s g); try done.
  - simpl.
    destruct (last_row_ok n g Hn Hg) as (row & Hrow & Hrb).
    rewrite Hrow. simpl. do 2 f_equal.
    destruct b1.
    + apply bool_decide_eq_true. apply Hrb. by apply Hb.
    + apply bool_decide_eq_false. intros Hin%Hrb%Hb. done.
  - apply Forall_seq. intros j Hj. split; [lia|]. apply T. lia.
Qed.

Lemma percolate_twice_witness :
  percolate 1 (mk 2 [[1; 0]; [1; 1]] [[2; 0]; [2; 2]])
  = Ok (mk 2 [[1; 0]; [1; 1]] [[2; 0]; [2; 2]], true).
Proof.
  apply (percolate_twice 2 [[1; 0]; [1; 1]] 5 1).
  - lia.
  - split; [reflexivity|]. repeat constructor.
  - vm_compute. reflexivity.
  - lia.
Defined.

End PercolationResults.

(** ** Sums over lists and grids *)

Section Sums.
Context {A : Type}.
Implicit Types (f : A → Z) (l : list A).

Lemma zsum_app f l1 l2 : zsum f (l1 ++ l2) = zsum f l1 + zsum f l2.
Proof. induction l1 as [|x l1 IH]; simpl; [done|]. rewrite IH. lia. Qed.

Lemma zsum_ext f1 f2 l : (∀ x, x ∈ l → f1 x = f2 x) → zsum f1 l = zsum f2 l.
Proof.
  induction l as [|x l IH]; intros H; simpl; [done|].
  rewrite H by left. rewrite IH; [done|]. intros y Hy. apply H. by right.
Qed.

Lemma zsum_le f1 f2 l : (∀ x, x ∈ l → f1 x ≤ f2 x) → zsum f1 l ≤ zsum f2 l.
Proof.
  induction l as [|x l IH]; intros H; simpl; [done|].
  specialize (H x ltac:(left)) as Hx.
  assert (zsum f1 l ≤ zsum f2 l); [|lia].
  apply IH. intros y Hy. apply H. by right.
Qed.

Lemma zsum_nonneg f l : (∀ x, x ∈ l → 0 ≤ f x) → 0 ≤ zsum f l.
Proof.
  induction l as [|x l IH]; intros H; simpl; [done|].
  specialize (H x ltac:(left)) as Hx.
  assert (0 ≤ zsum f l); [|lia].
  apply IH. intros y Hy. apply H. by right.
Qed.

Lemma zsum_insert f l i x y :
  l !! i = Some x → zsum f (<[i:=y]> l) = zsum f l - f x + f y.
Proof.
  revert i. induction l as [|z l IH]; intros [|i] Hi; simpl in *; try done.
  - injection Hi as ->. lia.
  - rewrite (IH i Hi). lia.
Qed.

(** Changing [f] at one point of a duplicate-free list. *)
Lemma zsum_point f1 f2 l x (d : Z) :
  NoDup l → x ∈ l → f2 x = f1 x + d → (∀ y, y ≠ x → f2 y = f1 y) →
  zsum f2 l = zsum f1 l + d.
Proof.
  intros Hnd Hx Hfx Hfy. induction Hnd as [|z l Hz Hnd IH]; simpl.
  { by apply elem_of_nil in Hx. }
  apply elem_of_cons in Hx as [<-|Hx].
  - rewrite Hfx. rewrite (zsum_ext f2 f1 l); [lia|].
    intros y Hy. apply Hfy. intros ->. done.
  - rewrite IH by done. rewrite Hfy; [lia|]. intros ->. done.
Qed.
End Sums.

Section SandpileBasics.
Import AbelianSandpile.
Context (n : nat).
Implicit Types (g : ndarray) (c x : pos) (d : Z) (l st : list pos).

Lemma occ_nonneg x l : 0 ≤ occ x l.
Proof. apply zsum_nonneg. intros; case_decide; lia. Qed.

Lemma occ_app x l1 l2 : occ x (l1 ++ l2) = occ x l1 + occ x l2.
Proof. apply zsum_app. Qed.

Lemma occ_cons x y l : occ x (y :: l) = (if decide (y = x) then 1 else 0) + occ x l.
Proof. done. Qed.

Lemma square_addc g c d : square n g → square n (addc g c d).
Proof. apply square_upd. Qed.

Lemma cell_addc g c x d :
  square n g → inb n c →
  cell (addc g c d) x = cell g x + (if decide (x = c) then d else 0).
Proof.
  intros Hsq Hc. unfold addc. rewrite (cell_upd n) by done.
  case_decide; subst; lia.
Qed.

Lemma iadd_ok g i j d :
  square n g → inb n (i, j) → iadd g i j d = Ok (addc g (i, j) d).
Proof.
  intros Hsq Hc. unfold iadd. rewrite (getitem_ok n) by done. simpl.
  by rewrite (setitem_ok n).
Qed.

Lemma nbrs_inb c : inb n c → Forall (inb n) (nbrs n c).
Proof.
  intros [Hi Hj]. unfold nbrs.
  repeat (apply Forall_app; split); case_decide;
    try apply Forall_nil_2; apply Forall_singleton; split; cbn [fst snd]; lia.
Qed.

Lemma nbrs_length c : (length (nbrs n c) ≤ 4)%nat.
Proof. unfold nbrs. rewrite !length_app. repeat case_decide; simpl; lia. Qed.

Lemma nbrs_not_self c : occ c (nbrs n c) = 0.
Proof.
  destruct c as [i j]. unfold nbrs, occ. rewrite !zsum_app. cbn [fst snd].
  repeat (case_decide; cbn [zsum foldr]); try lia;
    repeat match goal with H : (_, _) = (_, _) |- _ => apply pair_eq in H end;
    lia.
Qed.

Lemma nbrs_occ_le c x : occ x (nbrs n c) ≤ 1.
Proof.
  destruct c as [i j], x as [a b]. unfold nbrs, occ. rewrite !zsum_app.
  cbn [fst snd].
  repeat (case_decide; cbn [zsum foldr]); try lia;
    repeat match goal with H : (_, _) = (_, _) |- _ => apply pair_eq in H end;
    lia.
Qed.

(** Adding one grain to each cell of a list. *)
Lemma square_add_all g l :
  square n g → square n (fold_left (λ g nb, addc g nb 1) l g).
Proof.
  revert g. induction l as [|y l IH]; intros g Hsq; simpl; [done|].
  apply IH. by apply square_addc.
Qed.

Lemma cell_add_all g l x :
  square n g → Forall (inb n) l →
  cell (fold_left (λ g nb, addc g nb 1) l g) x = cell g x + occ x l.
Proof.
  revert g. induction l as [|y l IH]; intros g Hsq Hl; cbn [fold_left].
  { unfold occ; simpl. lia. }
  apply Forall_cons in Hl as [Hy Hl].
  rewrite IH by (done || by apply square_addc).
  rewrite cell_addc by done. rewrite occ_cons.
  repeat case_decide; subst; try done; lia.
Qed.

Lemma square_topple g c : square n g → square n (topple n g c).
Proof. intros. apply square_add_all. by apply square_addc. Qed.

(** The count of every cell after an avalanche at [c]. *)
Lemma cell_topple g c x :
  square n g → inb n c →
  cell (topple n g c) x
  = cell g x + (if decide (x = c) then -4 else 0) + occ x (nbrs n c).
Proof.
  intros Hsq Hc. unfold topple.
  rewrite cell_add_all; [|by apply square_addc|by apply nbrs_inb].
  by rewrite cell_addc.
Qed.

(** What the body of the [for] loop does to the grid and the worklist. *)
Lemma examine_ok g st c :
  square n g → inb n c →
  examine n g st c
  = Ok (if decide (cell g c < 4) then (g, st)
        else (topple n g c, st ++ nbrs n c)).
Proof.
  intros Hsq Hc. destruct c as [i j]. pose proof Hc as [Hi Hj]; simpl in *.
  unfold examine. rewrite (getitem_ok n) by done. cbn [mbind result_bind].
  case_decide as Hv; [done|].
  rewrite iadd_ok by done. cbn [mbind result_bind].
  unfold topple, nbrs. cbn [fst snd].
  set (g0 := addc g (i, j) (-4)).
  assert (square n g0) as Hg0 by by apply square_addc.
  clearbody g0. rewrite !fold_left_app.
  assert (∀ (P : Prop) `{Decision P} (g1 : ndarray) (st1 : list pos) (i' j' : nat),
    square n g1 → (P → inb n (i', j')) →
    (if decide P
     then grid ← iadd g1 i' j' 1; Ok (grid, st1 ++ [(i', j')])
     else Ok (g1, st1))
    = Ok (fold_left (λ g nb, addc g nb 1) (if decide P then [(i', j')] else []) g1,
          st1 ++ (if decide P then [(i', j')] else []))) as E.
  { intros P ? g1 st1 i' j' Hg1 Hin. case_decide.
    - rewrite iadd_ok by auto. done.
    - simpl. by rewrite app_nil_r. }
  rewrite E; [|done|intros; split; simpl; lia]. cbn [mbind result_bind].
  rewrite E; [|by apply square_add_all|intros; split; simpl; lia].
  cbn [mbind result_bind].
  rewrite E; [|by do 2 apply square_add_all|intros; split; simpl; lia].
  cbn [mbind result_bind].
  rewrite E; [|by do 3 apply square_add_all|intros; split; simpl; lia].
  cbn [mbind result_bind].
  by rewrite <- !(assoc_L (++)).
Qed.

(** *** Mass and potential *)

Lemma potential_addc g c d :
  square n g → inb n c →
  potential n (addc g c d) = potential n g + weight n c * d.
Proof.
  intros Hsq Hc. unfold potential.
  apply (zsum_point _ _ _ c); [apply NoDup_coords|by apply elem_of_coords|..].
  - rewrite cell_addc, decide_True by done. lia.
  - intros y Hy. by rewrite cell_addc, decide_False, Z.add_0_r by done.
Qed.

Lemma potential_add_all g l :
  square n g → Forall (inb n) l →
  potential n (fold_left (λ g nb, addc g nb 1) l g)
  = potential n g + zsum (weight n) l.
Proof.
  revert g. induction l as [|y l IH]; intros g Hsq Hl; simpl; [lia|].
  apply Forall_cons in Hl as [Hy Hl].
  rewrite IH by (done || by apply square_addc).
  rewrite potential_addc by done. lia.
Qed.

Lemma weight_nbrs c :
  inb n c → zsum (weight n) (nbrs n c) ≤ 4 * weight n c - 4.
Proof.
  destruct c as [i j]. intros [Hi Hj]. cbn [fst snd] in *.
  unfold nbrs, weight. rewrite !zsum_app. cbn [fst snd].
  repeat (case_decide; cbn [zsum foldr fst snd]);
    rewrite ?Nat2Z.inj_sub, ?Nat2Z.inj_add by lia; nia.
Qed.

Lemma weight_pos c : inb n c → 0 < weight n c.
Proof. intros [Hi Hj]. unfold weight. nia. Qed.

Lemma potential_topple g c :
  square n g → inb n c → potential n (topple n g c) + 4 ≤ potential n g.
Proof.
  intros Hsq Hc. unfold topple.
  rewrite potential_add_all; [|by apply square_addc|by apply nbrs_inb].
  rewrite potential_addc by done. pose proof (weight_nbrs c Hc). lia.
Qed.

Lemma potential_nonneg g : nonneg n g → 0 ≤ potential n g.
Proof.
  intros Hg. apply zsum_nonneg. intros c Hc%elem_of_coords.
  pose proof (weight_pos c Hc). specialize (Hg c Hc). nia.
Qed.

Lemma potential_le g : stable n g → potential n g ≤ 3 * zsum (weight n) (coords n).
Proof.
  intros Hg. unfold potential.
  transitivity (zsum (λ c, 3 * weight n c) (coords n)).
  - apply zsum_le. intros c Hc%elem_of_coords.
    pose proof (weight_pos c Hc). specialize (Hg c Hc). nia.
  - generalize (coords n). induction l as [|x l IH]; simpl; lia.
Qed.

Lemma weight_le_total c : inb n c → weight n c ≤ zsum (weight n) (coords n).
Proof.
  intros Hc. apply elem_of_coords in Hc as Hin.
  assert (∀ l, (∀ x, x ∈ l → 0 ≤ weight n x) → c ∈ l → weight n c ≤ zsum (weight n) l) as E.
  { induction l as [|x l IH]; intros Hl Hcl; [by apply elem_of_nil in Hcl|].
    simpl. apply elem_of_cons in Hcl as [<-|Hcl].
    - assert (0 ≤ zsum (weight n) l); [|lia].
      apply zsum_nonneg. intros y Hy. apply Hl. by right.
    - specialize (Hl x ltac:(left)) as Hx.
      assert (weight n c ≤ zsum (weight n) l); [|lia].
      apply IH; [|done]. intros y Hy. apply Hl. by right. }
  apply E; [|done]. intros x Hx%elem_of_coords.
  pose proof (weight_pos x Hx). lia.
Qed.

Lemma grid_sum_addc g c d :
  square n g → inb n c → grid_sum (addc g c d) = grid_sum g + d.
Proof.
  intros Hsq Hc. pose proof Hc as [Hi Hj].
  destruct (square_lookup n g c.1 Hsq Hi) as (row & Hrow & Hlen).
  destruct (lookup_lt_is_Some_2 row c.2) as [v Hv]; [lia|].
  unfold grid_sum, addc, upd, cell. rewrite Hrow, Hv. simpl.
  replace (alter <[c.2:=v + d]> c.1 g) with (<[c.1 := <[c.2:=v + d]> row]> g).
  - rewrite (zsum_insert _ _ _ row) by done.
    rewrite (zsum_insert _ _ _ v) by done. unfold id. lia.
  - apply list_eq. intros k. destruct (decide (c.1 = k)) as [<-|Hne].
    + rewrite list_lookup_insert_eq by (eapply lookup_lt_Some; eauto).
      by rewrite list_lookup_alter, decide_True, Hrow by done.
    + by rewrite list_lookup_insert_ne, list_lookup_alter_ne by done.
Qed.

Lemma grid_sum_add_all g l :
  square n g → Forall (inb n) l →
  grid_sum (fold_left (λ g nb, addc g nb 1) l g)
  = grid_sum g + Z.of_nat (length l).
Proof.
  revert g. induction l as [|y l IH]; intros g Hsq Hl; simpl length; simpl fold_left; [lia|].
  apply Forall_cons in Hl as [Hy Hl].
  rewrite IH by (done || by apply square_addc).
  rewrite grid_sum_addc by done. lia.
Qed.

(** An avalanche at [c] removes from the grid the grains sent out of
    bounds, and no other. *)
Lemma grid_sum_topple g c :
  square n g → inb n c → grid_sum (topple n g c) = grid_sum g - lost n c.
Proof.
  intros Hsq Hc. unfold topple, lost.
  rewrite grid_sum_add_all; [|by apply square_addc|by apply nbrs_inb].
  rewrite grid_sum_addc by done. lia.
Qed.

Lemma nonneg_topple g c :
  square n g → inb n c → nonneg n g → 4 ≤ cell g c → nonneg n (topple n g c).
Proof.
  intros Hsq Hc Hg Hv x Hx. rewrite cell_topple by done.
  pose proof (occ_nonneg x (nbrs n c)). specialize (Hg x Hx).
  case_decide; subst; lia.
Qed.
End SandpileBasics.

(** ** The relaxation loops *)

Section Relaxation.
Import AbelianSandpile.
Context (n : nat).
Implicit Types (g : ndarray) (c x : pos) (l st ts log : list pos).

Lemma examine_log_ok g st log c :
  square n g → inb n c →
  examine_log n g st log c
  = Ok (if decide (cell g c < 4) then (g, st, log)
        else (topple n g c, st ++ nbrs n c, log ++ [c])).
Proof.
  intros Hsq Hc. unfold examine_log.
  rewrite (examine_ok n) by done. destruct c as [i j].
  rewrite (getitem_ok n) by done. cbn [mbind result_bind fst snd].
  by case_decide.
Qed.

Lemma legal_app g ts1 ts2 :
  legal n g (ts1 ++ ts2) ↔ legal n g ts1 ∧ legal n (topple_all n g ts1) ts2.
Proof.
  revert g. induction ts1 as [|c ts1 IH]; intros g; simpl; [tauto|].
  rewrite IH. unfold topple_all. simpl. tauto.
Qed.

Lemma topple_all_app g ts1 ts2 :
  topple_all n g (ts1 ++ ts2) = topple_all n (topple_all n g ts1) ts2.
Proof. apply fold_left_app. Qed.

Lemma pending_nil g : pending n g [] ↔ stable n g.
Proof.
  unfold pending, stable, occ. simpl.
  split; intros H x Hx; specialize (H x Hx); lia.
Qed.

Lemma stable_pending g st : stable n g → pending n g st.
Proof.
  intros H x Hx. specialize (H x Hx). pose proof (occ_nonneg x st). lia.
Qed.

(** The [for] loop from position [k] on: it performs a legal sequence
    [ts] of avalanches and appends the cells [new] to the worklist. *)
Lemma for_loop_log_spec fuel : ∀ g st log k,
  base n g st → (k ≤ length st)%nat →
  potential n g + Z.of_nat (length st - k) < Z.of_nat fuel →
  ∃ ts new,
    for_loop_log fuel n g st log k
    = Ok (topple_all n g ts, st ++ new, log ++ ts) ∧
    legal n g ts ∧
    base n (topple_all n g ts) (st ++ new) ∧
    potential n (topple_all n g ts) + Z.of_nat (length new) ≤ potential n g ∧
    (pending n g (drop k st) → stable n (topple_all n g ts)) ∧
    (stable n g → ts = [] ∧ new = []).
Proof.
  induction fuel as [|fuel IH]; intros g st log k (Hsq & Hnn & Hst) Hk Hfuel.
  { pose proof (potential_nonneg n g Hnn). lia. }
  cbn [for_loop_log]. destruct (st !! k) as [c|] eqn:Hc.
  - assert (inb n c) as Hin by (eapply Forall_lookup_1; eauto).
    apply lookup_lt_Some in Hc as Hlt.
    assert (drop k st = c :: drop (S k) st) as Hdrop.
    { by apply drop_S. }
    rewrite examine_log_ok by done. cbn [mbind result_bind].
    case_decide as Hv.
    + destruct (IH g st log (S k)) as (ts & new & R & L & B & P & Pe & St);
        [done|lia|lia|].
      exists ts, new. repeat (split; [done|]). split; [|done].
      intros Hp. apply Pe. intros x Hx. specialize (Hp x Hx).
      rewrite Hdrop, occ_cons in Hp.
      pose proof (occ_nonneg x (drop (S k) st)).
      case_decide; subst; lia.
    + pose proof (nbrs_length n c) as Hlen.
      pose proof (potential_topple n g c Hsq Hin) as Hpot.
      destruct (IH (topple n g c) (st ++ nbrs n c) (log ++ [c]) (S k))
        as (ts & new & R & L & B & P & Pe & St).
      { split; [by apply square_topple|]. split.
        - apply nonneg_topple; try done. lia.
        - apply Forall_app. split; [done|by apply nbrs_inb]. }
      { rewrite length_app. lia. }
      { rewrite length_app. lia. }
      exists (c :: ts), (nbrs n c ++ new).
      rewrite R. rewrite <- !(assoc_L (++)) in *. split; [reflexivity|].
      split; [simpl; split; [done|split; [lia|done]]|].
      split; [done|]. split; [|split].
      * rewrite length_app. unfold topple_all in *. simpl. lia.
      * intros Hp. apply Pe. intros x Hx. specialize (Hp x Hx).
        rewrite drop_app_le by lia.
        rewrite Hdrop, occ_cons in Hp. rewrite occ_app.
        rewrite cell_topple by done.
        destruct (decide (x = c)) as [->|Hne].
        -- rewrite decide_True in Hp by done. lia.
        -- rewrite decide_False in Hp by done. lia.
      * intros Hs. specialize (Hs c Hin). lia.
  - apply lookup_ge_None in Hc. assert (k = length st) as -> by lia.
    exists [], []. rewrite !app_nil_r. split; [done|].
    split; [done|]. split; [done|]. split; [simpl; lia|]. split; [|done].
    rewrite drop_all. by intros ?%pending_nil.
Qed.

(** The [while] loop. *)
Lemma while_loop_log_spec fuel : ∀ g st log,
  base n g st →
  potential n g + Z.of_nat (length st) + 2 ≤ Z.of_nat fuel →
  ∃ ts,
    while_loop_log fuel n g st log = Ok (topple_all n g ts, log ++ ts) ∧
    legal n g ts ∧
    square n (topple_all n g ts) ∧ nonneg n (topple_all n g ts) ∧
    (pending n g st → stable n (topple_all n g ts)).
Proof.
  induction fuel as [|fuel IH]; intros g st log Hb Hfuel.
  { destruct Hb as (_ & Hnn & _). pose proof (potential_nonneg n g Hnn). lia. }
  cbn [while_loop_log]. case_decide as Hlen.
  - exists []. rewrite app_nil_r. destruct Hb as (Hsq & Hnn & _).
    repeat (split; [done|]). apply length_zero_iff_nil in Hlen as ->.
    by intros ?%pending_nil.
  - destruct (for_loop_log_spec fuel g st log 0)
      as (ts1 & new & R & L & B & P & Pe & _); [done|lia|lia|].
    rewrite R. cbn [mbind result_bind].
    rewrite drop_app_length.
    destruct (IH (topple_all n g ts1) new (log ++ ts1))
      as (ts2 & R2 & L2 & Hsq2 & Hnn2 & Pe2).
    { destruct B as (? & ? & [_ ?]%Forall_app). done. }
    { lia. }
    exists (ts1 ++ ts2). rewrite R2, topple_all_app, (assoc_L (++)).
    split; [done|]. split; [by apply legal_app|].
    split; [done|]. split; [done|].
    intros Hp. apply Pe2. apply stable_pending. by apply Pe.
Qed.

Lemma pending_drop g site :
  square n g → inb n site → stable n g → pending n (addc g site 1) [site].
Proof.
  intros Hsq Hc Hs x Hx. rewrite (cell_addc n) by done.
  unfold occ. simpl. specialize (Hs x Hx).
  destruct (decide (x = site)) as [->|Hne].
  - rewrite decide_True by done. lia.
  - rewrite decide_False by done. lia.
Qed.

(** [step], from the drawn site on: the avalanches performed form a legal
    sequence from the grid with the grain added. *)
Lemma step_at_log_spec fuel g site :
  square n g → nonneg n g → inb n site →
  potential n g + weight n site + 3 ≤ Z.of_nat fuel →
  ∃ ts,
    step_at_log fuel n g site = Ok (topple_all n (addc g site 1) ts, ts) ∧
    legal n (addc g site 1) ts ∧
    square n (topple_all n (addc g site 1) ts) ∧
    nonneg n (topple_all n (addc g site 1) ts) ∧
    (stable n g → stable n (topple_all n (addc g site 1) ts)).
Proof.
  intros Hsq Hnn Hc Hfuel. unfold step_at_log.
  destruct site as [r c]. rewrite (iadd_ok n) by done.
  cbn [mbind result_bind fst snd].
  destruct (while_loop_log_spec fuel (addc g (r, c) 1) [(r, c)] [])
    as (ts & R & L & Hsq' & Hnn' & Pe).
  { split; [by apply square_addc|]. split; [|by apply Forall_singleton].
    intros x Hx. rewrite (cell_addc n) by done. specialize (Hnn x Hx).
    case_decide; lia. }
  { rewrite (potential_addc n) by done. simpl. lia. }
  exists ts. split; [done|]. repeat (split; [done|]).
  intros Hs. apply Pe. by apply pending_drop.
Qed.

Lemma step_fuel_enough g site :
  stable n g → inb n site →
  potential n g + weight n site + 3 ≤ Z.of_nat (step_fuel n).
Proof.
  intros Hs Hc. pose proof (potential_le n g Hs).
  pose proof (weight_le_total n site Hc).
  pose proof (weight_pos n site Hc).
  unfold step_fuel. lia.
Qed.

(** *** The instrumented loops compute what the loops of the code compute *)

Lemma examine_erase g st log coord :
  (r ← examine_log n g st log coord; Ok r.1) = examine n g st coord.
Proof.
  unfold examine_log. destruct coord as [rind cind]. cbn [fst snd].
  destruct (getitem g rind cind) as [v|e] eqn:E; cbn [mbind result_bind].
  - destruct (examine n g st (rind, cind)) as [[g' st']|e]; reflexivity.
  - unfold examine. rewrite E. reflexivity.
Qed.

Lemma for_loop_erase fuel : ∀ g st log k,
  (r ← for_loop_log fuel n g st log k; Ok r.1) = for_loop fuel n g st k.
Proof.
  induction fuel as [|fuel IH]; intros g st log k; [done|].
  cbn [for_loop_log for_loop]. destruct (st !! k) as [c|]; [|done].
  rewrite <- (examine_erase g st log c).
  destruct (examine_log n g st log c) as [[[g' st'] log']|e]; [|done].
  cbn [mbind result_bind fst]. apply IH.
Qed.

Lemma while_loop_erase fuel : ∀ g st log,
  (r ← while_loop_log fuel n g st log; Ok r.1) = while_loop fuel n g st.
Proof.
  induction fuel as [|fuel IH]; intros g st log; [done|].
  cbn [while_loop_log while_loop]. case_decide; [done|].
  rewrite <- (for_loop_erase fuel g st log 0).
  destruct (for_loop_log fuel n g st log 0) as [[[g' st'] log']|e]; [|done].
  cbn [mbind result_bind fst]. apply IH.
Qed.

Lemma step_at_erase fuel g site :
  (r ← step_at_log fuel n g site; Ok r.1) = step_at fuel n g site.
Proof.
  unfold step_at_log, step_at.
  destruct (iadd g site.1 site.2 1) as [g'|e]; [|done].
  cbn [mbind result_bind]. apply while_loop_erase.
Qed.

Lemma step_at_of_log fuel g site g' ts :
  step_at_log fuel n g site = Ok (g', ts) → step_at fuel n g site = Ok g'.
Proof. intros E. rewrite <- step_at_erase, E. done. Qed.
End Relaxation.

(** ** Order independence of the avalanches *)

Section Abelian.
Context (n : nat).
Implicit Types (g : ndarray) (c x : pos) (l ts : list pos).

Lemma topple_comm g c1 c2 :
  square n g → inb n c1 → inb n c2 →
  topple n (topple n g c1) c2 = topple n (topple n g c2) c1.
Proof.
  intros Hsq H1 H2.
  apply (ndarray_ext n); [by do 2 apply square_topple..|].
  intros x Hx. rewrite !(cell_topple n) by (done || by apply square_topple).
  lia.
Qed.

Lemma topple_keeps_legal g c1 c2 :
  square n g → inb n c1 → c1 ≠ c2 → 4 ≤ cell g c2 →
  4 ≤ cell (topple n g c1) c2.
Proof.
  intros Hsq H1 Hne Hv. rewrite (cell_topple n) by done.
  rewrite decide_False by done. pose proof (occ_nonneg c2 (nbrs n c1)). lia.
Qed.

Lemma square_topple_all g l : square n g → square n (topple_all n g l).
Proof.
  revert g. induction l as [|c l IH]; intros g Hsq; [done|].
  apply IH. by apply square_topple.
Qed.

(** An avalanche that is possible now can be moved to the front of any
    legal sequence that ends in a stable grid. *)
Lemma legal_exchange l : ∀ g c,
  square n g → legal n g l → stable n (topple_all n g l) →
  inb n c → 4 ≤ cell g c →
  ∃ l', legal n (topple n g c) l' ∧
        topple_all n (topple n g c) l' = topple_all n g l ∧
        l ≡ₚ c :: l'.
Proof.
  induction l as [|c1 l IH]; intros g c Hsq Hl Hs Hc Hv.
  { specialize (Hs c Hc). simpl in Hs. lia. }
  destruct Hl as (Hc1 & Hv1 & Hl).
  destruct (decide (c1 = c)) as [->|Hne]; [by exists l|].
  destruct (IH (topple n g c1) c) as (l' & Hl' & Heq & Hperm); try done.
  { by apply square_topple. }
  { by apply topple_keeps_legal. }
  exists (c1 :: l'). rewrite (topple_comm g c1 c) in * by done.
  assert (legal n (topple n g c) (c1 :: l')) as Hlegal.
  { split; [done|]. split; [|done]. by apply topple_keeps_legal. }
  split; [exact Hlegal|]. split; [exact Heq|].
  rewrite Hperm. apply Permutation_swap.
Qed.

(** Two legal sequences of avalanches from the same grid that both end in
    a stable grid end in the same grid, and topple every cell equally
    often. *)
Lemma legal_stable_unique l2 : ∀ g l1,
  square n g →
  legal n g l1 → stable n (topple_all n g l1) →
  legal n g l2 → stable n (topple_all n g l2) →
  topple_all n g l1 = topple_all n g l2 ∧ l1 ≡ₚ l2.
Proof.
  induction l2 as [|c l2 IH]; intros g l1 Hsq L1 S1 L2 S2.
  - destruct l1 as [|c1 l1]; [done|].
    destruct L1 as (Hc1 & Hv1 & _). specialize (S2 c1 Hc1). simpl in S2. lia.
  - destruct L2 as (Hc & Hv & L2).
    destruct (legal_exchange l1 g c) as (l1' & L1' & Heq & Hperm); try done.
    destruct (IH (topple n g c) l1') as [E P]; try done.
    { by apply square_topple. }
    { by rewrite Heq. }
    split; [|by rewrite Hperm, P].
    rewrite <- Heq, E. done.
Qed.
End Abelian.

(** ** The worklist relaxation *)

Section WorklistFacts.
Context (n : nat) (pick : ndarray → list pos → nat).
Implicit Types (g : ndarray) (c x : pos) (wl ts : list pos).

Lemma occ_delete x wl k c :
  wl !! k = Some c →
  occ x wl = (if decide (c = x) then 1 else 0) + occ x (delete k wl).
Proof.
  revert k. induction wl as [|y wl IH]; intros [|k] Hk; try done.
  - injection Hk as ->. done.
  - change (delete (S k) (y :: wl)) with (y :: delete k wl).
    rewrite !occ_cons. rewrite (IH k Hk). repeat case_decide; lia.
Qed.

Lemma worklist_relax_spec fuel : ∀ g wl,
  base n g wl →
  potential n g + Z.of_nat (length wl) + 1 ≤ Z.of_nat fuel →
  ∃ ts,
    worklist_relax pick fuel n g wl = Ok (topple_all n g ts) ∧
    legal n g ts ∧
    (pending n g wl → stable n (topple_all n g ts)).
Proof.
  induction fuel as [|fuel IH]; intros g wl (Hsq & Hnn & Hwl) Hfuel.
  { pose proof (potential_nonneg n g Hnn). lia. }
  cbn [worklist_relax]. case_decide as Hnil.
  { subst wl. exists []. split; [done|]. split; [done|].
    by intros ?%pending_nil. }
  assert (0 < length wl)%nat as Hlen by (destruct wl; [done|simpl; lia]).
  set (k := (pick g wl `mod` length wl)%nat).
  assert (k < length wl)%nat as Hk by (apply Nat.mod_upper_bound; lia).
  destruct (lookup_lt_is_Some_2 wl k Hk) as [c Hc]. rewrite Hc.
  assert (inb n c) as Hin by (eapply Forall_lookup_1; eauto).
  assert (length (delete k wl) = (length wl - 1)%nat) as Hdel.
  { rewrite length_delete; [done|]. by eexists. }
  case_decide as Hv.
  - destruct (IH g (delete k wl)) as (ts & R & L & Pe).
    { split; [done|]. split; [done|]. by apply Forall_delete. }
    { lia. }
    exists ts. split; [done|]. split; [done|].
    intros Hp. apply Pe. intros x Hx. specialize (Hp x Hx).
    rewrite (occ_delete x wl k c Hc) in Hp.
    pose proof (occ_nonneg x (delete k wl)).
    case_decide; subst; lia.
  - pose proof (nbrs_length n c) as Hnb.
    pose proof (potential_topple n g c Hsq Hin) as Hpot.
    destruct (IH (topple n g c) (delete k wl ++ nbrs n c)) as (ts & R & L & Pe).
    { split; [by apply square_topple|]. split.
      - apply nonneg_topple; try done. lia.
      - apply Forall_app. split; [by apply Forall_delete|by apply nbrs_inb]. }
    { rewrite length_app. lia. }
    exists (c :: ts). split; [done|]. split.
    { split; [done|]. split; [lia|done]. }
    intros Hp. apply Pe. intros x Hx. specialize (Hp x Hx).
    rewrite (occ_delete x wl k c Hc) in Hp. rewrite occ_app.
    rewrite (cell_topple n) by done.
    destruct (decide (x = c)) as [->|Hne].
    + rewrite decide_True in Hp by done. lia.
    + rewrite decide_False in Hp by done. lia.
Qed.

Lemma worklist_run_spec g wl g' :
  worklist_run n g wl g' → base n g wl →
  ∃ ts, g' = topple_all n g ts ∧ legal n g ts ∧
        (pending n g wl → stable n g').
Proof.
  induction 1 as [g|g wl k c g' Hc Hv Hrun IH|g wl k c g' Hc Hv Hrun IH];
    intros (Hsq & Hnn & Hwl).
  - exists []. split; [done|]. split; [done|]. by intros ?%pending_nil.
  - destruct IH as (ts & -> & L & Pe).
    { split; [done|]. split; [done|]. by apply Forall_delete. }
    exists ts. split; [done|]. split; [done|].
    intros Hp. apply Pe. intros x Hx. specialize (Hp x Hx).
    rewrite (occ_delete x wl k c Hc) in Hp.
    pose proof (occ_nonneg x (delete k wl)).
    case_decide; subst; lia.
  - assert (inb n c) as Hin by (eapply Forall_lookup_1; eauto).
    destruct IH as (ts & -> & L & Pe).
    { split; [by apply square_topple|]. split.
      - by apply nonneg_topple.
      - apply Forall_app. split; [by apply Forall_delete|by apply nbrs_inb]. }
    exists (c :: ts). split; [done|]. split; [done|].
    intros Hp. apply Pe. intros x Hx. specialize (Hp x Hx).
    rewrite (occ_delete x wl k c Hc) in Hp. rewrite occ_app.
    rewrite (cell_topple n) by done.
    destruct (decide (x = c)) as [->|Hne].
    + rewrite decide_True in Hp by done. lia.
    + rewrite decide_False in Hp by done. lia.
Qed.
End WorklistFacts.

(** ** More fuel does not change a result *)

Section Fuel.
Import AbelianSandpile.
Context (n : nat).
Implicit Types (g : ndarray) (c x : pos) (st ts log : list pos).

Lemma for_loop_log_mono fuel : ∀ fuel' g st log k r,
  for_loop_log fuel n g st log k = Ok r → (fuel ≤ fuel')%nat →
  for_loop_log fuel' n g st log k = Ok r.
Proof.
  induction fuel as [|fuel IH]; intros fuel' g st log k r Hrun Hle; [done|].
  destruct fuel' as [|fuel']; [lia|]. cbn [for_loop_log] in *.
  destruct (st !! k) as [c|]; [|done].
  destruct (examine_log n g st log c) as [[[g' st'] log']|e]; [|done].
  cbn [mbind result_bind] in *. apply IH; [done|lia].
Qed.

Lemma while_loop_log_mono fuel : ∀ fuel' g st log r,
  while_loop_log fuel n g st log = Ok r → (fuel ≤ fuel')%nat →
  while_loop_log fuel' n g st log = Ok r.
Proof.
  induction fuel as [|fuel IH]; intros fuel' g st log r Hrun Hle; [done|].
  destruct fuel' as [|fuel']; [lia|]. cbn [while_loop_log] in *.
  case_decide; [done|].
  destruct (for_loop_log fuel n g st log 0) as [[[g' st'] log']|e] eqn:E;
    [|done].
  rewrite (for_loop_log_mono fuel fuel' _ _ _ _ _ E) by lia.
  cbn [mbind result_bind] in *. apply IH; [done|lia].
Qed.

Lemma step_at_log_mono fuel fuel' g site r :
  step_at_log fuel n g site = Ok r → (fuel ≤ fuel')%nat →
  step_at_log fuel' n g site = Ok r.
Proof.
  unfold step_at_log. destruct (iadd g site.1 site.2 1) as [g'|e]; [|done].
  cbn [mbind result_bind]. apply while_loop_log_mono.
Qed.

Lemma grid_sum_topple_all ts : ∀ g,
  square n g → legal n g ts →
  grid_sum (topple_all n g ts) = grid_sum g - zsum (lost n) ts.
Proof.
  induction ts as [|c ts IH]; intros g Hsq Hl; [simpl; lia|].
  destruct Hl as (Hc & _ & Hl).
  change (topple_all n g (c :: ts)) with (topple_all n (topple n g c) ts).
  rewrite IH by (done || by apply square_topple).
  rewrite (grid_sum_topple n) by done. simpl. lia.
Qed.

(** Grains leave the grid at cells of the border only: one for each side
    of the grid the cell lies on. *)
Lemma lost_sides c :
  lost n c
  = (if decide (c.1 = 0%nat) then 1 else 0)
    + (if decide (c.1 = (n - 1)%nat) then 1 else 0)
    + (if decide (c.2 = 0%nat) then 1 else 0)
    + (if decide (c.2 = (n - 1)%nat) then 1 else 0).
Proof.
  unfold lost, nbrs. rewrite !length_app.
  repeat case_decide; simpl; lia.
Qed.

Lemma lost_interior c : ¬ boundary n c → lost n c = 0.
Proof.
  unfold boundary. intros Hb. rewrite lost_sides.
  repeat case_decide; try lia; tauto.
Qed.

(** One [step] from the drawn site on, with the least fuel that is known
    to suffice. *)
Lemma step_at_runs g site :
  square n g → nonneg n g → inb n site →
  ∃ g' ts,
    (∀ fuel, (Z.to_nat (potential n g + weight n site) + 3 ≤ fuel)%nat →
       step_at_log fuel n g site = Ok (g', ts) ∧
       step_at fuel n g site = Ok g') ∧
    g' = topple_all n (addc g site 1) ts ∧
    legal n (addc g site 1) ts ∧
    square n g' ∧ nonneg n g' ∧
    (stable n g → stable n g').
Proof.
  intros Hsq Hnn Hc.
  pose proof (potential_nonneg n g Hnn) as Hp.
  pose proof (weight_pos n site Hc) as Hw.
  destruct (step_at_log_spec n (Z.to_nat (potential n g + weight n site) + 3)
              g site Hsq Hnn Hc) as (ts & R & L & Hsq' & Hnn' & Hs); [lia|].
  exists (topple_all n (addc g site 1) ts), ts.
  split; [|done]. intros fuel Hfuel.
  assert (step_at_log fuel n g site = Ok (topple_all n (addc g site 1) ts, ts))
    as R' by (eapply step_at_log_mono; eauto).
  split; [done|]. by eapply step_at_of_log.
Qed.
End Fuel.

(** ** The object: [__init__], [step], [simulate] *)

Section ObjectFacts.
Import AbelianSandpile.
Context {rng : Type} `{NumpyRandomSpec rng}.
Context (N : nat).
Implicit Types (self : t) (w : world rng) (a : ndarray) (h : list ndarray).

Lemma np_copy_ok l w v :
  heap w !! l = Some v →
  np_copy l w = Ok (length (heap w), mkworld (heap w ++ [v]) (np_random w)).
Proof. intros E. unfold np_copy. by rewrite E. Qed.

Lemma init_spec seed w :
  __init__ N seed w
  = Ok (mk N (length (heap w)) [S (length (heap w))],
        mkworld (heap w ++ [(np_random_choice_grid N
                               (np_random_seed seed (np_random w))).1;
                            (np_random_choice_grid N
                               (np_random_seed seed (np_random w))).1])
                (np_random_choice_grid N
                   (np_random_seed seed (np_random w))).2).
Proof.
  unfold __init__.
  destruct (np_random_choice_grid N (np_random_seed seed (np_random w)))
    as [a r]. cbn [fst snd].
  rewrite (np_copy_ok _ _ a).
  - cbn [mbind result_bind heap np_random]. rewrite length_app. simpl.
    rewrite <- (assoc_L (++)). by rewrite Nat.add_1_r.
  - cbn [heap]. by rewrite lookup_app_r, Nat.sub_diag by lia.
Qed.

Lemma init_inv seed w :
  ∃ self w', __init__ N seed w = Ok (self, w') ∧ obj_inv N self w'.
Proof.
  eexists _, _. split; [apply init_spec|].
  pose proof (choice_grid_good N (np_random_seed seed (np_random w))) as Hg.
  set (a := (np_random_choice_grid N _).1) in *.
  split; [done|]. cbn [grid history heap]. split; [|split].
  - exists a. split; [|done].
    by rewrite lookup_app_r, Nat.sub_diag by lia.
  - intros Hin%list_elem_of_singleton. lia.
  - apply Forall_singleton. exists a. split; [|done].
    rewrite lookup_app_r by lia.
    by replace (S (length (heap w)) - length (heap w))%nat with 1%nat by lia.
Qed.

Lemma obj_inv_lt self w l :
  obj_inv N self w → l ∈ history self → (l < length (heap w))%nat ∧ l ≠ grid self.
Proof.
  intros (_ & _ & Hni & Hh) Hl. rewrite Forall_forall in Hh.
  destruct (Hh l Hl) as (a & Ha & _). split; [by eapply lookup_lt_Some|].
  by intros ->.
Qed.

(** An object is not affected by a change of the world that leaves its
    arrays as they were. *)
Lemma obj_inv_frame self w w' :
  obj_inv N self w →
  heap w' !! grid self = heap w !! grid self →
  (∀ l, l ∈ history self → heap w' !! l = heap w !! l) →
  obj_inv N self w' ∧ snapshots self w' = snapshots self w.
Proof.
  intros (Hn & (a & Ha & Hg) & Hni & Hh) Hgrid Hhist. split.
  - split; [done|]. split; [|split; [done|]].
    + exists a. by rewrite Hgrid.
    + rewrite Forall_forall in *. intros l Hl. rewrite Hhist by done. auto.
  - unfold snapshots. apply list_fmap_ext. intros i l Hl.
    apply Hhist. by eapply list_elem_of_lookup_2.
Qed.

Section Steps.
Context (fuel : nat).

Lemma stream_history_length n_step : ∀ a (r : rng) tr,
  stream_history fuel n_step N a r = Ok tr → length tr = n_step.
Proof.
  induction n_step as [|k IH]; intros a r tr T.
  - by injection T as <-.
  - cbn [stream_history] in T. destruct (np_random_choice N r) as [site r1].
    destruct (step_at fuel N a site) as [a1|]; [|done].
    cbn [mbind result_bind] in T.
    destruct (stream_history fuel k N a1 r1) as [l|] eqn:E; [|done].
    injection T as <-. simpl. f_equal. by eapply IH.
Qed.

Hypothesis (HN : (0 < N)%nat) (Hfuel : (step_fuel N ≤ fuel)%nat).

(** [step] on a good grid: the site is drawn from the global generator,
    the array of the grid is overwritten with the relaxed grid, no array
    is allocated and no other array is touched. *)
Lemma step_ok self w a :
  n self = N → heap w !! grid self = Some a → good N a →
  ∃ a',
    step_at fuel N a (np_random_choice N (np_random w)).1 = Ok a' ∧
    step fuel self w
    = Ok (self, mkworld (<[grid self := a']> (heap w))
                        (np_random_choice N (np_random w)).2) ∧
    good N a'.
Proof.
  intros Hn Ha (Hsq & Hnn & Hst).
  pose proof (choice_inb N (np_random w) HN) as Hsite.
  destruct (np_random_choice N (np_random w)) as [site r] eqn:E.
  cbn [fst snd] in *.
  destruct (step_at_runs N a site Hsq Hnn Hsite)
    as (a' & ts & Hrun & _ & _ & Hsq' & Hnn' & Hst').
  destruct (Hrun fuel) as [_ R].
  { pose proof (step_fuel_enough N a site Hst Hsite).
    pose proof (potential_nonneg N a Hnn). pose proof (weight_pos N site Hsite).
    lia. }
  exists a'. split; [done|]. split; [|split; [done|split; [done|by apply Hst']]].
  unfold step. rewrite Hn, decide_False by lia. rewrite E, Ha, R. done.
Qed.

(** [simulate]: the final object and world, written out. The arrays
    appended to the heap are the snapshots, in order; the array of the
    grid holds the last of them. *)
Lemma simulate_spec n_step : ∀ self w a,
  n self = N → heap w !! grid self = Some a → good N a →
  ∃ tr,
    stream_history fuel n_step N a (np_random w) = Ok tr ∧
    simulate fuel n_step self w
    = Ok (mk N (grid self) (history self ++ seq (length (heap w)) n_step),
          mkworld (<[grid self := default a (last tr)]> (heap w) ++ tr)
                  (after_draws n_step N (np_random w))) ∧
    Forall (good N) tr.
Proof.
  induction n_step as [|k IH]; intros self w a Hn Ha Hgood.
  { exists []. split; [done|]. split; [|done].
    cbn [simulate seq last default]. rewrite !app_nil_r.
    rewrite list_insert_id by done. by destruct self, w; simpl in *; subst. }
  destruct (step_ok self w a Hn Ha Hgood) as (a1 & R1 & S1 & G1).
  assert (grid self < length (heap w))%nat as Hlt by by eapply lookup_lt_Some.
  set (r1 := (np_random_choice N (np_random w)).2) in *.
  set (w2 := mkworld (<[grid self := a1]> (heap w) ++ [a1]) r1).
  set (self2 := mk (n self) (grid self) (history self ++ [length (heap w)])).
  destruct (IH self2 w2 a1) as (tr & T & S & G); [done| |done|].
  { cbn. rewrite lookup_app_l by (by rewrite length_insert).
    by apply list_lookup_insert_eq. }
  exists (a1 :: tr). split; [|split].
  - cbn [stream_history].
    destruct (np_random_choice N (np_random w)) as [site r] eqn:E.
    cbn [fst snd] in *. rewrite R1. cbn [mbind result_bind].
    change (np_random w2) with r in T. rewrite T. done.
  - cbn [simulate]. rewrite S1. cbn [mbind result_bind].
    rewrite (np_copy_ok _ _ a1); [|by apply list_lookup_insert_eq].
    cbn [mbind result_bind heap np_random].
    rewrite length_insert. fold r1. fold w2. fold self2.
    rewrite S. do 2 f_equal.
    + cbn. rewrite <- (assoc_L (++)). do 2 f_equal.
      rewrite length_app, length_insert. simpl.
      by rewrite Nat.add_1_r.
    + cbn. f_equal. rewrite insert_app_l by (by rewrite length_insert).
      rewrite list_insert_insert_eq, <- (assoc_L (++)). do 2 f_equal.
      rewrite last_cons. by destruct (last tr).
  - by apply Forall_cons.
Qed.

(** [step] keeps the invariant and leaves every snapshot as it was. *)
Lemma step_inv self w :
  obj_inv N self w →
  ∃ w', step fuel self w = Ok (self, w') ∧ obj_inv N self w' ∧
        snapshots self w' = snapshots self w.
Proof.
  intros Hinv. pose proof Hinv as (Hn & (a & Ha & Hg) & Hni & Hh).
  destruct (step_ok self w a Hn Ha Hg) as (a' & _ & S & G).
  eexists. split; [exact S|]. split.
  - split; [done|]. cbn [heap]. split; [|split; [done|]].
    + exists a'. split; [|done]. apply list_lookup_insert_eq.
      by eapply lookup_lt_Some.
    + rewrite Forall_forall in *. intros l Hl.
      destruct (Hh l Hl) as (b & Hb & Gb). exists b. split; [|done].
      rewrite list_lookup_insert_ne; [done|]. by intros <-.
  - unfold snapshots. apply list_fmap_ext. intros i l Hl. cbn [heap].
    rewrite list_lookup_insert_ne; [done|].
    intros <-. apply Hni. by eapply list_elem_of_lookup_2.
Qed.

(** [simulate] appends one new array per step, keeps the invariant and
    leaves the earlier snapshots as they were; the new snapshots hold the
    grids that the owned-stream run produces. *)
Lemma simulate_inv n_step self w a :
  obj_inv N self w → heap w !! grid self = Some a →
  ∃ self' w' tr,
    simulate fuel n_step self w = Ok (self', w') ∧
    obj_inv N self' w' ∧
    grid self' = grid self ∧
    history self' = history self ++ seq (length (heap w)) n_step ∧
    stream_history fuel n_step N a (np_random w) = Ok tr ∧
    snapshots self' w' = snapshots self w ++ (Some <$> tr) ∧
    heap w' !! grid self' = Some (default a (last tr)) ∧
    np_random w' = after_draws n_step N (np_random w) ∧
    (∀ l, (l < length (heap w))%nat → l ≠ grid self →
          heap w' !! l = heap w !! l).
Proof.
  intros Hinv Ha. pose proof Hinv as (Hn & (a0 & Ha0 & Hg) & Hni & Hh).
  assert (a0 = a) as -> by congruence.
  destruct (simulate_spec n_step self w a Hn Ha Hg) as (tr & T & S & G).
  assert (length tr = n_step) as Hlen by by eapply stream_history_length.
  assert (grid self < length (heap w))%nat as Hlt by by eapply lookup_lt_Some.
  assert (good N (default a (last tr))) as Glast.
  { destruct (last tr) as [b|] eqn:E; [|done]. simpl.
    rewrite Forall_forall in G. apply G. by apply last_Some_elem_of. }
  eexists _, _, tr. split; [exact S|].
  assert (∀ l, l ∈ history self →
            (<[grid self:=default a (last tr)]> (heap w) ++ tr) !! l
            = heap w !! l) as Hold.
  { intros l Hl. destruct (obj_inv_lt self w l Hinv Hl) as [Hl1 Hl2].
    rewrite lookup_app_l by (by rewrite length_insert).
    by rewrite list_lookup_insert_ne. }
  assert (∀ i, (i < n_step)%nat →
            (<[grid self:=default a (last tr)]> (heap w) ++ tr)
              !! (length (heap w) + i)%nat = tr !! i) as Hnew.
  { intros i Hi. rewrite lookup_app_r by (rewrite length_insert; lia).
    rewrite length_insert. f_equal. lia. }
  split; [|split; [done|split; [done|split; [done|split]]]].
  - split; [done|]. cbn [grid history heap]. split; [|split].
    + eexists. split; [|exact Glast].
      rewrite lookup_app_l by (by rewrite length_insert).
      by apply list_lookup_insert_eq.
    + intros [Hin|Hin]%elem_of_app; [done|].
      apply elem_of_seq in Hin. lia.
    + apply Forall_app. split.
      * rewrite Forall_forall in *. intros l Hl. rewrite Hold by done. auto.
      * apply Forall_seq. intros i Hi.
        replace i with (length (heap w) + (i - length (heap w)))%nat by lia.
        rewrite Hnew by lia.
        destruct (lookup_lt_is_Some_2 tr (i - length (heap w))) as [b Hb]; [lia|].
        exists b. split; [done|]. rewrite Forall_forall in G. apply G.
        by eapply list_elem_of_lookup_2.
  - unfold snapshots. cbn [history heap]. rewrite fmap_app. f_equal.
    + apply list_fmap_ext. intros i l Hl. apply Hold.
      by eapply list_elem_of_lookup_2.
    + apply list_eq. intros i. rewrite !list_lookup_fmap.
      destruct (decide (i < n_step)%nat) as [Hi|Hi].
      * rewrite lookup_seq_lt by done. simpl. rewrite Hnew by done.
        destruct (lookup_lt_is_Some_2 tr i) as [b Hb]; [lia|]. by rewrite Hb.
      * rewrite lookup_seq_ge by lia. simpl.
        by rewrite lookup_ge_None_2 by lia.
  - cbn [grid heap np_random]. split; [|split; [done|]].
    + rewrite lookup_app_l by (by rewrite length_insert).
      by apply list_lookup_insert_eq.
    + intros l Hl Hne. rewrite lookup_app_l by (by rewrite length_insert).
      by rewrite list_lookup_insert_ne.
Qed.

End Steps.
End ObjectFacts.

(** ** Two instances that share the generator *)

Section Interleaved.
Import AbelianSandpile.
Context {rng : Type} `{NumpyRandomSpec rng}.

(** Both instances are constructed before either is simulated: the
    history of the first is the seeded run; the history of the second
    starts from the same grid, and its perturbation sites are drawn from
    the state in which the simulation of the first left the generator. *)
Lemma interleaved_spec (N fuel : nat) (seed : Z) (n_step : nat)
    (w : world rng) :
  (0 < N)%nat → (step_fuel N ≤ fuel)%nat →
  ∃ trA trB,
    stream_history fuel n_step N
      (np_random_choice_grid N (np_random_seed (Some seed) (np_random w))).1
      (np_random_choice_grid N (np_random_seed (Some seed) (np_random w))).2
    = Ok trA ∧
    stream_history fuel n_step N
      (np_random_choice_grid N (np_random_seed (Some seed) (np_random w))).1
      (after_draws n_step N
         (np_random_choice_grid N (np_random_seed (Some seed) (np_random w))).2)
    = Ok trB ∧
    interleaved fuel N seed n_step w
    = Ok (Some <$> ((np_random_choice_grid N
                       (np_random_seed (Some seed) (np_random w))).1 :: trA),
          Some <$> ((np_random_choice_grid N
                       (np_random_seed (Some seed) (np_random w))).1 :: trB)).
Proof.
  intros HN Hfuel.
  set (a0 := (np_random_choice_grid N
                (np_random_seed (Some seed) (np_random w))).1).
  set (r0 := (np_random_choice_grid N
                (np_random_seed (Some seed) (np_random w))).2).
  set (L := length (heap w)).
  (* the first instance *)
  set (A := mk N L [S L]).
  set (w1 := mkworld (heap w ++ [a0; a0]) r0).
  assert (__init__ N (Some seed) w = Ok (A, w1)) as IA by apply init_spec.
  assert (obj_inv N A w1) as InvA1.
  { destruct (init_inv N (Some seed) w) as (s' & w' & I & Hinv).
    rewrite IA in I. by injection I as <- <-. }
  (* the second instance *)
  set (B := mk N (L + 2) [S (L + 2)]).
  set (w2 := mkworld (heap w1 ++ [a0; a0]) r0).
  assert (__init__ N (Some seed) w1 = Ok (B, w2)) as IB.
  { rewrite init_spec. cbn [heap np_random w1].
    rewrite (seed_resets seed r0 (np_random w)). fold a0 r0.
    rewrite length_app. cbn [length]. fold L. done. }
  assert (obj_inv N B w2) as InvB2.
  { destruct (init_inv N (Some seed) w1) as (s' & w' & I & Hinv).
    rewrite IB in I. by injection I as <- <-. }
  assert (length (heap w1) = (L + 2)%nat) as L1.
  { cbn [heap w1]. rewrite length_app. cbn [length]. fold L. lia. }
  assert (length (heap w2) = (L + 4)%nat) as L2.
  { cbn [heap w2]. rewrite length_app, L1. cbn [length]. lia. }
  assert (∀ l, (l < L + 2)%nat → heap w2 !! l = heap w1 !! l) as F12.
  { intros l Hl. cbn [heap w2]. by rewrite lookup_app_l by lia. }
  assert (grid A = L) as EA by done.
  assert (grid B = (L + 2)%nat) as EB by done.
  destruct (obj_inv_frame N A w1 w2 InvA1) as [InvA2 SnA2].
  { apply F12. rewrite EA. lia. }
  { intros l Hl%list_elem_of_singleton. apply F12. lia. }
  assert (heap w2 !! grid A = Some a0) as GA.
  { rewrite F12 by (rewrite EA; lia). rewrite EA. cbn [heap w1].
    rewrite lookup_app_r by (fold L; lia). fold L. by rewrite Nat.sub_diag. }
  assert (heap w2 !! grid B = Some a0) as GB.
  { rewrite EB. cbn [heap w2]. rewrite lookup_app_r by lia.
    by rewrite L1, Nat.sub_diag. }
  assert (snapshots A w2 = [Some a0]) as SA.
  { rewrite SnA2. unfold snapshots. cbn [history A heap w1 fmap list_fmap].
    rewrite lookup_app_r by (fold L; lia). fold L.
    by replace (S L - L)%nat with 1%nat by lia. }
  assert (snapshots B w2 = [Some a0]) as SB.
  { unfold snapshots. cbn [history B heap w2 fmap list_fmap].
    rewrite lookup_app_r by lia. rewrite L1.
    by replace (S (L + 2) - (L + 2))%nat with 1%nat by lia. }
  (* the first simulation *)
  destruct (simulate_inv N fuel HN Hfuel n_step A w2 a0 InvA2 GA)
    as (A' & w3 & trA & SimA & InvA3 & GA' & HA' & TA & SnA3 & _ & R3 & F23).
  destruct (obj_inv_frame N B w2 w3 InvB2) as [InvB3 SnB3].
  { apply F23; rewrite ?L2, ?EA, ?EB; lia. }
  { intros l Hl%list_elem_of_singleton. apply F23; rewrite ?L2, ?EA; lia. }
  assert (heap w3 !! grid B = Some a0) as GB3.
  { rewrite F23 by (rewrite ?L2, ?EA, ?EB; lia). done. }
  (* the second simulation *)
  destruct (simulate_inv N fuel HN Hfuel n_step B w3 a0 InvB3 GB3)
    as (B' & w4 & trB & SimB & InvB4 & GB' & HB' & TB & SnB4 & _ & _ & F34).
  destruct (obj_inv_frame N A' w3 w4 InvA3) as [_ SnA4].
  { apply F34.
    - destruct InvA3 as (_ & (x & Hx & _) & _). by eapply lookup_lt_Some.
    - rewrite GA', EA, EB. lia. }
  { intros l Hl. apply F34.
    - by destruct (obj_inv_lt N A' w3 l InvA3 Hl).
    - rewrite HA', L2 in Hl. rewrite EB.
      apply elem_of_app in Hl as [Hl%list_elem_of_singleton|Hl%elem_of_seq]; lia. }
  exists trA, trB. split; [exact TA|]. split.
  { rewrite R3 in TB. exact TB. }
  unfold interleaved. rewrite IA. cbn [mbind result_bind].
  rewrite IB. cbn [mbind result_bind]. rewrite SimA. cbn [mbind result_bind].
  rewrite SimB. cbn [mbind result_bind].
  rewrite SnA4, SnA3, SA, SnB4, SnB3, SB. done.
Qed.
End Interleaved.

(** ** The Mersenne Twister as the generator of the class *)

Section MT19937Facts.
Import MT19937 AbelianSandpile.

Lemma gen_mask_nonneg rng : 0 ≤ gen_mask rng.
Proof.
  unfold gen_mask. rewrite Z.ones_equiv.
  pose proof (Z.log2_nonneg rng).
  pose proof (Z.pow_pos_nonneg 2 (Z.log2 rng + 1)). lia.
Qed.

Lemma bounded_masked_range fuel rng mask : ∀ st,
  0 ≤ rng → 0 ≤ mask →
  0 ≤ (bounded_masked fuel rng mask st).1 ≤ rng.
Proof.
  induction fuel as [|fuel IH]; intros st Hr Hm; [simpl; lia|].
  cbn [bounded_masked]. destruct (mt19937_next st) as [y st'].
  case_decide as Hv; [|by apply IH].
  cbn [fst]. split; [|done]. apply Z.land_nonneg. by right.
Qed.

Lemma randint_range high st : 0 < high → 0 ≤ (randint high st).1 < high.
Proof.
  intros Hh. unfold randint. case_decide; [simpl; lia|].
  pose proof (bounded_masked_range 64 (high - 1) (gen_mask (high - 1)) st).
  pose proof (gen_mask_nonneg (high - 1)). lia.
Qed.

Lemma randints_spec k high : ∀ st,
  0 < high →
  length (randints k high st).1 = k ∧
  Forall (λ v, 0 ≤ v < high) (randints k high st).1.
Proof.
  induction k as [|k IH]; intros st Hh; [by split|].
  cbn [randints]. pose proof (randint_range high st Hh) as Hv.
  destruct (randint high st) as [v st1]. specialize (IH st1 Hh).
  destruct (randints k high st1) as [l st2]. cbn [fst] in *.
  destruct IH as [Hl Hall]. split; [simpl; by rewrite Hl|].
  by apply Forall_cons.
Qed.

Lemma randint_rows_spec r c high : ∀ st,
  0 < high →
  rect r c (randint_rows r c high st).1 ∧
  Forall (Forall (λ v, 0 ≤ v < high)) (randint_rows r c high st).1.
Proof.
  induction r as [|r IH]; intros st Hh.
  { split; [by split|done]. }
  cbn [randint_rows]. pose proof (randints_spec c high st Hh) as [Hl Hall].
  destruct (randints c high st) as [row st1]. specialize (IH st1 Hh).
  destruct (randint_rows r c high st1) as [a st2]. cbn [fst] in *.
  destruct IH as [[Hlen Hrows] Hvals]. split; [split|].
  - simpl. by rewrite Hlen.
  - by apply Forall_cons.
  - by apply Forall_cons.
Qed.

Lemma cell_range (a : ndarray) (lo hi : Z) c :
  lo ≤ 0 < hi → Forall (Forall (λ v, lo ≤ v < hi)) a → lo ≤ cell a c < hi.
Proof.
  intros Hz Hall. unfold cell.
  destruct (a !! c.1) as [row|] eqn:E1; [|lia].
  eapply Forall_lookup_1 in Hall; [|exact E1].
  destruct (row !! c.2) as [v|] eqn:E2; [|simpl; lia].
  eapply Forall_lookup_1 in Hall; [|exact E2]. done.
Qed.

(** NumPy's generator meets the contract the class relies on. *)
Lemma numpy_random_spec : @NumpyRandomSpec MT19937.state numpy_random.
Proof.
  split.
  - done.
  - intros n st. cbn [np_random_choice_grid numpy_random].
    destruct (randint_rows_spec n n 4 st) as [Hrect Hvals]; [lia|].
    split; [exact Hrect|].
    split; intros c _; pose proof (cell_range _ 0 4 c ltac:(lia) Hvals); lia.
  - intros n st Hn. cbn [np_random_choice numpy_random].
    destruct (randints_spec 2 (Z.of_nat n) st) as [Hl Hall]; [lia|].
    destruct (randints 2 (Z.of_nat n) st) as [l st1]. cbn [fst] in *.
    destruct l as [|a [|b [|? ?]]]; try done.
    apply Forall_cons in Hall as [Ha Hall].
    apply Forall_cons in Hall as [Hb _].
    unfold word. split; simpl; lia.
Qed.

End MT19937Facts.

(** ** The counter generator meets the contract *)

Section CounterRandom.
Import AbelianSandpile.

Lemma counter_grid_cell (n r : nat) (c : pos) :
  inb n c →
  cell (@np_random_choice_grid _ counter_random n r).1 c
  = Z.of_nat ((r + c.1 * n + c.2) `mod` 4).
Proof.
  intros [Hi Hj]. unfold cell. cbn [np_random_choice_grid counter_random fst].
  rewrite list_lookup_fmap, lookup_seq_lt by done. cbn [fmap option_fmap option_map].
  rewrite list_lookup_fmap, lookup_seq_lt by done. done.
Qed.

Lemma counter_random_spec : @NumpyRandomSpec nat counter_random.
Proof.
  split.
  - done.
  - intros n r. split; [|split].
    + split.
      * cbn. by rewrite length_fmap, length_seq.
      * cbn. apply Forall_fmap, Forall_forall. intros i _. cbn.
        by rewrite length_fmap, length_seq.
    + intros c Hc. rewrite counter_grid_cell by done. lia.
    + intros c Hc. rewrite counter_grid_cell by done.
      pose proof (Nat.mod_upper_bound (r + c.1 * n + c.2) 4). lia.
  - intros n r Hn. split; cbn; apply Nat.mod_upper_bound; lia.
Qed.
End CounterRandom.

(** ** The sandpile engine: results *)

Module SandpileResults.
Import AbelianSandpile.



(** Outside the invariant of the class the loops still terminate, but a
    cell that held four grains or more before the step and is not reached
    by the avalanche is never examined: the worklist starts from the drop
    site only. *)
Example unstable_start_is_not_repaired :
  step_at 100 2 [[5; 0]; [0; 0]] (1, 1)%nat = Ok [[5; 0]; [0; 1]].
Proof. vm_compute. reflexivity. Qed.

(** C4: from a grid with every count between 0 and 3 and a grain added at
    an in-bounds site, the loops of the code and the worklist relaxation
    under any policy (first in first out, last in first out, or any other
    choice of the next pending entry) all terminate with the same stable
    grid; and every run that empties the worklist, in whatever order, ends
    in that grid. *)
Theorem relaxation_order_independent (n : nat) (g : ndarray) (site : pos)
    (fuel : nat) :
  good n g → inb n site → (step_fuel n ≤ fuel)%nat →
  ∃ g',
    step_at fuel n g site = Ok g' ∧ stable n g' ∧
    worklist_relax fifo fuel n (addc g site 1) [site] = Ok g' ∧
    worklist_relax lifo fuel n (addc g site 1) [site] = Ok g' ∧
    (∀ pick, worklist_relax pick fuel n (addc g site 1) [site] = Ok g') ∧
    (∀ g'', worklist_run n (addc g site 1) [site] g'' → g'' = g').
Proof.
  intros (Hsq & Hnn & Hst) Hc Hfuel.
  pose proof (step_fuel_enough n g site Hst Hc) as Hen.
  pose proof (potential_nonneg n g Hnn) as Hp.
  pose proof (weight_pos n site Hc) as Hw.
  destruct (step_at_runs n g site Hsq Hnn Hc)
    as (g' & ts & Hrun & -> & L & _ & _ & Hs).
  destruct (Hrun fuel) as [_ R]; [lia|]. specialize (Hs Hst).
  assert (square n (addc g site 1)) as Hsq1 by by apply square_addc.
  assert (∀ pick,
    worklist_relax pick fuel n (addc g site 1) [site]
    = Ok (topple_all n (addc g site 1) ts)) as Hany.
  { intros pick.
    destruct (worklist_relax_spec n pick fuel (addc g site 1) [site])
      as (ts' & R' & L' & Pe').
    { split; [done|]. split; [|by apply Forall_singleton].
      intros x Hx. rewrite (cell_addc n) by done. specialize (Hnn x Hx).
      case_decide; lia. }
    { rewrite (potential_addc n) by done. simpl. lia. }
    rewrite R'. f_equal.
    apply (legal_stable_unique n ts (addc g site 1) ts'); try done.
    apply Pe'. by apply pending_drop. }
  assert (base n (addc g site 1) [site]) as Hbase.
  { split; [done|]. split; [|by apply Forall_singleton].
    intros x Hx. rewrite (cell_addc n) by done. specialize (Hnn x Hx).
    case_decide; lia. }
  eexists. split; [exact R|]. split; [exact Hs|].
  split; [apply Hany|]. split; [apply Hany|]. split; [exact Hany|].
  intros g'' Hrun'.
  destruct (worklist_run_spec n (addc g site 1) [site] g'' Hrun' Hbase)
    as (ts' & -> & L' & Pe').
  apply (legal_stable_unique n ts (addc g site 1) ts'); try done.
  apply Pe'. by apply pending_drop.
Qed.

Lemma relaxation_order_independent_witness :
  ∃ g',
    step_at 100 2 [[3; 3]; [3; 3]] (0, 0)%nat = Ok g' ∧
    worklist_relax fifo 100 2 (addc [[3; 3]; [3; 3]] (0, 0)%nat 1) [(0, 0)%nat]
    = Ok g' ∧
    worklist_relax lifo 100 2 (addc [[3; 3]; [3; 3]] (0, 0)%nat 1) [(0, 0)%nat]
    = Ok g'.
Proof.
  assert (square 2 [[3; 3]; [3; 3]]) as Hsq.
  { split; [reflexivity|]. repeat constructor. }
  assert (∀ c, inb 2 c → cell [[3; 3]; [3; 3]] c = 3) as Hcells.
  { intros [i j] [Hi Hj]. simpl in Hi, Hj.
    destruct i as [|[|i]], j as [|[|j]]; try lia; reflexivity. }
  assert (good 2 [[3; 3]; [3; 3]]) as Hg.
  { split; [exact Hsq|].
    split; intros c Hc; rewrite (Hcells c Hc); lia. }
  assert (inb 2 (0, 0)%nat) as Hc by (split; simpl; lia).
  assert (step_fuel 2 ≤ 100)%nat as Hf by (vm_compute; lia).
  destruct (relaxation_order_independent 2 [[3; 3]; [3; 3]] (0, 0)%nat 100
              Hg Hc Hf) as (g' & R & _ & F & L & _).
  exists g'. split; [exact R|]. split; [exact F|exact L].
Defined.

(** C6, as the code has it: for any one [step] on an n by n grid of
    non-negative counts, the sum of the grid after the relaxation is the
    sum before plus 1, minus the grains sent out of bounds, which for each
    avalanche is 4 minus the number of in-bounds neighbours of the cell:
    one for each side of the grid the cell lies on, none for an interior
    cell. *)
Theorem mass_accounting (n : nat) (g : ndarray) (site : pos) :
  square n g → nonneg n g → inb n site →
  ∃ g' ts,
    (∀ fuel, (Z.to_nat (potential n g + weight n site) + 3 ≤ fuel)%nat →
       step_at fuel n g site = Ok g' ∧
       step_at_log fuel n g site = Ok (g', ts)) ∧
    grid_sum g' = grid_sum g + 1 - zsum (lost n) ts ∧
    ∀ c, lost n c
         = (if decide (c.1 = 0%nat) then 1 else 0)
           + (if decide (c.1 = (n - 1)%nat) then 1 else 0)
           + (if decide (c.2 = 0%nat) then 1 else 0)
           + (if decide (c.2 = (n - 1)%nat) then 1 else 0).
Proof.
  intros Hsq Hnn Hc.
  destruct (step_at_runs n g site Hsq Hnn Hc)
    as (g' & ts & Hrun & -> & L & _ & _ & _).
  eexists _, ts. split; [|split; [|apply lost_sides]].
  - intros fuel Hfuel. destruct (Hrun fuel Hfuel). done.
  - rewrite (grid_sum_topple_all n) by (done || by apply square_addc).
    rewrite (grid_sum_addc n) by done. lia.
Qed.

Lemma mass_accounting_witness :
  ∃ g' ts,
    step_at_log 100 2 [[3; 3]; [3; 3]] (0, 0)%nat = Ok (g', ts) ∧
    grid_sum g' = grid_sum [[3; 3]; [3; 3]] + 1 - zsum (lost 2) ts.
Proof.
  assert (square 2 [[3; 3]; [3; 3]]) as Hsq.
  { split; [reflexivity|]. repeat constructor. }
  assert (∀ c, inb 2 c → cell [[3; 3]; [3; 3]] c = 3) as Hcells.
  { intros [i j] [Hi Hj]. simpl in Hi, Hj.
    destruct i as [|[|i]], j as [|[|j]]; try lia; reflexivity. }
  assert (nonneg 2 [[3; 3]; [3; 3]]) as Hnn.
  { intros c Hc. rewrite (Hcells c Hc). lia. }
  assert (inb 2 (0, 0)%nat) as Hc by (split; simpl; lia).
  destruct (mass_accounting 2 [[3; 3]; [3; 3]] (0, 0)%nat Hsq Hnn Hc)
    as (g' & ts & Hrun & Hsum & _).
  exists g', ts. destruct (Hrun 100%nat) as [_ R]; [vm_compute; lia|].
  split; [exact R|exact Hsum].
Defined.

(** C6, as stated, fails: on the 3 by 3 grid of 3s with the grain dropped
    at the centre, eight avalanches happen at cells of the border and the
    sum goes from 27 to 16, not to 27 + 1 - 4 * 8. *)
Lemma mass_accounting_counterexample :
  ∃ g' ts,
    step_at_log 100 3 [[3; 3; 3]; [3; 3; 3]; [3; 3; 3]] (1, 1)%nat
    = Ok (g', ts) ∧
    length (filter (boundary 3) ts) = 8%nat ∧
    grid_sum [[3; 3; 3]; [3; 3; 3]; [3; 3; 3]] = 27 ∧
    grid_sum g' = 16 ∧
    grid_sum g'
    ≠ grid_sum [[3; 3; 3]; [3; 3; 3]; [3; 3; 3]] + 1
      - 4 * Z.of_nat (length (filter (boundary 3) ts)).
Proof.
  eexists _, _. split; [vm_compute; reflexivity|].
  split; [vm_compute; reflexivity|].
  split; [vm_compute; reflexivity|].
  split; [vm_compute; reflexivity|].
  vm_compute. discriminate.
Qed.


(** C2: for every n of at least 1 and every seed, the grid that [__init__]
    builds and the snapshot it records are n by n with every count between
    0 and 3; [step] and [simulate] complete and keep this true of the grid
    and of every snapshot in [history] ([obj_inv]). The generator is any
    that meets NumPy's contract. *)
Theorem sandpile_counts_bounded {rng : Type} `{NumpyRandomSpec rng}
    (N fuel : nat) :
  (0 < N)%nat → (step_fuel N ≤ fuel)%nat →
  (∀ seed (w : world rng),
      ∃ self w', __init__ N seed w = Ok (self, w') ∧ obj_inv N self w') ∧
  (∀ self (w : world rng),
      obj_inv N self w →
      ∃ w', step fuel self w = Ok (self, w') ∧ obj_inv N self w') ∧
  (∀ n_step self (w : world rng),
      obj_inv N self w →
      ∃ self' w',
        simulate fuel n_step self w = Ok (self', w') ∧ obj_inv N self' w').
Proof.
  intros HN Hfuel. split; [|split].
  - intros seed w. by apply init_inv.
  - intros self w Hinv.
    destruct (step_inv N fuel HN Hfuel self w Hinv) as (w' & S & I & _).
    by exists w'.
  - intros n_step self w Hinv. pose proof Hinv as (_ & (a & Ha & _) & _).
    destruct (simulate_inv N fuel HN Hfuel n_step self w a Hinv Ha)
      as (self' & w' & tr & S & I & _).
    by exists self', w'.
Qed.

Lemma sandpile_counts_bounded_witness :
  ∃ self w' self' w'',
    @__init__ nat counter_random 2 (Some 0) (mkworld [] 0%nat) = Ok (self, w') ∧
    obj_inv 2 self w' ∧
    @simulate nat counter_random 100 3 self w' = Ok (self', w'') ∧
    obj_inv 2 self' w''.
Proof.
  assert (0 < 2)%nat as HN by lia.
  assert (step_fuel 2 ≤ 100)%nat as Hf by (vm_compute; lia).
  destruct (@sandpile_counts_bounded nat counter_random counter_random_spec
              2 100 HN Hf) as (Hinit & _ & Hsim).
  destruct (Hinit (Some 0) (mkworld [] 0%nat)) as (self & w' & I & Hinv).
  destruct (Hsim 3%nat self w' Hinv) as (self' & w'' & S & Hinv').
  exists self, w', self', w''.
  split; [exact I|]. split; [exact Hinv|]. split; [exact S|exact Hinv'].
Defined.

(** C5, as the code has it: two instances constructed with the same n and
    the same seed (not None), each constructed and then run through
    [simulate(n_step)] with no other use of NumPy's global generator
    between its construction and the end of its simulation, whatever the
    state of the generator and of the memory before each construction
    (two separate runs, or one instance run to the end before the other is
    constructed), have the same initial grid and the same sequence of
    snapshots; and that sequence is the one obtained by seeding one
    stream, drawing the grid from it and continuing the same stream for
    every perturbation site ([seeded_history]). When both instances are
    constructed before either is simulated ([interleaved]), the initial
    grids are the same and the second history continues the stream from
    the state the first simulation left. *)
Theorem seeded_runs_agree {rng : Type} `{NumpyRandomSpec rng}
    (N fuel : nat) (seed : Z) (n_step : nat) (w1 w2 : world rng) :
  (0 < N)%nat → (step_fuel N ≤ fuel)%nat →
  ∃ a0 r0 hist hist' self1 w1' self2 w2',
    np_random_choice_grid N (np_random_seed (Some seed) (np_random w1))
    = (a0, r0) ∧
    seeded_history fuel n_step N seed (np_random w1) = Ok (a0 :: hist) ∧
    length hist = n_step ∧
    (∃ self w', __init__ N (Some seed) w1 = Ok (self, w') ∧
                heap w' !! grid self = Some a0) ∧
    (∃ self w', __init__ N (Some seed) w2 = Ok (self, w') ∧
                heap w' !! grid self = Some a0) ∧
    run fuel N (Some seed) n_step w1 = Ok (self1, w1') ∧
    run fuel N (Some seed) n_step w2 = Ok (self2, w2') ∧
    snapshots self1 w1' = Some <$> (a0 :: hist) ∧
    snapshots self2 w2' = Some <$> (a0 :: hist) ∧
    stream_history fuel n_step N a0 (after_draws n_step N r0) = Ok hist' ∧
    interleaved fuel N seed n_step w1
    = Ok (Some <$> (a0 :: hist), Some <$> (a0 :: hist')).
Proof.
  intros HN Hfuel.
  destruct (interleaved_spec N fuel seed n_step w1 HN Hfuel)
    as (trA & trB & TA & TB & IL).
  destruct (np_random_choice_grid N (np_random_seed (Some seed) (np_random w1)))
    as [a0 r0] eqn:E0. cbn [fst snd] in *.
  assert (∀ w : world rng,
    ∃ self w', __init__ N (Some seed) w = Ok (self, w') ∧
               obj_inv N self w' ∧
               heap w' !! grid self = Some a0 ∧
               np_random w' = r0 ∧
               snapshots self w' = [Some a0]) as Hinit.
  { intros w. destruct (init_inv N (Some seed) w) as (self & w' & I & Hinv).
    exists self, w'. split; [exact I|]. split; [exact Hinv|].
    rewrite init_spec in I. injection I as <- <-.
    rewrite (seed_resets seed (np_random w) (np_random w1)), E0.
    unfold snapshots. cbn [grid heap np_random history fmap list_fmap fst snd].
    rewrite !lookup_app_r by lia. rewrite Nat.sub_diag.
    replace (S (length (heap w)) - length (heap w))%nat with 1%nat by lia.
    done. }
  assert (∀ w : world rng,
            ∃ self' w', run fuel N (Some seed) n_step w = Ok (self', w') ∧
                        snapshots self' w' = Some <$> (a0 :: trA)) as Hrun.
  { intros w.
    destruct (Hinit w) as (self & w' & I & Hinv & Ha & Hr & Hs).
    destruct (simulate_inv N fuel HN Hfuel n_step self w' a0 Hinv Ha)
      as (self' & w'' & tr' & S & _ & _ & _ & T' & Hsn & _).
    rewrite Hr, TA in T'. injection T' as <-.
    exists self', w''. unfold run. rewrite I. cbn [mbind result_bind].
    split; [exact S|]. rewrite Hsn, Hs. done. }
  destruct (Hrun w1) as (self1 & w1' & R1 & S1).
  destruct (Hrun w2) as (self2 & w2' & R2 & S2).
  exists a0, r0, trA, trB, self1, w1', self2, w2'.
  split; [done|].
  split. { unfold seeded_history. rewrite E0. by rewrite TA. }
  split; [by eapply stream_history_length|].
  split. { destruct (Hinit w1) as (self & w' & I & _ & Ha & _). by exists self, w'. }
  split. { destruct (Hinit w2) as (self & w' & I & _ & Ha & _). by exists self, w'. }
  done.
Qed.

Lemma seeded_runs_agree_witness :
  ∃ self1 w1' self2 w2',
    @run nat counter_random 100 2 (Some 0) 3 (mkworld [] 5%nat) = Ok (self1, w1') ∧
    @run nat counter_random 100 2 (Some 0) 3 (mkworld [[[7]]] 9%nat)
    = Ok (self2, w2') ∧
    snapshots self1 w1' = snapshots self2 w2'.
Proof.
  assert (0 < 2)%nat as HN by lia.
  assert (step_fuel 2 ≤ 100)%nat as Hf by (vm_compute; lia).
  destruct (@seeded_runs_agree nat counter_random counter_random_spec
              2 100 0 3 (mkworld [] 5%nat) (mkworld [[[7]]] 9%nat) HN Hf)
    as (a0 & r0 & hist & hist' & self1 & w1' & self2 & w2'
        & _ & _ & _ & _ & _ & R1 & R2 & S1 & S2 & _).
  exists self1, w1', self2, w2'.
  split; [exact R1|]. split; [exact R2|].
  exact (eq_trans S1 (eq_sym S2)).
Defined.

(** C10: on an object that satisfies the invariant, [step] completes,
    returns the object with [history] as it was and leaves every snapshot
    as it was; [simulate(n_step)] completes and appends to [history]
    exactly [n_step] references to arrays allocated by the call, distinct
    from each other and from the array of the grid; the earlier snapshots
    are as they were, and the new ones hold, in order, the grid after each
    step (the last one holds the current grid). *)
Theorem history_append_only {rng : Type} `{NumpyRandomSpec rng}
    (N fuel : nat) :
  (0 < N)%nat → (step_fuel N ≤ fuel)%nat →
  (∀ self (w : world rng),
      obj_inv N self w →
      ∃ w', step fuel self w = Ok (self, w') ∧
            snapshots self w' = snapshots self w) ∧
  (∀ n_step self (w : world rng) a,
      obj_inv N self w → heap w !! grid self = Some a →
      ∃ self' w' new tr,
        simulate fuel n_step self w = Ok (self', w') ∧
        history self' = history self ++ new ∧
        length new = n_step ∧
        NoDup new ∧
        (∀ l, l ∈ new → (length (heap w) ≤ l)%nat ∧ l ≠ grid self') ∧
        stream_history fuel n_step N a (np_random w) = Ok tr ∧
        snapshots self' w' = snapshots self w ++ (Some <$> tr) ∧
        heap w' !! grid self' = Some (default a (last tr))).
Proof.
  intros HN Hfuel. split.
  - intros self w Hinv.
    destruct (step_inv N fuel HN Hfuel self w Hinv) as (w' & S & _ & Hs).
    by exists w'.
  - intros n_step self w a Hinv Ha.
    destruct (simulate_inv N fuel HN Hfuel n_step self w a Hinv Ha)
      as (self' & w' & tr & S & I & Hg & Hh & T & Hs & Hl & _).
    exists self', w', (seq (length (heap w)) n_step), tr.
    split; [exact S|]. split; [exact Hh|].
    split; [by rewrite length_seq|]. split; [apply NoDup_seq|].
    split; [|done].
    intros l Hl'%elem_of_seq. split; [lia|]. rewrite Hg.
    apply lookup_lt_Some in Ha. lia.
Qed.

Lemma history_append_only_witness :
  ∃ self w' self' w'' new,
    @__init__ nat counter_random 2 (Some 0) (mkworld [] 0%nat) = Ok (self, w') ∧
    @simulate nat counter_random 100 3 self w' = Ok (self', w'') ∧
    history self' = history self ++ new ∧ length new = 3%nat ∧
    take 1 (snapshots self' w'') = snapshots self w'.
Proof.
  assert (0 < 2)%nat as HN by lia.
  assert (step_fuel 2 ≤ 100)%nat as Hf by (vm_compute; lia).
  destruct (@init_inv nat counter_random counter_random_spec 2 (Some 0)
              (mkworld [] 0%nat)) as (self & w' & I & Hinv).
  pose proof Hinv as (_ & (a & Ha & _) & _).
  destruct (@history_append_only nat counter_random counter_random_spec
              2 100 HN Hf) as (_ & Hsim).
  destruct (Hsim 3%nat self w' a Hinv Ha)
    as (self' & w'' & new & tr & S & Hh & Hlen & _ & _ & _ & Hs & _).
  exists self, w', self', w'', new.
  split; [exact I|]. split; [exact S|]. split; [exact Hh|].
  split; [exact Hlen|].
  rewrite Hs. rewrite init_spec in I. injection I as <- <-.
  reflexivity.
Defined.


(** C5, as stated, fails: the generator is global to the process, and so
    when two instances with the same seed are both constructed before
    either is simulated, the second simulation continues the stream where
    the first left it. With NumPy's generator, n = 2, seed 3 and one step,
    the two initial grids are [[2,0],[1,3]]; the first instance drops its
    grain at (0,0), the second at (0,1), and the two histories differ. *)
Lemma interleaved_instances_differ :
  ∃ ha hb,
    @interleaved MT19937.state MT19937.numpy_random 100 2 3 1
      (mkworld [] (MT19937.mt19937_seed 0))
    = Ok (ha, hb) ∧
    ha = [Some [[2; 0]; [1; 3]]; Some [[3; 0]; [1; 3]]] ∧
    hb = [Some [[2; 0]; [1; 3]]; Some [[2; 1]; [1; 3]]] ∧
    ha ≠ hb.
Proof.
  eexists _, _. split; [vm_compute; reflexivity|].
  split; [reflexivity|]. split; [reflexivity|]. discriminate.
Qed.

End SandpileResults.

(** ** Counting the sites that differ *)

Section CheckDifference.
Import AbelianSandpile.
Implicit Types (a b : ndarray) (x : pos).

Lemma rect_lookup r c a i :
  rect r c a → (i < r)%nat → ∃ row, a !! i = Some row ∧ length row = c.
Proof.
  intros [Hl Hr] Hi.
  destruct (lookup_lt_is_Some_2 a i) as [row Hrow]; [lia|].
  exists row. split; [done|].
  eapply (Forall_lookup_1 _ _ _ _ Hr Hrow).
Qed.

Lemma rect_ext r c a b :
  rect r c a → rect r c b →
  (∀ x, (x.1 < r)%nat → (x.2 < c)%nat → cell a x = cell b x) → a = b.
Proof.
  intros Ha Hb Hc. apply list_eq; intros i.
  destruct (decide (i < r)%nat) as [Hi|Hi].
  - destruct (rect_lookup r c a i Ha Hi) as (ra & Hra & Hla).
    destruct (rect_lookup r c b i Hb Hi) as (rb & Hrb & Hlb).
    rewrite Hra, Hrb. f_equal. apply list_eq; intros j.
    destruct (decide (j < c)%nat) as [Hj|Hj].
    + specialize (Hc (i, j) Hi Hj). unfold cell in Hc; simpl in Hc.
      rewrite Hra, Hrb in Hc.
      destruct (lookup_lt_is_Some_2 ra j) as [u Hu]; [lia|].
      destruct (lookup_lt_is_Some_2 rb j) as [v Hv]; [lia|].
      rewrite Hu, Hv in *. simpl in Hc. by subst.
    + rewrite !lookup_ge_None_2 by lia. done.
  - destruct Ha as [Ha _], Hb as [Hb _].
    rewrite !lookup_ge_None_2 by lia. done.
Qed.

Lemma elem_of_coords_rc r c x :
  x ∈ coords_rc r c ↔ (x.1 < r)%nat ∧ (x.2 < c)%nat.
Proof.
  unfold coords_rc. rewrite list_elem_of_bind. split.
  - intros (i & Hj & Hi). apply list_elem_of_fmap in Hj as (j & -> & Hj).
    apply elem_of_seq in Hi, Hj. simpl. lia.
  - intros [Hi Hj]. exists x.1. split.
    + apply list_elem_of_fmap. exists x.2. split; [by destruct x|].
      apply elem_of_seq. lia.
    + apply elem_of_seq. lia.
Qed.

Lemma shape_rect r c a :
  rect r c a → shape a = (r, if decide (r = 0%nat) then 0%nat else c).
Proof.
  intros [Hl Hr]. unfold shape. destruct a as [|row a]; simpl in *.
  - subst. done.
  - apply Forall_cons in Hr as [Hrow _]. subst. done.
Qed.

Lemma filter_ext_elem {A} (P Q : A → Prop) `{∀ y, Decision (P y)}
    `{∀ y, Decision (Q y)} (l : list A) :
  (∀ y, y ∈ l → P y ↔ Q y) → filter P l = filter Q l.
Proof.
  induction l as [|y l IH]; intros HPQ; [done|].
  rewrite !filter_cons. rewrite IH by (intros z Hz; apply HPQ; by right).
  destruct (decide (P y)) as [HP|HP], (decide (Q y)) as [HQ|HQ]; try done.
  - destruct HQ. apply HPQ; [left|done].
  - destruct HP. apply HPQ; [left|done].
Qed.

Lemma broadcast_cell_same r c a x :
  rect r c a → (x.1 < r)%nat → (x.2 < c)%nat → broadcast_cell a x = cell a x.
Proof.
  intros Ha H1 H2. unfold broadcast_cell. rewrite (shape_rect r c a Ha).
  rewrite (decide_False (P := r = 0%nat)) by lia. cbn [fst snd].
  destruct x as [i j]; cbn [fst snd] in *.
  repeat case_decide; do 2 f_equal; lia.
Qed.

(** On two arrays of the same shape: the number of positions that hold
    different values. *)
Lemma check_difference_rect r c a b :
  rect r c a → rect r c b →
  check_difference a b
  = Ok (Z.of_nat (length (filter (λ x, cell a x ≠ cell b x) (coords_rc r c)))).
Proof.
  intros Ha Hb. unfold check_difference.
  rewrite (shape_rect r c a Ha), (shape_rect r c b Hb). cbn [fst snd].
  unfold broadcast_dim. rewrite !decide_True by done.
  destruct (decide (r = 0%nat)) as [->|Hr]; [done|].
  do 3 f_equal. apply filter_ext_elem. intros x [H1 H2]%elem_of_coords_rc.
  by rewrite (broadcast_cell_same r c a), (broadcast_cell_same r c b).
Qed.
End CheckDifference.

Module CheckDifferenceResults.
Import AbelianSandpile.

(** C8, as the code has it: [check_difference] has no shape check of its
    own. It fails only when the shapes differ (NumPy's [ValueError], when
    the shapes cannot be broadcast together), and on two arrays of the
    same shape it returns the number of positions whose values differ,
    which is symmetric in the two arrays and zero exactly when they are
    equal element by element. *)
Theorem check_difference_same_shape (a b : ndarray) :
  (∀ e, check_difference a b = Raise e → shape a ≠ shape b) ∧
  (∀ r c, rect r c a → rect r c b →
     check_difference a b
     = Ok (Z.of_nat (length (filter (λ x, cell a x ≠ cell b x)
                                    (coords_rc r c)))) ∧
     check_difference a b = check_difference b a ∧
     (check_difference a b = Ok 0 ↔ a = b)).
Proof.
  split.
  - intros e He Hs. unfold check_difference in He. rewrite Hs in He.
    unfold broadcast_dim in He. rewrite !decide_True in He by done. done.
  - intros r c Ha Hb. rewrite (check_difference_rect r c a b Ha Hb).
    rewrite (check_difference_rect r c b a Hb Ha).
    split; [done|]. split.
    + do 3 f_equal. apply filter_ext_elem. intros x _. split; congruence.
    + split.
      * intros [= Hz]. apply (rect_ext r c); [done..|].
        intros x H1 H2.
        destruct (decide (cell a x = cell b x)) as [|Hne]; [done|].
        assert (x ∈ filter (λ x, cell a x ≠ cell b x) (coords_rc r c)) as Hin.
        { apply list_elem_of_filter. split; [done|].
          by apply elem_of_coords_rc. }
        destruct (filter _ _); [by apply elem_of_nil in Hin|simpl in Hz; lia].
      * intros ->. do 2 f_equal.
        induction (coords_rc r c) as [|x l IH]; [done|].
        rewrite filter_cons. by rewrite decide_False by (intros ?; done).
Qed.

Lemma check_difference_same_shape_witness :
  check_difference [[1; 2]; [3; 5]] [[1; 2]; [3; 4]] = Ok 1 ∧
  check_difference [[1; 2]; [3; 5]] [[1; 2]; [3; 4]]
  = check_difference [[1; 2]; [3; 4]] [[1; 2]; [3; 5]].
Proof.
  assert (rect 2 2 [[1; 2]; [3; 5]]) as Ha.
  { split; [reflexivity|]. repeat constructor. }
  assert (rect 2 2 [[1; 2]; [3; 4]]) as Hb.
  { split; [reflexivity|]. repeat constructor. }
  destruct (proj2 (check_difference_same_shape [[1; 2]; [3; 5]] [[1; 2]; [3; 4]])
              2%nat 2%nat Ha Hb) as (Hcount & Hsym & _).
  split; [|exact Hsym]. rewrite Hcount. vm_compute. reflexivity.
Defined.

(** C8, as stated, fails: a 1 by 1 grid and a 2 by 2 grid differ in
    dimensions, and [check_difference] returns 3, the count over the
    broadcast shape. *)
Lemma check_difference_broadcasts :
  shape [[1]] ≠ shape [[1; 2]; [3; 4]] ∧
  check_difference [[1]] [[1; 2]; [3; 4]] = Ok 3.
Proof. split; [vm_compute; discriminate|vm_compute; reflexivity]. Qed.

End CheckDifferenceResults.

(** ** Percolation: paths, crossings and the recursion limit *)

Section PercolateGraph.
Import PercolationSimulation.
Context (n : nat).
Implicit Types (s g : ndarray) (c : pos) (p : list pos).

Lemma ones_pos s c : inb n c → cell s c = 1 → (0 < ones n s)%nat.
Proof.
  intros Hc Hv. unfold ones.
  assert (c ∈ filter (λ c, cell s c = 1) (coords n)) as Hin.
  { apply list_elem_of_filter. split; [done|]. by apply elem_of_coords. }
  destruct (filter _ _); [by apply not_elem_of_nil in Hin|simpl; lia].
Qed.

(** The loop of [percolate] with as many stack frames as the grid has Open
    cells. *)
Lemma percolate_loop_sharp depth s cols : ∀ g,
  square n s → (ones n s ≤ depth)%nat → flooded n s g →
  Forall (λ j, (j < n)%nat) cols →
  ∃ g', percolate_loop depth n s g cols = Ok g' ∧ flooded n s g'.
Proof.
  intros g Hs Hd. revert g.
  induction cols as [|j cols IH]; intros g Hfl Hcols.
  { by exists g. }
  apply Forall_cons in Hcols as [Hj Hcols].
  assert (inb n (0%nat, j)) as Hc by (split; simpl; lia).
  pose proof Hfl as [[Hsq Hcells] Hnew].
  simpl. unfold percolate_column. rewrite (getitem_ok n) by done. simpl.
  case_decide as Hv; [|simpl; by apply IH].
  rewrite (setitem_ok n) by done. cbn [mbind result_bind].
  destruct (decide (cell g (0%nat, j) = 2)) as [Hg2|Hg2].
  - assert (closed n g (0%nat, j)) as Hcl by (apply Hnew; [done|lia|done]).
    assert (upd g (0%nat, j) 2 = g) as ->.
    { rewrite <- Hg2 at 1. by apply (upd_same n). }
    pose proof (ones_pos s _ Hc Hv) as Hpos.
    destruct depth as [|d]; [lia|].
    pose proof (flow_closed n d g (0%nat, j) Hsq Hc Hcl) as E.
    cbn [fst snd] in E. rewrite E. simpl. by apply IH.
  - assert (cell g (0%nat, j) = 1) as Hg1.
    { destruct (Hcells _ Hc) as [E|[_ E]]; [lia|done]. }
    pose proof (fills_upd n g _ Hsq Hc (or_introl Hg1)) as Hf1.
    destruct (flow_ok n depth (upd g (0%nat, j) 2) (0%nat, j))
      as (g1 & Hrun & [Hf Hnew1] & Hclc & _).
    { by apply square_upd. } { done. } { by apply (cell_upd_eq n). }
    { assert (ones n (upd g (0%nat, j) 2) < ones n g)%nat.
      { apply (ones_lt n g _ (0%nat, j)); try done.
        rewrite (cell_upd_eq n) by done. lia. }
      pose proof (ones_mono n s g (proj1 Hfl)). lia. }
    simpl in Hrun. rewrite Hrun. simpl. apply IH; [|done].
    assert (fills n g g1) as Hgg1 by by eapply fills_trans.
    split; [by eapply fills_trans|]. intros c Hcin Hsc Hv2.
    destruct (decide (c = (0%nat, j))) as [->|Hne]; [done|].
    destruct (decide (cell g c = 2)) as [E|E].
    + eapply closed_mono; [exact Hgg1|]. by apply Hnew.
    + apply Hnew1; [done| |done]. by rewrite cell_upd_ne.
Qed.

Lemma percolate_total_sharp s depth :
  (0 < n)%nat → square n s → (ones n s ≤ depth)%nat →
  ∃ g b, percolate depth (mk n s s) = Ok (mk n s g, b).
Proof.
  intros Hn Hsq Hd.
  destruct (percolate_loop_sharp depth s (seq 0 n) s) as (g & R & [[Hg _] _]);
    try done.
  { by apply flooded_refl. }
  { apply Forall_seq. intros; lia. }
  destruct (last_row_ok n g Hn Hg) as (row & Hrow & _).
  exists g, (bool_decide (2 ∈ row)).
  unfold percolate. simpl. rewrite R. simpl. by rewrite Hrow.
Qed.

Lemma open_path_last s p c : open_path n s p c → inb n c ∧ cell s c = 1.
Proof.
  intros (_ & Hl & _ & Hall). apply last_Some in Hl as [l' ->].
  apply Forall_app in Hall as [_ Hc]. apply Forall_inv in Hc. exact Hc.
Qed.

Lemma reaches_bottom_crossing s g :
  flood_fill_of n s g → reaches_bottom n g ↔ crossing n s.
Proof.
  intros [_ Hff]. split.
  - intros (j & Hj & Hv).
    destruct (decide (n = 0%nat)) as [->|Hn]; [lia|].
    assert (inb n ((n - 1)%nat, j)) as Hc by (split; simpl; lia).
    apply (Hff _ Hc) in Hv as [_ [p Hp]]. by exists p, ((n - 1)%nat, j).
  - intros (p & c & Hp & Hrow).
    destruct (open_path_last s p c Hp) as [Hc Hv].
    exists c.2. split; [apply Hc|].
    rewrite <- Hrow, <- surjective_pairing. apply Hff; [done|]. eauto.
Qed.

(** A completed call of [percolate] on a fresh object over a grid of 0s
    and 1s. *)
Lemma percolate_result s depth self' b :
  (0 < n)%nat → square n s → binary s →
  percolate depth (mk n s s) = Ok (self', b) →
  ∃ g, self' = mk n s g ∧ flood_fill_of n s g ∧ (b = true ↔ crossing n s).
Proof.
  intros Hn Hsq Hbin Hrun.
  destruct (percolate_run n s Hn Hsq depth self' b Hrun)
    as (g & -> & F & So & T & Hb).
  assert (flood_fill_of n s g) as Hff.
  { apply flooded_is_flood_fill; try done.
    - apply So. by apply sound_init.
    - intros j Hj Hv. by apply T. }
  exists g. split; [done|]. split; [done|].
  rewrite Hb. by apply reaches_bottom_crossing.
Qed.

Lemma open_path_mono s s' p c :
  opens_more n s s' → open_path n s p c → open_path n s' p c.
Proof.
  intros Hm (Hh & Hl & Hch & Hall). repeat (split; [done|]).
  eapply Forall_impl; [exact Hall|]. intros x [Hx Hv]. split; [done|].
  by apply Hm.
Qed.

Lemma crossing_mono s s' : opens_more n s s' → crossing n s → crossing n s'.
Proof.
  intros Hm (p & c & Hp & Hc). exists p, c. split; [|done].
  by eapply open_path_mono.
Qed.

Lemma chained_column j k : ∀ a, chained ((λ i, (i, j)) <$> seq a k).
Proof.
  induction k as [|k IH]; intros a; [done|].
  destruct k as [|k]; [done|].
  specialize (IH (S a)). cbn [seq fmap list_fmap] in *.
  split; [|done]. right. simpl. split; [done|]. by left.
Qed.

Lemma open_column_crossing s j :
  (0 < n)%nat → (j < n)%nat → (∀ i, (i < n)%nat → cell s (i, j) = 1) →
  crossing n s.
Proof.
  intros Hn Hj Hcol.
  exists ((λ i, (i, j)) <$> seq 0 n), ((n - 1)%nat, j). split; [|done].
  split; [|split; [|split]].
  - exists j. destruct n; [lia|done].
  - destruct n as [|m]; [lia|]. rewrite seq_S, fmap_app.
    change ((λ i, (i, j)) <$> [(0 + m)%nat]) with [((0 + m)%nat, j)].
    rewrite last_snoc. do 2 f_equal. lia.
  - apply chained_column.
  - apply Forall_fmap, Forall_seq. intros i Hi. simpl.
    split; [split; simpl; lia|]. apply Hcol. lia.
Qed.

Lemma blocked_row_reach s r c :
  (∀ j, (j < n)%nat → cell s (r, j) ≠ 1) → reachable n s c → (c.1 < r)%nat.
Proof.
  intros Hrow. induction 1 as [j Hj Hv|c c' Hr IH Hadj Hc' Hv].
  - simpl. destruct r; [|lia]. by apply Hrow in Hv.
  - assert (c'.1 ≠ r).
    { intros E. apply (Hrow c'.2); [apply Hc'|].
      by rewrite <- E, <- surjective_pairing. }
    unfold adjacent in Hadj. lia.
Qed.

Lemma blocked_row_no_crossing s r :
  (r < n)%nat → (∀ j, (j < n)%nat → cell s (r, j) ≠ 1) → ¬ crossing n s.
Proof.
  intros Hr Hrow (p & c & Hp & Hc).
  assert (reachable n s c) as Hreach by (apply reachable_iff_path; eauto).
  apply (blocked_row_reach s r c Hrow) in Hreach.
  destruct (open_path_last s p c Hp) as [[? ?] _]. lia.
Qed.

End PercolateGraph.

Section Flips.
Import PercolationSimulation.
Context (n : nat).
Implicit Types (s g : ndarray) (c : pos) (p : list pos).

Lemma adjacent_sym c c' : adjacent c c' → adjacent c' c.
Proof. unfold adjacent. intros H. destruct H as [[? ?]|[? ?]]; [left|right]; lia || (split; [lia|tauto]). Qed.

Lemma chained_reverse p : chained p → chained (reverse p).
Proof.
  induction p as [|x p IH]; [done|]. intros Hch.
  rewrite reverse_cons. apply chained_snoc. split.
  - apply IH. destruct p; [done|]. by destruct Hch.
  - intros c0 Hl. rewrite last_reverse in Hl.
    destruct p as [|y p]; [done|]. injection Hl as ->.
    apply adjacent_sym. by destruct Hch.
Qed.

Lemma chained_fmap (f : pos → pos) p :
  (∀ c c', c ∈ p → c' ∈ p → adjacent c c' → adjacent (f c) (f c')) →
  chained p → chained (f <$> p).
Proof.
  induction p as [|x p IH]; [done|]. intros Hf Hch.
  destruct p as [|y p]; [done|]. destruct Hch as [Hxy Hch].
  cbn [fmap list_fmap]. split.
  - apply Hf; [by left|right; by left|done].
  - apply IH; [|done]. intros c c' Hc Hc'. apply Hf; by right.
Qed.

(** *** Upside down *)

Local Abbreviation ud := (flip_row n).

Lemma square_flipud s : square n s → square n (flipud s).
Proof.
  intros [Hl Hr]. unfold flipud.
  split; [by rewrite length_reverse|]. by apply Forall_reverse.
Qed.

Lemma binary_flipud s : binary s → binary (flipud s).
Proof. apply Forall_reverse. Qed.

Lemma cell_flipud s c : square n s → inb n c → cell (flipud s) (ud c) = cell s c.
Proof.
  intros [Hl _] [Hi Hj]. unfold cell, flipud, flip_row. simpl.
  rewrite reverse_lookup by lia. rewrite Hl.
  replace (n - S (n - 1 - c.1))%nat with c.1 by lia. done.
Qed.

Lemma inb_ud c : inb n c → inb n (ud c).
Proof. unfold inb, flip_row. simpl. lia. Qed.

Lemma adjacent_ud c c' : inb n c → inb n c' → adjacent c c' → adjacent (ud c) (ud c').
Proof. unfold inb, adjacent, flip_row. simpl. lia. Qed.

Lemma crossing_flipud s : square n s → crossing n s → crossing n (flipud s).
Proof.
  intros Hsq (p & c & ([j Hh] & Hl & Hch & Hall) & Hc).
  rewrite Forall_forall in Hall.
  exists (reverse (ud <$> p)), (ud (0%nat, j)). split; [|unfold flip_row; simpl; lia].
  split; [|split; [|split]].
  - exists c.2. rewrite head_reverse, fmap_last, Hl. simpl.
    unfold flip_row. do 2 f_equal. lia.
  - rewrite last_reverse. destruct p; [done|]. simpl in *. by injection Hh as ->.
  - apply chained_reverse, chained_fmap; [|done].
    intros x y Hx Hy. apply adjacent_ud; by apply Hall.
  - apply Forall_reverse, Forall_fmap, Forall_forall. intros x Hx. simpl.
    destruct (Hall x Hx) as [Hin Hv]. split; [by apply inb_ud|].
    by rewrite cell_flipud.
Qed.

Lemma flipud_involutive s : flipud (flipud s) = s.
Proof. apply reverse_involutive. Qed.

Lemma crossing_flipud_iff s : square n s → crossing n (flipud s) ↔ crossing n s.
Proof.
  intros Hsq. split; [|by apply crossing_flipud].
  intros H. rewrite <- (flipud_involutive s).
  apply crossing_flipud; [by apply square_flipud|done].
Qed.

(** *** Left to right *)

Local Abbreviation lr := (flip_col n).

Lemma square_fliplr s : square n s → square n (fliplr s).
Proof.
  intros [Hl Hr]. unfold fliplr. split; [by rewrite length_fmap|].
  apply Forall_fmap. eapply Forall_impl; [exact Hr|].
  intros row E. simpl. by rewrite length_reverse.
Qed.

Lemma binary_fliplr s : binary s → binary (fliplr s).
Proof.
  intros Hb. apply Forall_fmap. eapply Forall_impl; [exact Hb|].
  intros row E. simpl. by apply Forall_reverse.
Qed.

Lemma cell_fliplr s c : square n s → inb n c → cell (fliplr s) (lr c) = cell s c.
Proof.
  intros Hsq [Hi Hj]. destruct (square_lookup n s c.1 Hsq Hi) as (row & Hrow & Hlen).
  unfold cell, fliplr, flip_col. simpl. rewrite list_lookup_fmap, Hrow. simpl.
  rewrite reverse_lookup by lia. rewrite Hlen.
  replace (n - S (n - 1 - c.2))%nat with c.2 by lia. done.
Qed.

Lemma inb_lr c : inb n c → inb n (lr c).
Proof. unfold inb, flip_col. simpl. lia. Qed.

Lemma lr_involutive c : inb n c → lr (lr c) = c.
Proof.
  intros [Hi Hj]. unfold flip_col. simpl. destruct c as [i j]. simpl in *.
  f_equal. lia.
Qed.

Lemma adjacent_lr c c' : inb n c → inb n c' → adjacent c c' → adjacent (lr c) (lr c').
Proof. unfold inb, adjacent, flip_col. simpl. lia. Qed.

Lemma fliplr_involutive s : fliplr (fliplr s) = s.
Proof.
  unfold fliplr. rewrite <- list_fmap_compose. rewrite <- (list_fmap_id s) at 2.
  apply list_fmap_ext. intros i row _. simpl. apply reverse_involutive.
Qed.

Lemma open_path_fliplr s p c :
  square n s → open_path n s p c → open_path n (fliplr s) (lr <$> p) (lr c).
Proof.
  intros Hsq ([j Hh] & Hl & Hch & Hall). rewrite Forall_forall in Hall.
  split; [|split; [|split]].
  - exists (n - 1 - j)%nat. destruct p; [done|]. simpl in *. by injection Hh as ->.
  - by rewrite fmap_last, Hl.
  - apply chained_fmap; [|done].
    intros x y Hx Hy. apply adjacent_lr; by apply Hall.
  - apply Forall_fmap, Forall_forall. intros x Hx. simpl.
    destruct (Hall x Hx) as [Hin Hv]. split; [by apply inb_lr|].
    by rewrite cell_fliplr.
Qed.

Lemma crossing_fliplr_iff s : square n s → crossing n (fliplr s) ↔ crossing n s.
Proof.
  intros Hsq.
  assert (∀ s, square n s → crossing n s → crossing n (fliplr s)) as Hone.
  { intros s0 Hs0 (p & c & Hp & Hc). exists (lr <$> p), (lr c).
    split; [by apply open_path_fliplr|done]. }
  split; [|by apply Hone].
  intros H. rewrite <- (fliplr_involutive s).
  apply Hone; [by apply square_fliplr|done].
Qed.

Lemma flood_fill_unique s g1 g2 :
  flood_fill_of n s g1 → flood_fill_of n s g2 → g1 = g2.
Proof.
  intros [Hs1 H1] [Hs2 H2]. apply (ndarray_ext n); try done.
  intros c Hc. destruct (H1 c Hc) as [E1 N1], (H2 c Hc) as [E2 N2].
  destruct (decide (cell g1 c = 2)) as [Hv|Hv].
  - rewrite Hv. symmetry. apply E2. by apply E1.
  - assert (cell g2 c ≠ 2) by (intros Hv'; apply Hv, E1; by apply E2).
    by rewrite N1, N2.
Qed.

Lemma flood_fill_fliplr s g :
  square n s → flood_fill_of n s g → flood_fill_of n (fliplr s) (fliplr g).
Proof.
  intros Hsq [Hg Hff]. split; [by apply square_fliplr|].
  intros c Hc. rewrite <- (lr_involutive c Hc).
  pose proof (inb_lr c Hc) as Hc'.
  rewrite !cell_fliplr by done. destruct (Hff _ Hc') as [E N].
  split; [|done]. rewrite E. apply and_iff_compat_l. split.
  - intros [p Hp]. exists (lr <$> p). by apply open_path_fliplr.
  - intros [p Hp]. exists (lr <$> p).
    apply open_path_fliplr in Hp; [|by apply square_fliplr].
    by rewrite fliplr_involutive, (lr_involutive (lr c)) in Hp.
Qed.
End Flips.

Section PercolateMore.
Import PercolationSimulation.

Lemma percolate_depth_mono depth depth' self r :
  percolate depth self = Ok r → (depth ≤ depth')%nat →
  percolate depth' self = Ok r.
Proof.
  unfold percolate. intros Hrun Hle.
  destruct (percolate_loop depth _ _ _ _) as [g|] eqn:R; [|done].
  by rewrite (percolate_loop_depth_mono _ depth depth' _ _ _ _ R Hle).
Qed.

End PercolateMore.

Module PercolationProperties.
Import PercolationSimulation.

(** X1: on a fresh object over any n by n grid (n at least 1, the values
    need not be 0 and 1), [percolate] completes as soon as the recursion
    limit leaves as many frames for [_flow_recursive] as the grid has
    cells equal to 1, and it returns the same filled grid and the same
    boolean under every such limit. *)
Theorem percolate_completes (n : nat) (s : ndarray) :
  (0 < n)%nat → square n s →
  ∃ g b, ∀ depth, (ones n s ≤ depth)%nat →
    percolate depth (mk n s s) = Ok (mk n s g, b).
Proof.
  intros Hn Hsq.
  destruct (percolate_total_sharp n s (ones n s) Hn Hsq) as (g & b & R); [done|].
  exists g, b. intros depth Hd. by apply (percolate_depth_mono (ones n s)).
Qed.

Lemma percolate_completes_witness :
  ∃ g b, percolate 3 (mk 2 [[1; 0]; [1; 1]] [[1; 0]; [1; 1]])
         = Ok (mk 2 [[1; 0]; [1; 1]] g, b).
Proof.
  destruct (percolate_completes 2 [[1; 0]; [1; 1]]) as (g & b & R).
  - lia.
  - split; [reflexivity|]. repeat constructor.
  - exists g, b. apply R. vm_compute. lia.
Defined.

(** X2: on a fresh object over an n by n grid of 0s and 1s, a completed
    [percolate] returns True exactly when the grid has a path of
    orthogonally adjacent Open cells from the top row to the bottom
    row. *)
Theorem percolate_true_iff_crossing (n : nat) (s : ndarray) (depth : nat)
    (self' : t) (b : bool) :
  (0 < n)%nat → square n s → binary s →
  percolate depth (mk n s s) = Ok (self', b) →
  (b = true ↔ crossing n s).
Proof.
  intros Hn Hsq Hbin Hrun.
  by destruct (percolate_result n s depth self' b Hn Hsq Hbin Hrun)
    as (g & _ & _ & Hb).
Qed.

Lemma percolate_true_iff_crossing_witness :
  true = true ↔ crossing 2 [[1; 0]; [1; 1]].
Proof.
  apply (percolate_true_iff_crossing 2 [[1; 0]; [1; 1]] 5
           (mk 2 [[1; 0]; [1; 1]] [[2; 0]; [2; 2]]) true).
  - lia.
  - split; [reflexivity|]. repeat constructor.
  - unfold binary. repeat (apply Forall_cons_2 || apply Forall_nil_2); auto.
  - vm_compute. reflexivity.
Defined.











End PercolationProperties.

Section Raises.
Import PercolationSimulation.
Context (n : nat).
Implicit Types (s g : ndarray).

Lemma flow_ok_or_recursion depth : ∀ g i j,
  square n g → inb n (i, j) →
  (∃ g', _flow_recursive depth n g i j = Ok g' ∧ square n g') ∨
  _flow_recursive depth n g i j = Raise RecursionError.
Proof.
  induction depth as [|depth IH]; intros g i j Hsq Hc; [by right|].
  assert (∀ (b : bool) g0 i' j', square n g0 → (b = true → inb n (i', j')) →
    (∃ g', (if b then x ← setitem g0 i' j' 2; _flow_recursive depth n x i' j'
            else Ok g0) = Ok g' ∧ square n g') ∨
    (if b then x ← setitem g0 i' j' 2; _flow_recursive depth n x i' j'
     else Ok g0) = Raise RecursionError) as Hbr.
  { intros [|] g0 i' j' H0 Hin; [|left; by exists g0].
    rewrite (setitem_ok n) by auto. cbn [mbind result_bind].
    apply IH; [by apply square_upd|auto]. }
  simpl. rewrite poll_neighbors_ok by done.
  cbn [mbind result_bind mleft mright mup mdown].
  destruct Hc as [Hi Hj]; simpl in Hi, Hj.
  destruct (Hbr (bool_decide (j ≠ 0%nat ∧ cell g (i, (j - 1)%nat) = 1))
              g i (j - 1)%nat Hsq) as [(g1 & R1 & H1)|R1].
  { intros [? _]%bool_decide_eq_true. split; simpl; lia. }
  2: { rewrite R1. by right. }
  rewrite R1. cbn [mbind result_bind].
  destruct (Hbr (bool_decide (j ≠ (n - 1)%nat ∧ cell g (i, (j + 1)%nat) = 1))
              g1 i (j + 1)%nat H1) as [(g2 & R2 & H2)|R2].
  { intros [? _]%bool_decide_eq_true. split; simpl; lia. }
  2: { rewrite R2. by right. }
  rewrite R2. cbn [mbind result_bind].
  destruct (Hbr (bool_decide (i ≠ 0%nat ∧ cell g ((i - 1)%nat, j) = 1))
              g2 (i - 1)%nat j H2) as [(g3 & R3 & H3)|R3].
  { intros [? _]%bool_decide_eq_true. split; simpl; lia. }
  2: { rewrite R3. by right. }
  rewrite R3. cbn [mbind result_bind].
  destruct (Hbr (bool_decide (i ≠ (n - 1)%nat ∧ cell g ((i + 1)%nat, j) = 1))
              g3 (i + 1)%nat j H3) as [(g4 & R4 & H4)|R4].
  { intros [? _]%bool_decide_eq_true. split; simpl; lia. }
  2: { rewrite R4. by right. }
  rewrite R4. cbn [mbind result_bind]. left. by exists g4.
Qed.

Lemma percolate_loop_ok_or_recursion depth s cols : ∀ g,
  square n s → square n g → Forall (λ j, (j < n)%nat) cols →
  (∃ g', percolate_loop depth n s g cols = Ok g' ∧ square n g') ∨
  percolate_loop depth n s g cols = Raise RecursionError.
Proof.
  intros g Hs. revert g.
  induction cols as [|j cols IH]; intros g Hsq Hcols.
  { left. by exists g. }
  apply Forall_cons in Hcols as [Hj Hcols].
  assert (inb n (0%nat, j)) as Hc by (split; simpl; lia).
  cbn [percolate_loop]. unfold percolate_column.
  rewrite (getitem_ok n) by done. cbn [mbind result_bind].
  case_decide as Hv; cbn [mbind result_bind]; [|by apply IH].
  rewrite (setitem_ok n) by done. cbn [mbind result_bind].
  destruct (flow_ok_or_recursion depth (upd g (0%nat, j) 2) 0 j)
    as [(g1 & R1 & H1)|R1]; [by apply square_upd|done| |].
  - rewrite R1. cbn [mbind result_bind]. by apply IH.
  - rewrite R1. by right.
Qed.

Lemma percolate_ok_or_recursion depth s :
  (0 < n)%nat → square n s →
  (∃ g b, percolate depth (mk n s s) = Ok (mk n s g, b)) ∨
  percolate depth (mk n s s) = Raise RecursionError.
Proof.
  intros Hn Hsq. unfold percolate. cbn [PercolationSimulation.n grid grid_filled].
  destruct (percolate_loop_ok_or_recursion depth s (seq 0 n) s)
    as [(g & R & Hg)|R]; try done.
  { apply Forall_seq. intros; lia. }
  - rewrite R. cbn [mbind result_bind].
    destruct (last_row_ok n g Hn Hg) as (row & -> & _). left. by eexists _, _.
  - rewrite R. by right.
Qed.

Lemma percolate_loop_skip depth s cols : ∀ g,
  square n s → Forall (λ j, (j < n)%nat ∧ cell s (0%nat, j) ≠ 1) cols →
  percolate_loop depth n s g cols = Ok g.
Proof.
  intros g Hs. induction cols as [|j cols IH]; intros Hcols; [done|].
  apply Forall_cons in Hcols as [[Hj Hv] Hcols].
  cbn [percolate_loop]. unfold percolate_column.
  rewrite (getitem_ok n) by (done || split; simpl; lia).
  cbn [mbind result_bind]. rewrite decide_False by done. by apply IH.
Qed.

Lemma percolate_no_open_top depth s row :
  (0 < n)%nat → square n s →
  (∀ j, (j < n)%nat → cell s (0%nat, j) ≠ 1) →
  last s = Some row →
  percolate depth (mk n s s) = Ok (mk n s s, bool_decide (2 ∈ row)).
Proof.
  intros Hn Hsq Htop Hrow. unfold percolate.
  cbn [PercolationSimulation.n grid grid_filled].
  rewrite percolate_loop_skip; [|done|].
  - cbn [mbind result_bind]. unfold last_row. by rewrite Hrow.
  - apply Forall_seq. intros j Hj. split; [lia|]. apply Htop. lia.
Qed.

End Raises.

Section Snake.
Import PercolationSimulation.
Context (n : nat).
Implicit Types (s g : ndarray) (c : pos).

Lemma square_all_open : square n (all_open n).
Proof.
  unfold all_open. split; [by rewrite length_replicate|].
  apply Forall_replicate. by rewrite length_replicate.
Qed.

Lemma cell_all_open c : inb n c → cell (all_open n) c = 1.
Proof.
  intros [Hi Hj]. unfold cell, all_open.
  rewrite lookup_replicate_2 by done. by rewrite lookup_replicate_2.
Qed.

Lemma binary_all_open : binary (all_open n).
Proof.
  apply Forall_replicate, Forall_replicate. by right.
Qed.

Lemma filter_all {A} (P : A → Prop) `{∀ x, Decision (P x)} (l : list A) :
  (∀ x, x ∈ l → P x) → filter P l = l.
Proof.
  induction l as [|x l IH]; intros Hall; [done|].
  rewrite filter_cons_True by (apply Hall; by left).
  f_equal. apply IH. intros y Hy. apply Hall. by right.
Qed.

Lemma ones_all_open : ones n (all_open n) = (n * n)%nat.
Proof.
  unfold ones. rewrite filter_all; [apply length_coords|].
  intros c Hc%elem_of_coords. by apply cell_all_open.
Qed.

Lemma square_snake_grid k : square n (snake_grid n k).
Proof.
  unfold snake_grid. split; [by rewrite length_fmap, length_seq|].
  apply Forall_fmap, Forall_seq. intros i Hi. simpl.
  by rewrite length_fmap, length_seq.
Qed.

Lemma cell_snake_grid k c :
  inb n c →
  cell (snake_grid n k) c = if decide (snake_index n c ≤ k)%nat then 2 else 1.
Proof.
  intros [Hi Hj]. destruct c as [i j]. simpl in Hi, Hj.
  unfold cell, snake_grid. cbn [fst snd].
  rewrite list_lookup_fmap, lookup_seq_lt by done. cbn [fmap option_fmap option_map].
  rewrite list_lookup_fmap, lookup_seq_lt by done. done.
Qed.

Lemma snake_index_row c :
  inb n c → (c.1 * n ≤ snake_index n c < c.1 * n + n)%nat.
Proof. intros [Hi Hj]. unfold snake_index. destruct (Nat.even c.1); lia. Qed.

Lemma snake_index_inj c c' :
  inb n c → inb n c' → snake_index n c = snake_index n c' → c = c'.
Proof.
  intros Hc Hc' E.
  pose proof (snake_index_row c Hc). pose proof (snake_index_row c' Hc').
  assert (c.1 = c'.1) as E1 by nia.
  destruct c as [i j], c' as [i' j'], Hc as [? ?], Hc' as [? ?]. simpl in *.
  subst i'. f_equal. unfold snake_index in E. simpl in E.
  destruct (Nat.even i); lia.
Qed.

Lemma snake_grid_start : (0 < n)%nat → upd (all_open n) (0, 0)%nat 2 = snake_grid n 0.
Proof.
  intros Hn. apply (ndarray_ext n).
  { apply square_upd, square_all_open. } { apply square_snake_grid. }
  intros c Hc. rewrite (cell_upd n) by (apply square_all_open || split; simpl; lia).
  rewrite cell_snake_grid by done.
  case_decide as E.
  - subst c. by rewrite decide_True by (vm_compute; lia).
  - rewrite cell_all_open by done. rewrite decide_False; [done|].
    intros Hle. apply E. apply snake_index_inj; [done|split; simpl; lia|].
    unfold snake_index at 2. simpl. lia.
Qed.

Lemma snake_grid_next k c :
  inb n c → snake_index n c = S k →
  upd (snake_grid n k) c 2 = snake_grid n (S k).
Proof.
  intros Hc Hk. apply (ndarray_ext n).
  { apply square_upd, square_snake_grid. } { apply square_snake_grid. }
  intros c' Hc'. rewrite (cell_upd n) by (apply square_snake_grid || done).
  rewrite !cell_snake_grid by done.
  case_decide as E.
  - subst c'. rewrite decide_True by lia. done.
  - assert (snake_index n c' ≠ S k).
    { intros E'. apply E. apply snake_index_inj; [done..|lia]. }
    repeat case_decide; try done; lia.
Qed.

Lemma flow_raise_first depth g i j l r u d e :
  _poll_neighbors n g i j = Ok (mkmov l r u d) →
  (l = true ∧
   (x ← setitem g i (j - 1) 2; _flow_recursive depth n x i (j - 1)) = Raise e) ∨
  (l = false ∧ r = true ∧
   (x ← setitem g i (j + 1) 2; _flow_recursive depth n x i (j + 1)) = Raise e) ∨
  (l = false ∧ r = false ∧ u = true ∧
   (x ← setitem g (i - 1) j 2; _flow_recursive depth n x (i - 1) j) = Raise e) ∨
  (l = false ∧ r = false ∧ u = false ∧ d = true ∧
   (x ← setitem g (i + 1) j 2; _flow_recursive depth n x (i + 1) j) = Raise e) →
  _flow_recursive (S depth) n g i j = Raise e.
Proof.
  intros Hp H. cbn [_flow_recursive]. rewrite Hp.
  cbn [mbind result_bind mleft mright mup mdown].
  destruct H as [(-> & E)|[(-> & -> & E)|[(-> & -> & -> & E)
                |(-> & -> & -> & -> & E)]]];
    cbn [mbind result_bind]; by rewrite E.
Qed.

(** The call at the cell of position [k], when the cells up to [k] are
    Filled, first calls the cell of position [k + 1]: every call adds a
    frame, and the frames run out before the last cell. *)
Lemma snake_flow depth : ∀ c,
  inb n c → (depth + snake_index n c < n * n)%nat →
  _flow_recursive depth n (snake_grid n (snake_index n c)) c.1 c.2
  = Raise RecursionError.
Proof.
  induction depth as [|depth IH]; intros [i j] Hc Hd; [done|].
  pose proof Hc as [Hi Hj]; simpl in Hi, Hj. cbn [fst snd].
  assert (Nat.even (i + 1) = negb (Nat.even i)) as Ev1.
  { by rewrite Nat.add_1_r, Nat.even_succ, <- Nat.negb_even. }
  pose proof (square_snake_grid (snake_index n (i, j))) as Hsq.
  assert (∀ c', inb n c' → snake_index n c' = S (snake_index n (i, j)) →
    (x ← setitem (snake_grid n (snake_index n (i, j))) c'.1 c'.2 2;
     _flow_recursive depth n x c'.1 c'.2) = Raise RecursionError) as Hcall.
  { intros c' Hc' E. rewrite (setitem_ok n) by (done || by destruct c').
    cbn [mbind result_bind]. rewrite <- surjective_pairing.
    rewrite (snake_grid_next _ c') by done. rewrite <- E.
    apply IH; [done|lia]. }
  assert (∀ c', inb n c' → (snake_index n c' ≤ snake_index n (i, j))%nat →
    cell (snake_grid n (snake_index n (i, j))) c' ≠ 1) as Hfilled.
  { intros c' Hc' Hle. rewrite cell_snake_grid by done.
    by rewrite decide_True. }
  assert (∀ c', inb n c' → (snake_index n (i, j) < snake_index n c')%nat →
    cell (snake_grid n (snake_index n (i, j))) c' = 1) as Hopen.
  { intros c' Hc' Hlt. rewrite cell_snake_grid by done.
    rewrite decide_False by lia. done. }
  eapply flow_raise_first; [by apply poll_neighbors_ok|].
  unfold snake_index in Hd. cbn [fst snd] in Hd.
  destruct (Nat.even i) eqn:Ev.
  - destruct (decide (j = (n - 1)%nat)) as [Hjn|Hjn].
    + assert (i + 1 < n)%nat by nia.
      do 3 right. split; [|split; [|split; [|split]]].
      * apply bool_decide_eq_false_2. intros [Hj0 Hv].
        eapply Hfilled; [| |exact Hv]; [split; simpl; lia|].
        unfold snake_index. cbn [fst snd]. rewrite Ev. lia.
      * apply bool_decide_eq_false_2. intros [? _]. lia.
      * apply bool_decide_eq_false_2. intros [Hi0 Hv].
        eapply Hfilled; [| |exact Hv]; [split; simpl; lia|].
        unfold snake_index. cbn [fst snd]. rewrite Ev.
        destruct (Nat.even (i - 1)); nia.
      * apply bool_decide_eq_true_2. split; [lia|].
        apply Hopen; [split; simpl; lia|].
        unfold snake_index. cbn [fst snd]. rewrite Ev1, Ev. cbn [negb]. nia.
      * apply (Hcall ((i + 1)%nat, j)); [split; simpl; lia|].
        unfold snake_index. cbn [fst snd]. rewrite Ev1, Ev. cbn [negb]. nia.
    + right. left. split; [|split].
      * apply bool_decide_eq_false_2. intros [Hj0 Hv].
        eapply Hfilled; [| |exact Hv]; [split; simpl; lia|].
        unfold snake_index. cbn [fst snd]. rewrite Ev. lia.
      * apply bool_decide_eq_true_2. split; [lia|].
        apply Hopen; [split; simpl; lia|].
        unfold snake_index. cbn [fst snd]. rewrite Ev. lia.
      * apply (Hcall (i, (j + 1)%nat)); [split; simpl; lia|].
        unfold snake_index. cbn [fst snd]. rewrite Ev. lia.
  - destruct (decide (j = 0%nat)) as [Hj0|Hj0].
    + assert (i + 1 < n)%nat by nia.
      do 3 right. split; [|split; [|split; [|split]]].
      * apply bool_decide_eq_false_2. intros [? _]. lia.
      * apply bool_decide_eq_false_2. intros [Hjn Hv].
        eapply Hfilled; [| |exact Hv]; [split; simpl; lia|].
        unfold snake_index. cbn [fst snd]. rewrite Ev. lia.
      * apply bool_decide_eq_false_2. intros [Hi0 Hv].
        eapply Hfilled; [| |exact Hv]; [split; simpl; lia|].
        unfold snake_index. cbn [fst snd]. rewrite Ev.
        destruct (Nat.even (i - 1)); nia.
      * apply bool_decide_eq_true_2. split; [lia|].
        apply Hopen; [split; simpl; lia|].
        unfold snake_index. cbn [fst snd]. rewrite Ev1, Ev. cbn [negb]. nia.
      * apply (Hcall ((i + 1)%nat, j)); [split; simpl; lia|].
        unfold snake_index. cbn [fst snd]. rewrite Ev1, Ev. cbn [negb]. nia.
    + left. split.
      * apply bool_decide_eq_true_2. split; [lia|].
        apply Hopen; [split; simpl; lia|].
        unfold snake_index. cbn [fst snd]. rewrite Ev. lia.
      * apply (Hcall (i, (j - 1)%nat)); [split; simpl; lia|].
        unfold snake_index. cbn [fst snd]. rewrite Ev. lia.
Qed.

End Snake.

Section AllOpen.
Import PercolationSimulation.
Context (n : nat).

Lemma all_open_path i j :
  (i < n)%nat → (j < n)%nat →
  open_path n (all_open n) ((λ i', (i', j)) <$> seq 0 (S i)) (i, j).
Proof.
  intros Hi Hj. split; [|split; [|split]].
  - by exists j.
  - rewrite seq_S, fmap_app.
    change ((λ i', (i', j)) <$> [(0 + i)%nat]) with [((0 + i)%nat, j)].
    by rewrite last_snoc.
  - apply chained_column.
  - apply Forall_fmap, Forall_seq. intros i' Hi'. simpl.
    assert (inb n (i', j)) as Hc by (split; simpl; lia).
    split; [done|]. by apply cell_all_open.
Qed.

Lemma percolate_all_open_raises depth :
  (0 < n)%nat → (depth < n * n)%nat →
  percolate depth (mk n (all_open n) (all_open n)) = Raise RecursionError.
Proof.
  intros Hn Hd. unfold percolate. cbn [PercolationSimulation.n grid grid_filled].
  destruct n as [|m] eqn:En; [lia|]. rewrite <- En in *.
  assert (seq 0 n = 0%nat :: seq 1 m) as -> by by rewrite En.
  assert (inb n (0, 0)%nat) as Hc by (split; simpl; lia).
  cbn [percolate_loop]. unfold percolate_column.
  rewrite (getitem_ok n) by (done || apply square_all_open).
  rewrite cell_all_open by done. cbn [mbind result_bind].
  rewrite decide_True by done.
  rewrite (setitem_ok n) by (done || apply square_all_open).
  cbn [mbind result_bind]. rewrite snake_grid_start by done.
  pose proof (snake_flow n depth (0, 0)%nat Hc) as E.
  assert (snake_index n (0, 0)%nat = 0%nat) as E0 by done.
  rewrite E0 in E. cbn [fst snd] in E. rewrite E by lia. done.
Qed.

Lemma percolate_all_open_fills depth :
  (0 < n)%nat → (n * n ≤ depth)%nat →
  percolate depth (mk n (all_open n) (all_open n))
  = Ok (mk n (all_open n) (replicate n (replicate n 2)), true).
Proof.
  intros Hn Hd.
  pose proof (square_all_open n) as Hsq. pose proof (binary_all_open n) as Hbin.
  destruct (percolate_total_sharp n (all_open n) depth Hn Hsq) as (g & b & R).
  { by rewrite ones_all_open. }
  destruct (percolate_result n _ depth _ b Hn Hsq Hbin R)
    as (g' & [= <-] & [Hg Hff] & Hb).
  rewrite R. f_equal. f_equal.
  - f_equal. apply (ndarray_ext n); [done| |].
    { split; [by rewrite length_replicate|].
      apply Forall_replicate. by rewrite length_replicate. }
    intros c Hc. transitivity 2.
    + apply (Hff c Hc). split; [by apply cell_all_open|].
      destruct c as [i j], Hc as [Hi Hj]. eexists. by apply all_open_path.
    + destruct Hc as [Hi Hj]. unfold cell.
      rewrite lookup_replicate_2 by done. by rewrite lookup_replicate_2.
  - apply Hb. apply (open_column_crossing n _ 0); [done..|].
    intros i Hi. apply cell_all_open. split; simpl; lia.
Qed.

End AllOpen.

Module PercolationLimits.
Import PercolationSimulation.

(** X8: on a fresh object over any n by n grid (n at least 1),
    [percolate] never raises IndexError: it completes, or it raises
    RecursionError, and the latter only when the recursion limit leaves
    fewer frames than the grid has cells equal to 1. *)
Theorem percolate_raises_recursion_error_only (n : nat) (s : ndarray)
    (depth : nat) (e : exn) :
  (0 < n)%nat → square n s →
  percolate depth (mk n s s) = Raise e →
  e = RecursionError ∧ (depth < ones n s)%nat.
Proof.
  intros Hn Hsq Hrun. split.
  - destruct (percolate_ok_or_recursion n depth s Hn Hsq) as [(g & b & R)|R];
      congruence.
  - destruct (decide (depth < ones n s)%nat) as [|Hge]; [done|].
    destruct (percolate_total_sharp n s depth Hn Hsq) as (g & b & R); [lia|].
    congruence.
Qed.

Lemma percolate_raises_recursion_error_only_witness :
  RecursionError = RecursionError ∧ Nat.lt 2 (ones 2 [[1; 0]; [1; 1]]).
Proof.
  apply (percolate_raises_recursion_error_only 2 [[1; 0]; [1; 1]] 2).
  - lia.
  - split; [reflexivity|]. repeat constructor.
  - vm_compute. reflexivity.
Defined.

(** X9: when no cell of the top row is 1, [percolate] pours no water: on a
    fresh object it leaves the filled grid as it is, under any recursion
    limit, and returns whether the last row of the supplied grid holds a
    2. Through the constructor, the accepted grid [[0,2],[2,0]] makes
    [percolate] return True although it has no Open site. *)
Theorem percolate_without_open_top (n : nat) (s : ndarray) (depth : nat)
    (row : list Z) :
  (0 < n)%nat → square n s →
  (∀ j, (j < n)%nat → cell s (0%nat, j) ≠ 1) →
  last s = Some row →
  percolate depth (mk n s s) = Ok (mk n s s, bool_decide (2 ∈ row)).
Proof. apply percolate_no_open_top. Qed.

Lemma percolate_without_open_top_witness :
  (self ← __init__ [[0; 2]; [2; 0]]; percolate 0 self)
  = Ok (mk 2 [[0; 2]; [2; 0]] [[0; 2]; [2; 0]], true).
Proof.
  change (percolate 0 (mk 2 [[0; 2]; [2; 0]] [[0; 2]; [2; 0]])
          = Ok (mk 2 [[0; 2]; [2; 0]] [[0; 2]; [2; 0]],
                bool_decide (2 ∈ [2; 0]))).
  apply (percolate_without_open_top 2 [[0; 2]; [2; 0]] 0 [2; 0]).
  - lia.
  - split; [reflexivity|]. repeat constructor.
  - intros [|[|j]] Hj; [vm_compute; congruence..|lia].
  - reflexivity.
Defined.

(** X10: the recursion of [_flow_recursive] can be as deep as the grid has
    cells. On the n by n grid whose sites are all Open, [percolate] raises
    RecursionError whenever the recursion limit leaves fewer than n*n
    frames for [_flow_recursive], and with n*n frames or more it fills
    every cell and returns True. *)
Theorem all_open_needs_n_squared_frames (n depth : nat) :
  (0 < n)%nat →
  ((depth < n * n)%nat →
   percolate depth (mk n (all_open n) (all_open n)) = Raise RecursionError) ∧
  ((n * n ≤ depth)%nat →
   percolate depth (mk n (all_open n) (all_open n))
   = Ok (mk n (all_open n) (replicate n (replicate n 2)), true)).
Proof.
  intros Hn. split.
  - by apply percolate_all_open_raises.
  - by apply percolate_all_open_fills.
Qed.

Lemma all_open_needs_n_squared_frames_witness :
  percolate 8 (mk 3 (all_open 3) (all_open 3)) = Raise RecursionError ∧
  percolate 9 (mk 3 (all_open 3) (all_open 3))
  = Ok (mk 3 (all_open 3) (replicate 3 (replicate 3 2)), true).
Proof.
  split.
  - apply (all_open_needs_n_squared_frames 3 8); [lia|simpl; lia].
  - apply (all_open_needs_n_squared_frames 3 9); [lia|simpl; lia].
Defined.

End PercolationLimits.

(** ** Percolation: the constructor *)

Section ConstructorFacts.
Import PercolationConstructor.
Context {rng : Type} `{NumpyRandomSample rng}.
Context (n : nat) (p : Q).
Implicit Types (g : ndarray) (r : rng) (c : pos).

Lemma np_random_draws_S k r :
  np_random_draws (S k) r
  = ((np_random_random r).1 :: (np_random_draws k (np_random_random r).2).1,
     (np_random_draws k (np_random_random r).2).2).
Proof.
  simpl. destruct (np_random_random r) as [u r1]. simpl.
  by destruct (np_random_draws k r1).
Qed.

Lemma np_random_draws_add k1 k2 : ∀ r,
  np_random_draws (k1 + k2) r
  = ((np_random_draws k1 r).1 ++ (np_random_draws k2 (np_random_draws k1 r).2).1,
     (np_random_draws k2 (np_random_draws k1 r).2).2).
Proof.
  induction k1 as [|k1 IH]; intros r.
  - simpl. by destruct (np_random_draws k2 r).
  - rewrite Nat.add_succ_l, !np_random_draws_S, IH. done.
Qed.

Lemma length_np_random_draws k : ∀ r, length (np_random_draws k r).1 = k.
Proof.
  induction k as [|k IH]; intros r; [done|].
  rewrite np_random_draws_S. simpl. by rewrite IH.
Qed.

Lemma square_np_zeros : square n (np_zeros n).
Proof.
  unfold np_zeros. split; [by rewrite length_replicate|].
  apply Forall_replicate. by rewrite length_replicate.
Qed.

Lemma cell_np_zeros c : cell (np_zeros n) c = 0.
Proof.
  unfold cell, np_zeros.
  destruct (replicate n (replicate n 0) !! c.1) as [row|] eqn:E; [|done].
  apply lookup_replicate_1 in E as [-> _].
  destruct (replicate n 0 !! c.2) as [v|] eqn:E; [|done].
  by apply lookup_replicate_1 in E as [-> _].
Qed.

Lemma binary_of_cells g :
  square n g → (∀ c, inb n c → cell g c = 0 ∨ cell g c = 1) → binary g.
Proof.
  intros [Hl Hrows] Hc. apply Forall_lookup_2. intros i row Hi.
  apply Forall_lookup_2. intros j v Hj.
  assert (inb n (i, j)) as Hin.
  { split; simpl.
    - apply lookup_lt_Some in Hi. lia.
    - rewrite Forall_forall in Hrows.
      rewrite <- (Hrows row) by by eapply list_elem_of_lookup_2.
      by apply lookup_lt_Some in Hj. }
  specialize (Hc _ Hin). unfold cell in Hc. simpl in Hc.
  by rewrite Hi, Hj in Hc.
Qed.

Lemma initialize_row_spec rind : ∀ k a g r,
  square n g → (rind < n)%nat → (a + k ≤ n)%nat →
  ∃ g',
    initialize_row p g rind (seq a k) r = Ok (g', (np_random_draws k r).2) ∧
    square n g' ∧
    (∀ c, inb n c → ¬ (c.1 = rind ∧ a ≤ c.2 < a + k)%nat →
          cell g' c = cell g c) ∧
    (∀ t, (t < k)%nat →
       ∃ u, (np_random_draws k r).1 !! t = Some u ∧
            cell g' (rind, (a + t)%nat)
            = if Qlt_le_dec p u then 1 else cell g (rind, (a + t)%nat)).
Proof.
  induction k as [|k IH]; intros a g r Hsq Hr Hk.
  { exists g. split; [done|]. split; [done|]. split; [done|]. intros; lia. }
  cbn [seq initialize_row]. rewrite np_random_draws_S.
  destruct (np_random_random r) as [u r1] eqn:E. cbn [fst snd].
  assert (inb n (rind, a)) as Hc by (split; simpl; lia).
  set (g1 := if Qlt_le_dec p u then upd g (rind, a) 1 else g).
  assert ((if Qlt_le_dec p u then setitem g rind a 1 else Ok g) = Ok g1) as ->.
  { unfold g1. destruct (Qlt_le_dec p u); [|done]. by apply (setitem_ok n). }
  assert (square n g1) as Hsq1.
  { unfold g1. destruct (Qlt_le_dec p u); [|done]. by apply square_upd. }
  assert (∀ c, c ≠ (rind, a) → cell g1 c = cell g c) as Hne.
  { intros c Hcne. unfold g1. destruct (Qlt_le_dec p u); [|done].
    by rewrite cell_upd_ne. }
  assert (cell g1 (rind, a) = if Qlt_le_dec p u then 1 else cell g (rind, a))
    as Heq.
  { unfold g1. destruct (Qlt_le_dec p u); [|done]. by apply (cell_upd_eq n). }
  cbn [mbind result_bind].
  destruct (IH (S a) g1 r1 Hsq1 Hr) as (g' & R & Hsq' & Hout & Hin); [lia|].
  exists g'. split; [done|]. split; [done|]. split.
  - intros c Hcin Hnot. rewrite Hout by (done || lia). apply Hne.
    intros ->. simpl in Hnot. lia.
  - intros [|t] Ht.
    + exists u. split; [done|]. rewrite Nat.add_0_r.
      rewrite Hout by (done || simpl; lia). done.
    + destruct (Hin t) as (u' & Hu' & Hv); [lia|].
      exists u'. split; [done|].
      replace (a + S t)%nat with (S a + t)%nat by lia. rewrite Hv.
      rewrite Hne; [done|]. intros [=]. lia.
Qed.

Lemma initialize_rows_spec : ∀ m a g r,
  square n g → (a + m ≤ n)%nat →
  ∃ g',
    initialize_rows n p g (seq a m) r
    = Ok (g', (np_random_draws (m * n) r).2) ∧
    square n g' ∧
    (∀ c, inb n c → ¬ (a ≤ c.1 < a + m)%nat → cell g' c = cell g c) ∧
    (∀ s t, (s < m)%nat → (t < n)%nat →
       ∃ u, (np_random_draws (m * n) r).1 !! (s * n + t)%nat = Some u ∧
            cell g' ((a + s)%nat, t)
            = if Qlt_le_dec p u then 1 else cell g ((a + s)%nat, t)).
Proof.
  induction m as [|m IH]; intros a g r Hsq Hm.
  { exists g. split; [done|]. split; [done|]. split; [done|]. intros; lia. }
  cbn [seq initialize_rows].
  destruct (initialize_row_spec a n 0 g r Hsq) as (g1 & R1 & Hsq1 & Hout1 & Hin1);
    [lia..|].
  rewrite R1. cbn [mbind result_bind].
  destruct (IH (S a) g1 (np_random_draws n r).2 Hsq1)
    as (g' & R & Hsq' & Hout & Hin); [lia|].
  rewrite R. replace (S m * n)%nat with (n + m * n)%nat by lia.
  rewrite np_random_draws_add. cbn [fst snd].
  exists g'. split; [done|]. split; [done|]. split.
  - intros c Hcin Hnot. rewrite Hout by (done || lia). apply Hout1; [done|lia].
  - intros [|s] t Hs Ht.
    + destruct (Hin1 t Ht) as (u & Hu & Hv). exists u. split.
      * rewrite lookup_app_l by (rewrite length_np_random_draws; lia). done.
      * rewrite Nat.add_0_r.
        rewrite Hout; [done|split; simpl; lia|simpl; lia].
    + destruct (Hin s t) as (u & Hu & Hv); [lia..|]. exists u. split.
      * rewrite lookup_app_r by (rewrite length_np_random_draws; lia).
        rewrite length_np_random_draws.
        replace (S s * n + t - n)%nat with (s * n + t)%nat by lia. done.
      * replace (a + S s)%nat with (S a + s)%nat by lia. rewrite Hv.
        rewrite Hout1; [done|split; simpl; lia|simpl; lia].
Qed.

(** The constructor without a supplied grid. *)
Lemma init_random_spec (random_state : option Z) r :
  ∃ g,
    PercolationConstructor.__init__ n p None random_state r
    = Ok (PercolationSimulation.mk n g g,
          (np_random_draws (n * n)
             (AbelianSandpile.np_random_seed random_state r)).2) ∧
    square n g ∧ binary g ∧
    ∀ i j, (i < n)%nat → (j < n)%nat →
      ∃ u, (np_random_draws (n * n)
              (AbelianSandpile.np_random_seed random_state r)).1
           !! (i * n + j)%nat = Some u ∧
           cell g (i, j) = if Qlt_le_dec p u then 1 else 0.
Proof.
  unfold PercolationConstructor.__init__, _initialize_grid.
  destruct (initialize_rows_spec n 0 (np_zeros n)
              (AbelianSandpile.np_random_seed random_state r))
    as (g & R & Hsq & _ & Hin); [apply square_np_zeros|lia|].
  exists g. rewrite R. cbn [mbind result_bind]. split; [done|]. split; [done|].
  assert (∀ i j, (i < n)%nat → (j < n)%nat →
      ∃ u, (np_random_draws (n * n)
              (AbelianSandpile.np_random_seed random_state r)).1
           !! (i * n + j)%nat = Some u ∧
           cell g (i, j) = if Qlt_le_dec p u then 1 else 0) as Hcells.
  { intros i j Hi Hj. destruct (Hin i j Hi Hj) as (u & Hu & Hv).
    exists u. split; [done|]. rewrite Nat.add_0_l in Hv.
    by rewrite cell_np_zeros in Hv. }
  split; [|done]. apply binary_of_cells; [done|].
  intros [i j] [Hi Hj]. destruct (Hcells i j Hi Hj) as (u & _ & ->).
  destruct (Qlt_le_dec p u); auto.
Qed.

End ConstructorFacts.

Section ConstructorContract.
Import PercolationConstructor.
Context {rng : Type} `{NumpyRandomSampleSpec rng}.

Lemma np_random_draws_unit k : ∀ (r : rng) t u,
  (np_random_draws k r).1 !! t = Some u → (0 <= u)%Q ∧ (u < 1)%Q.
Proof.
  induction k as [|k IH]; intros r t u; [done|].
  rewrite np_random_draws_S. cbn [fst snd]. destruct t as [|t].
  - intros [= <-]. apply random_unit.
  - apply IH.
Qed.

Lemma init_blocked (n : nat) (p : Q) (random_state : option Z) (r : rng) :
  (1 <= p)%Q →
  ∃ r', PercolationConstructor.__init__ n p None random_state r
        = Ok (PercolationSimulation.mk n (np_zeros n) (np_zeros n), r').
Proof.
  intros Hp.
  destruct (init_random_spec n p random_state r) as (g & R & Hsq & _ & Hc).
  assert (g = np_zeros n) as ->; [|by eexists].
  apply (ndarray_ext n); [done|apply square_np_zeros|].
  intros [i j] [Hi Hj]. rewrite cell_np_zeros.
  destruct (Hc i j Hi Hj) as (u & Hu & ->).
  apply np_random_draws_unit in Hu as [_ Hu].
  destruct (Qlt_le_dec p u) as [Hlt|]; [|done].
  exfalso. apply (Qlt_irrefl u). eapply Qlt_trans; [exact Hu|].
  eapply Qle_lt_trans; [exact Hp|exact Hlt].
Qed.

Lemma init_open (n : nat) (p : Q) (random_state : option Z) (r : rng) :
  (p < 0)%Q →
  ∃ r', PercolationConstructor.__init__ n p None random_state r
        = Ok (PercolationSimulation.mk n (all_open n) (all_open n), r').
Proof.
  intros Hp.
  destruct (init_random_spec n p random_state r) as (g & R & Hsq & _ & Hc).
  assert (g = all_open n) as ->; [|by eexists].
  apply (ndarray_ext n); [done|apply square_all_open|].
  intros [i j] [Hi Hj]. rewrite cell_all_open by done.
  destruct (Hc i j Hi Hj) as (u & Hu & ->).
  apply np_random_draws_unit in Hu as [Hu _].
  destruct (Qlt_le_dec p u) as [|Hle]; [done|].
  exfalso. apply (Qlt_irrefl p). eapply Qlt_le_trans; [exact Hp|].
  eapply Qle_trans; [exact Hu|exact Hle].
Qed.

End ConstructorContract.

Lemma counter_sample_spec : @NumpyRandomSampleSpec nat counter_random counter_sample.
Proof.
  split.
  - intros r. simpl. unfold Qle, Qlt. simpl.
    pose proof (Nat.mod_upper_bound r 10). lia.
  - done.
Qed.

Module PercolationConstructorProperties.
Import PercolationSimulation.

(** X11: without a supplied grid the constructor seeds the generator, then
    draws n*n floats, row by row, and opens the site of a draw that is
    greater than [p]: the lattice is n by n, holds 0s and 1s only, the cell
    of row i and column j is Open exactly when draw number i*n+j is greater
    than [p], [grid_filled] starts as a copy of [grid], and the generator
    is left after the n*n draws. *)
Theorem random_grid_spec {rng : Type} `{PercolationConstructor.NumpyRandomSample rng}
    (n : nat) (p : Q) (random_state : option Z) (r : rng) :
  ∃ g,
    PercolationConstructor.__init__ n p None random_state r
    = Ok (mk n g g,
          (PercolationConstructor.np_random_draws (n * n)
             (AbelianSandpile.np_random_seed random_state r)).2) ∧
    square n g ∧ binary g ∧
    ∀ i j, (i < n)%nat → (j < n)%nat →
      ∃ u, (PercolationConstructor.np_random_draws (n * n)
              (AbelianSandpile.np_random_seed random_state r)).1
           !! (i * n + j)%nat = Some u ∧
           (cell g (i, j) = 1 ↔ (p < u)%Q) ∧
           (cell g (i, j) = 0 ↔ (u <= p)%Q).
Proof.
  destruct (init_random_spec n p random_state r) as (g & R & Hsq & Hbin & Hc).
  exists g. repeat (split; [done|]). intros i j Hi Hj.
  destruct (Hc i j Hi Hj) as (u & Hu & ->). exists u. split; [done|].
  destruct (Qlt_le_dec p u) as [Hlt|Hle]; split; split; try done.
  - intros Hle. exfalso. apply (Qlt_irrefl p). by eapply Qlt_le_trans.
  - intros Hlt. exfalso. apply (Qlt_irrefl p). by eapply Qlt_le_trans.
Qed.

(** X12: with [p] at least 1 every site of the random lattice is Blocked,
    whatever the seed, and [percolate] returns False under any recursion
    limit without changing the filled grid. *)
Theorem random_grid_all_blocked {rng : Type} `{NumpyRandomSampleSpec rng}
    (n : nat) (p : Q) (random_state : option Z) (r : rng) (depth : nat) :
  (0 < n)%nat → (1 <= p)%Q →
  ∃ self r',
    PercolationConstructor.__init__ n p None random_state r = Ok (self, r') ∧
    grid self = PercolationConstructor.np_zeros n ∧
    percolate depth self = Ok (self, false).
Proof.
  intros Hn Hp. destruct (init_blocked n p random_state r Hp) as (r' & R).
  eexists _, r'. split; [exact R|]. split; [done|].
  rewrite (percolate_no_open_top n depth _ (replicate n 0)); try done.
  - do 2 f_equal. apply bool_decide_eq_false_2.
    intros [? _]%elem_of_replicate. done.
  - apply square_np_zeros.
  - intros j Hj. by rewrite cell_np_zeros.
  - unfold PercolationConstructor.np_zeros. destruct n as [|m]; [lia|].
    by rewrite replicate_S_end, last_snoc.
Qed.

Lemma random_grid_all_blocked_witness :
  ∃ self r',
    @PercolationConstructor.__init__ nat counter_random counter_sample
      2 1%Q None (Some 0) 7%nat = Ok (self, r') ∧
    grid self = PercolationConstructor.np_zeros 2 ∧
    percolate 0 self = Ok (self, false).
Proof.
  apply (@random_grid_all_blocked nat counter_random counter_sample
           counter_sample_spec 2 1%Q (Some 0) 7%nat 0%nat).
  - lia.
  - vm_compute. discriminate.
Defined.

(** X13: with a negative [p] every site of the random lattice is Open,
    whatever the seed: [percolate] raises RecursionError when the
    recursion limit leaves fewer than n*n frames for [_flow_recursive],
    and fills every cell and returns True otherwise. *)
Theorem random_grid_all_open {rng : Type} `{NumpyRandomSampleSpec rng}
    (n : nat) (p : Q) (random_state : option Z) (r : rng) (depth : nat) :
  (0 < n)%nat → (p < 0)%Q →
  ∃ self r',
    PercolationConstructor.__init__ n p None random_state r = Ok (self, r') ∧
    grid self = all_open n ∧
    ((depth < n * n)%nat → percolate depth self = Raise RecursionError) ∧
    ((n * n ≤ depth)%nat →
     percolate depth self
     = Ok (mk n (all_open n) (replicate n (replicate n 2)), true)).
Proof.
  intros Hn Hp. destruct (init_open n p random_state r Hp) as (r' & R).
  eexists _, r'. split; [exact R|]. split; [done|]. split.
  - by apply percolate_all_open_raises.
  - by apply percolate_all_open_fills.
Qed.

Lemma random_grid_all_open_witness :
  ∃ self r',
    @PercolationConstructor.__init__ nat counter_random counter_sample
      2 (-1)%Q None (Some 0) 7%nat = Ok (self, r') ∧
    grid self = all_open 2 ∧
    percolate 3 self = Raise RecursionError ∧
    percolate 4 self = Ok (mk 2 (all_open 2) [[2; 2]; [2; 2]], true).
Proof.
  destruct (@random_grid_all_open nat counter_random counter_sample
              counter_sample_spec 2 (-1)%Q (Some 0) 7%nat 3%nat)
    as (self & r' & R & Hg & Hlt & _).
  - lia.
  - vm_compute. reflexivity.
  - exists self, r'. split; [exact R|]. split; [exact Hg|]. split.
    + apply Hlt. simpl. lia.
    + destruct (@random_grid_all_open nat counter_random counter_sample
                  counter_sample_spec 2 (-1)%Q (Some 0) 7%nat 4%nat)
        as (self' & r'' & R' & _ & _ & Hge); [lia|vm_compute; reflexivity|].
      rewrite R in R'. injection R' as <- <-. apply Hge. simpl. lia.
Defined.

(** X14: the constructor reseeds NumPy's global generator, with or without
    a supplied grid. With a seed that is not None, the object it builds
    (the random lattice too) and the state it leaves the generator in do
    not depend on the state of the generator before the call. *)
Theorem constructor_reseeds {rng : Type} `{NumpyRandomSampleSpec rng}
    (n : nat) (p : Q) (grid : option ndarray) (seed : Z) (r1 r2 : rng) :
  PercolationConstructor.__init__ n p grid (Some seed) r1
  = PercolationConstructor.__init__ n p grid (Some seed) r2 ∧
  ∀ g self r',
    PercolationConstructor.__init__ n p (Some g) (Some seed) r1
    = Ok (self, r') →
    r' = AbelianSandpile.np_random_seed (Some seed) r2 ∧
    PercolationSimulation.__init__ g = Ok self.
Proof.
  split.
  - unfold PercolationConstructor.__init__.
    by rewrite (sample_seed_resets seed r1 r2).
  - intros g self r'. unfold PercolationConstructor.__init__.
    rewrite (sample_seed_resets seed r1 r2).
    destruct (PercolationSimulation.__init__ g) as [self0|]; [|done].
    cbn [mbind result_bind]. by intros [= <- <-].
Qed.

Lemma constructor_reseeds_witness :
  @PercolationConstructor.__init__ nat counter_random counter_sample
    3 (1 # 2)%Q None (Some 4) 0%nat
  = @PercolationConstructor.__init__ nat counter_random counter_sample
      3 (1 # 2)%Q None (Some 4) 9%nat.
Proof.
  apply (@constructor_reseeds nat counter_random counter_sample
           counter_sample_spec 3 (1 # 2)%Q None 4 0%nat 9%nat).
Defined.

(** X15: an empty lattice is accepted and cannot be percolated. The
    constructor succeeds with n = 0 and with the supplied grid [], and
    [percolate] then raises IndexError (the last row of an array without
    rows), under any recursion limit. *)
Theorem percolate_empty_grid_raises {rng : Type}
    `{PercolationConstructor.NumpyRandomSample rng}
    (n : nat) (p : Q) (random_state : option Z) (r : rng) (depth : nat) :
  (∃ self r',
     PercolationConstructor.__init__ 0 p None random_state r = Ok (self, r') ∧
     percolate depth self = Raise IndexError) ∧
  (∃ self r',
     PercolationConstructor.__init__ n p (Some []) random_state r
     = Ok (self, r') ∧
     percolate depth self = Raise IndexError).
Proof. split; by eexists _, _. Qed.

End PercolationConstructorProperties.

(** ** Percolation: grids that are not square *)

Section NonSquare.
Import PercolationSimulation.
Context (n : nat).
Implicit Types (s g : ndarray).

Lemma bind_raise {A B} (m : result A) (k : A → result B) e :
  m ≫= k = Raise e → m = Raise e ∨ ∃ a, m = Ok a ∧ k a = Raise e.
Proof.
  intros Hm. destruct m as [a|e']; cbn [mbind result_bind] in Hm.
  - right. by exists a.
  - left. by injection Hm as ->.
Qed.

Lemma getitem_raise g i j e : getitem g i j = Raise e → e = IndexError.
Proof.
  unfold getitem. destruct (g !! i) as [row|]; [|congruence].
  destruct (row !! j); congruence.
Qed.

Lemma setitem_raise g i j v e : setitem g i j v = Raise e → e = IndexError.
Proof.
  unfold setitem. destruct (g !! i) as [row|]; [|congruence].
  case_decide; congruence.
Qed.

Lemma poll_raise g i j e : _poll_neighbors n g i j = Raise e → e = IndexError.
Proof.
  unfold _poll_neighbors. intros Hr.
  repeat (apply bind_raise in Hr as [Hr|(? & _ & Hr)];
          [case_decide; [|done];
           apply bind_raise in Hr as [Hr|(? & _ & Hr)]; [|done];
           by apply getitem_raise in Hr|]).
  done.
Qed.

Lemma flow_raise depth : ∀ g i j e,
  _flow_recursive depth n g i j = Raise e →
  e = IndexError ∨ e = RecursionError.
Proof.
  induction depth as [|depth IH]; intros g i j e Hr.
  { right. simpl in Hr. congruence. }
  cbn [_flow_recursive] in Hr.
  apply bind_raise in Hr as [Hr|(mv & _ & Hr)].
  { left. by apply poll_raise in Hr. }
  assert (∀ (b : bool) g0 i' j',
    (if b then x ← setitem g0 i' j' 2; _flow_recursive depth n x i' j'
     else Ok g0) = Raise e → e = IndexError ∨ e = RecursionError) as Hbr.
  { intros [|] g0 i' j' Hb; [|done].
    apply bind_raise in Hb as [Hb|(? & _ & Hb)].
    - left. by apply setitem_raise in Hb.
    - by apply IH in Hb. }
  repeat (apply bind_raise in Hr as [Hr|(? & _ & Hr)];
          [by apply Hbr in Hr|]).
  done.
Qed.

Lemma percolate_column_raise depth s g j e :
  percolate_column depth n s g j = Raise e →
  e = IndexError ∨ e = RecursionError.
Proof.
  unfold percolate_column. intros Hr.
  apply bind_raise in Hr as [Hr|(v & _ & Hr)].
  { left. by apply getitem_raise in Hr. }
  case_decide; [|done].
  apply bind_raise in Hr as [Hr|(? & _ & Hr)].
  - left. by apply setitem_raise in Hr.
  - by apply flow_raise in Hr.
Qed.

(** The loop of [percolate] cannot pass a column that the top row of the
    grid does not have. *)
Lemma percolate_loop_narrow depth s row c : ∀ k a g,
  s !! 0%nat = Some row → length row = c → (a ≤ c < a + k)%nat →
  ∃ e, percolate_loop depth n s g (seq a k) = Raise e ∧
       (e = IndexError ∨ e = RecursionError).
Proof.
  intros k a g Hrow Hlen. revert a g.
  induction k as [|k IH]; intros a g Hk; [lia|].
  cbn [seq percolate_loop].
  destruct (percolate_column depth n s g a) as [g1|e] eqn:E.
  - cbn [mbind result_bind]. apply IH.
    destruct (decide (a = c)) as [->|]; [|lia].
    unfold percolate_column, getitem in E. rewrite Hrow in E.
    rewrite lookup_ge_None_2 in E by lia. done.
  - exists e. split; [done|]. by apply percolate_column_raise in E.
Qed.

End NonSquare.

Section Wide.
Import PercolationSimulation.
Context (n m : nat).
Hypothesis Hnm : (n ≤ m)%nat.
Implicit Types (s g : ndarray) (c : pos).

Local Abbreviation trunc g := (take n <$> g).

Lemma square_trunc g : rect n m g → square n (trunc g).
Proof using Hnm.
  intros [Hl Hrows]. split; [by rewrite length_fmap|].
  apply Forall_fmap. eapply Forall_impl; [exact Hrows|].
  intros row E. simpl in *. rewrite length_take. lia.
Qed.

Lemma cell_trunc g c : (c.2 < n)%nat → cell (trunc g) c = cell g c.
Proof.
  intros Hj. unfold cell. rewrite list_lookup_fmap.
  destruct (g !! c.1) as [row|]; [|done]. simpl.
  by rewrite lookup_take_lt.
Qed.

Lemma getitem_rect g i j :
  rect n m g → (i < n)%nat → (j < m)%nat → getitem g i j = Ok (cell g (i, j)).
Proof.
  intros Hr Hi Hj. destruct (rect_lookup n m g i Hr Hi) as (row & Hrow & Hlen).
  destruct (lookup_lt_is_Some_2 row j) as [v Hv]; [lia|].
  unfold getitem, cell. simpl. by rewrite Hrow, Hv.
Qed.

Lemma setitem_rect g i j v :
  rect n m g → (i < n)%nat → (j < m)%nat →
  setitem g i j v = Ok (upd g (i, j) v).
Proof.
  intros Hr Hi Hj. destruct (rect_lookup n m g i Hr Hi) as (row & Hrow & Hlen).
  unfold setitem, upd. simpl. rewrite Hrow.
  rewrite decide_True by lia. f_equal.
  apply list_eq. intros k. rewrite list_lookup_alter.
  destruct (decide (i = k)) as [->|Hne].
  - rewrite list_lookup_insert_eq by (apply lookup_lt_Some in Hrow; lia).
    by rewrite Hrow.
  - by rewrite list_lookup_insert_ne.
Qed.

Lemma rect_upd g c v : rect n m g → rect n m (upd g c v).
Proof.
  intros [Hl Hrows]. unfold upd. split; [by rewrite length_alter|].
  apply Forall_alter; [done|]. intros row Hrow. by rewrite length_insert.
Qed.

Lemma trunc_upd g c v : (c.2 < n)%nat → trunc (upd g c v) = upd (trunc g) c v.
Proof.
  intros Hj. unfold upd. apply list_fmap_alter.
  apply Forall_forall. intros row _. by apply take_insert_lt.
Qed.

Lemma drop_upd g c v : (c.2 < n)%nat → drop n <$> upd g c v = drop n <$> g.
Proof.
  intros Hj. unfold upd.
  rewrite (list_fmap_alter (drop n) _ id).
  - apply list_eq. intros k. rewrite list_lookup_alter.
    case_decide as Hk; [|done]. subst k. by destruct (_ !! _).
  - apply Forall_forall. intros row _. simpl. by apply drop_insert_lt.
Qed.

Lemma poll_wide g i j :
  rect n m g → inb n (i, j) →
  _poll_neighbors n g i j = _poll_neighbors n (trunc g) i j.
Proof using Hnm.
  intros Hr [Hi Hj]. simpl in Hi, Hj.
  pose proof (square_trunc g Hr) as Hsq.
  assert (∀ i' j', (i' < n)%nat → (j' < n)%nat →
            getitem g i' j' = getitem (trunc g) i' j') as Hget.
  { intros i' j' Hi' Hj'. rewrite getitem_rect by (done || lia).
    rewrite (getitem_ok n) by done. by rewrite cell_trunc. }
  unfold _poll_neighbors.
  repeat case_decide; rewrite ?Hget by lia; done.
Qed.

Lemma flow_wide depth : ∀ g i j,
  rect n m g → inb n (i, j) →
  (∀ g0, _flow_recursive depth n (trunc g) i j = Ok g0 →
     ∃ g', _flow_recursive depth n g i j = Ok g' ∧ rect n m g' ∧
           trunc g' = g0 ∧ drop n <$> g' = drop n <$> g) ∧
  (∀ e, _flow_recursive depth n (trunc g) i j = Raise e →
     _flow_recursive depth n g i j = Raise e).
Proof using Hnm.
  induction depth as [|depth IH]; intros g i j Hr Hc; [by split|].
  assert (∀ (b : bool) gk i' j', rect n m gk → (b = true → inb n (i', j')) →
    (∀ g0, (if b then x ← setitem (trunc gk) i' j' 2;
                      _flow_recursive depth n x i' j'
            else Ok (trunc gk)) = Ok g0 →
       ∃ g', (if b then x ← setitem gk i' j' 2; _flow_recursive depth n x i' j'
              else Ok gk) = Ok g' ∧ rect n m g' ∧
             trunc g' = g0 ∧ drop n <$> g' = drop n <$> gk) ∧
    (∀ e, (if b then x ← setitem (trunc gk) i' j' 2;
                     _flow_recursive depth n x i' j'
           else Ok (trunc gk)) = Raise e →
       (if b then x ← setitem gk i' j' 2; _flow_recursive depth n x i' j'
        else Ok gk) = Raise e)) as Hbr.
  { intros [|] gk i' j' Hk Hin.
    - destruct (Hin eq_refl) as [Hi' Hj']. simpl in Hi', Hj'.
      rewrite (setitem_ok n) by (by apply square_trunc || done).
      rewrite setitem_rect by (done || lia). cbn [mbind result_bind].
      rewrite <- trunc_upd by done.
      destruct (IH (upd gk (i', j') 2) i' j') as [Hok Herr];
        [by apply rect_upd|done|].
      split; [|done]. intros g0 R. destruct (Hok g0 R) as (g' & ? & ? & ? & Hd).
      exists g'. repeat (split; [done|]). by rewrite Hd, drop_upd.
    - split; [|done]. intros g0 [= <-]. by exists gk. }
  cbn [_flow_recursive]. rewrite (poll_wide g) by done.
  pose proof (square_trunc g Hr) as Hsq.
  rewrite poll_neighbors_ok by done.
  cbn [mbind result_bind mleft mright mup mdown].
  destruct Hc as [Hi Hj]; simpl in Hi, Hj.
  set (bl := bool_decide (j ≠ 0%nat ∧ cell (trunc g) (i, (j - 1)%nat) = 1)).
  set (br := bool_decide (j ≠ (n - 1)%nat ∧ cell (trunc g) (i, (j + 1)%nat) = 1)).
  set (bu := bool_decide (i ≠ 0%nat ∧ cell (trunc g) ((i - 1)%nat, j) = 1)).
  set (bd := bool_decide (i ≠ (n - 1)%nat ∧ cell (trunc g) ((i + 1)%nat, j) = 1)).
  assert (bl = true → inb n (i, (j - 1)%nat)) as Il.
  { intros [? _]%bool_decide_eq_true. split; simpl; lia. }
  assert (br = true → inb n (i, (j + 1)%nat)) as Ir.
  { intros [? _]%bool_decide_eq_true. split; simpl; lia. }
  assert (bu = true → inb n ((i - 1)%nat, j)) as Iu.
  { intros [? _]%bool_decide_eq_true. split; simpl; lia. }
  assert (bd = true → inb n ((i + 1)%nat, j)) as Id.
  { intros [? _]%bool_decide_eq_true. split; simpl; lia. }
  clearbody bl br bu bd.
  destruct (Hbr bl g i (j - 1)%nat Hr Il) as [Ok1 Er1].
  destruct (if bl then _ else Ok (trunc g)) as [g01|e1] eqn:E1.
  2: { rewrite (Er1 e1 eq_refl). by split. }
  destruct (Ok1 g01 eq_refl) as (g1 & -> & Hr1 & <- & D1).
  cbn [mbind result_bind].
  destruct (Hbr br g1 i (j + 1)%nat Hr1 Ir) as [Ok2 Er2].
  destruct (if br then _ else Ok (trunc g1)) as [g02|e2] eqn:E2.
  2: { rewrite (Er2 e2 eq_refl). by split. }
  destruct (Ok2 g02 eq_refl) as (g2 & -> & Hr2 & <- & D2).
  cbn [mbind result_bind].
  destruct (Hbr bu g2 (i - 1)%nat j Hr2 Iu) as [Ok3 Er3].
  destruct (if bu then _ else Ok (trunc g2)) as [g03|e3] eqn:E3.
  2: { rewrite (Er3 e3 eq_refl). by split. }
  destruct (Ok3 g03 eq_refl) as (g3 & -> & Hr3 & <- & D3).
  cbn [mbind result_bind].
  destruct (Hbr bd g3 (i + 1)%nat j Hr3 Id) as [Ok4 Er4].
  destruct (if bd then _ else Ok (trunc g3)) as [g04|e4] eqn:E4.
  2: { rewrite (Er4 e4 eq_refl). by split. }
  destruct (Ok4 g04 eq_refl) as (g4 & -> & Hr4 & <- & D4).
  cbn [mbind result_bind]. split; [|done].
  intros g0 [= <-]. exists g4. repeat (split; [done|]). congruence.
Qed.

Lemma loop_wide depth s : ∀ cols g,
  rect n m s → rect n m g → (0 < n)%nat → Forall (λ j, (j < n)%nat) cols →
  (∀ g0, percolate_loop depth n (trunc s) (trunc g) cols = Ok g0 →
     ∃ g', percolate_loop depth n s g cols = Ok g' ∧ rect n m g' ∧
           trunc g' = g0 ∧ drop n <$> g' = drop n <$> g) ∧
  (∀ e, percolate_loop depth n (trunc s) (trunc g) cols = Raise e →
     percolate_loop depth n s g cols = Raise e).
Proof using Hnm.
  intros cols g Hs. revert g.
  induction cols as [|j cols IH]; intros g Hr Hn Hcols.
  { split; [|done]. intros g0 [= <-]. by exists g. }
  apply Forall_cons in Hcols as [Hj Hcols].
  cbn [percolate_loop]. unfold percolate_column.
  rewrite (getitem_ok n (trunc s)); [|by apply square_trunc|split; simpl; lia].
  rewrite (getitem_rect s) by (done || lia).
  rewrite cell_trunc by (simpl; lia). cbn [mbind result_bind].
  case_decide as Hv; cbn [mbind result_bind]; [|by apply IH].
  rewrite (setitem_ok n (trunc g)); [|by apply square_trunc|split; simpl; lia].
  rewrite (setitem_rect g) by (done || lia). cbn [mbind result_bind].
  rewrite <- trunc_upd by (simpl; lia).
  destruct (flow_wide depth (upd g (0%nat, j) 2) 0 j) as [Hok Herr];
    [by apply rect_upd|split; simpl; lia|].
  destruct (_flow_recursive depth n (trunc (upd g (0%nat, j) 2)) 0 j)
    as [g01|e1] eqn:E1.
  2: { rewrite (Herr e1 eq_refl). by split. }
  destruct (Hok g01 eq_refl) as (g1 & -> & Hr1 & <- & D1).
  cbn [mbind result_bind].
  destruct (IH g1 Hr1 Hn Hcols) as [Hok' Herr']. split; [|done].
  intros g0 R. destruct (Hok' g0 R) as (g' & ? & ? & ? & Hd).
  exists g'. repeat (split; [done|]).
  by rewrite Hd, D1, drop_upd by (simpl; lia).
Qed.

Lemma binary_no_two s row : binary s → row ∈ s → 2 ∉ row.
Proof.
  intros Hb Hrow Hin. unfold binary in Hb. rewrite Forall_forall in Hb.
  specialize (Hb row Hrow). rewrite Forall_forall in Hb.
  destruct (Hb 2 Hin); lia.
Qed.

Lemma percolate_wide depth s :
  rect n m s → (0 < n)%nat → binary s →
  (∀ g0 b, percolate depth (mk n (trunc s) (trunc s))
           = Ok (mk n (trunc s) g0, b) →
     ∃ g, percolate depth (mk n s s) = Ok (mk n s g, b) ∧
          trunc g = g0 ∧ drop n <$> g = drop n <$> s) ∧
  (∀ e, percolate depth (mk n (trunc s) (trunc s)) = Raise e →
     percolate depth (mk n s s) = Raise e).
Proof using Hnm.
  intros Hs Hn Hbin. unfold percolate.
  cbn [PercolationSimulation.n grid grid_filled].
  destruct (loop_wide depth s (seq 0 n) s Hs Hs Hn) as [Hok Herr].
  { apply Forall_seq. intros; lia. }
  destruct (percolate_loop depth n (trunc s) (trunc s) (seq 0 n))
    as [g0|e] eqn:E.
  2: { rewrite (Herr e eq_refl). by split. }
  destruct (Hok g0 eq_refl) as (g & -> & Hr & <- & Hd).
  cbn [mbind result_bind]. unfold last_row. rewrite fmap_last.
  destruct (last g) as [row|] eqn:Hlast; cbn [fmap option_fmap option_map];
    [|by split].
  cbn [mbind result_bind]. split; [|done].
  intros g0 b [= <- <-]. exists g. split; [|done]. do 2 f_equal.
  assert (last (drop n <$> g) = last (drop n <$> s)) as Hl by by rewrite Hd.
  rewrite !fmap_last, Hlast in Hl.
  destruct (last s) as [row'|] eqn:Hlast'; [|done].
  injection Hl as Hl.
  assert (2 ∉ drop n row) as Hno.
  { rewrite Hl. intros Hin. apply (binary_no_two s row' Hbin).
    - apply last_Some in Hlast' as [l' ->]. apply elem_of_app. right. by left.
    - rewrite <- (take_drop n row'). apply elem_of_app. by right. }
  apply bool_decide_ext. rewrite <- (take_drop n row) at 1.
  rewrite elem_of_app. tauto.
Qed.

End Wide.

Module PercolationShape.
Import PercolationSimulation.

(** X16: a grid with fewer columns than rows is accepted by the
    constructor when it holds at most two values, and cannot be
    percolated: [percolate] walks as many columns of the top row as the
    grid has rows and raises IndexError (or RecursionError, if the
    recursion limit is reached first); it never returns. *)
Theorem percolate_narrow_grid_raises (r c : nat) (s : ndarray) (depth : nat)
    (self : t) :
  rect r c s → (c < r)%nat →
  __init__ s = Ok self →
  ∃ e, percolate depth self = Raise e ∧
       (e = IndexError ∨ e = RecursionError).
Proof.
  intros [Hlen Hrows] Hc Hinit. unfold __init__ in Hinit.
  case_decide; [|done]. injection Hinit as <-.
  unfold percolate. cbn [n grid grid_filled]. rewrite Hlen.
  destruct (lookup_lt_is_Some_2 s 0) as [row Hrow]; [lia|].
  assert (length row = c) as Hrl.
  { rewrite Forall_forall in Hrows. apply Hrows.
    by eapply list_elem_of_lookup_2. }
  destruct (percolate_loop_narrow r depth s row c r 0 s Hrow Hrl)
    as (e & -> & He); [lia|].
  by exists e.
Qed.

Lemma percolate_narrow_grid_raises_witness :
  ∃ e, percolate 9 (mk 3 [[1; 0]; [1; 1]; [0; 1]] [[1; 0]; [1; 1]; [0; 1]])
       = Raise e ∧ (e = IndexError ∨ e = RecursionError).
Proof.
  apply (percolate_narrow_grid_raises 3 2 [[1; 0]; [1; 1]; [0; 1]] 9).
  - split; [reflexivity|]. repeat constructor.
  - lia.
  - vm_compute. reflexivity.
Defined.

(** X17: a grid of 0s and 1s with more columns than rows is accepted, and
    the columns from index n on (n the number of rows) are ignored:
    [percolate] returns what it returns on the left n by n block, fills the
    left block in the same way and leaves the other columns as they are,
    even when they hold Open sites joined to the water. *)
Theorem percolate_wide_grid_ignores_columns (n m : nat) (s : ndarray)
    (depth : nat) (g0 : ndarray) (b : bool) :
  rect n m s → (n ≤ m)%nat → (0 < n)%nat → binary s →
  percolate depth (mk n (take n <$> s) (take n <$> s))
  = Ok (mk n (take n <$> s) g0, b) →
  ∃ g, percolate depth (mk n s s) = Ok (mk n s g, b) ∧
       take n <$> g = g0 ∧ drop n <$> g = drop n <$> s.
Proof.
  intros Hs Hnm Hn Hbin Hrun.
  by apply (proj1 (percolate_wide n m Hnm depth s Hs Hn Hbin)).
Qed.

Lemma percolate_wide_grid_ignores_columns_witness :
  ∃ g, percolate 3 (mk 2 [[0; 0; 1]; [0; 0; 1]] [[0; 0; 1]; [0; 0; 1]])
       = Ok (mk 2 [[0; 0; 1]; [0; 0; 1]] g, false) ∧
       take 2 <$> g = [[0; 0]; [0; 0]] ∧
       drop 2 <$> g = drop 2 <$> [[0; 0; 1]; [0; 0; 1]].
Proof.
  apply (percolate_wide_grid_ignores_columns 2 3 [[0; 0; 1]; [0; 0; 1]] 3).
  - split; [reflexivity|]. repeat constructor.
  - lia.
  - lia.
  - unfold binary. repeat (apply Forall_cons_2 || apply Forall_nil_2); auto.
  - vm_compute. reflexivity.
Defined.

End PercolationShape.

(** ** Percolation: the two helpers of the flow *)

Module PercolationFlow.
Import PercolationSimulation.

(** X28: [_poll_neighbors] respects the boundary. At an in-bounds cell of
    an n by n grid it raises nothing, and it reports a direction exactly
    when the neighbour in that direction lies inside the grid and holds
    1: a neighbour out of bounds counts as Blocked, and a neighbour that
    is already Filled (2) is not reported. *)
Theorem poll_neighbors_reports_open_neighbours (n : nat) (g : ndarray)
    (i j : nat) :
  square n g → inb n (i, j) →
  ∃ mv, _poll_neighbors n g i j = Ok mv ∧
    (mleft mv = true ↔ (0 < j)%nat ∧ cell g (i, (j - 1)%nat) = 1) ∧
    (mright mv = true ↔ (j + 1 < n)%nat ∧ cell g (i, (j + 1)%nat) = 1) ∧
    (mup mv = true ↔ (0 < i)%nat ∧ cell g ((i - 1)%nat, j) = 1) ∧
    (mdown mv = true ↔ (i + 1 < n)%nat ∧ cell g ((i + 1)%nat, j) = 1).
Proof.
  intros Hsq Hc. eexists. split; [by apply poll_neighbors_ok|].
  destruct Hc as [Hi Hj]. simpl in Hi, Hj. cbn [mleft mright mup mdown].
  rewrite !bool_decide_eq_true. intuition lia.
Qed.

Lemma poll_neighbors_reports_open_neighbours_witness :
  _poll_neighbors 2 [[2; 1]; [2; 0]] 0 0 = Ok (mkmov false true false false).
Proof.
  destruct (poll_neighbors_reports_open_neighbours 2 [[2; 1]; [2; 0]] 0 0)
    as (mv & R & _).
  - split; [reflexivity|]. repeat constructor.
  - split; simpl; lia.
  - rewrite R. vm_compute in R. by injection R as <-.
Defined.

(** X29: a call of [_flow_recursive] at a Filled in-bounds cell of an n by
    n grid completes when the recursion limit leaves more frames than the
    grid has Open cells; it changes Open cells into Filled cells and
    nothing else, and when it returns, the cell it was called at has no
    Open neighbour left. *)
Theorem flow_fills_open_cells_only (n : nat) (g : ndarray) (i j depth : nat) :
  square n g → inb n (i, j) → cell g (i, j) = 2 → (ones n g < depth)%nat →
  ∃ g', _flow_recursive depth n g i j = Ok g' ∧
        square n g' ∧
        (∀ c, inb n c →
              cell g' c = cell g c ∨ (cell g c = 1 ∧ cell g' c = 2)) ∧
        (∀ c, inb n c → adjacent (i, j) c → cell g' c ≠ 1).
Proof.
  intros Hsq Hc Hv Hd.
  destruct (flow_ok n depth g (i, j) Hsq Hc Hv Hd) as (g' & R & [[Hsq' Hf] _] & Hcl & _).
  by exists g'.
Qed.

Lemma flow_fills_open_cells_only_witness :
  ∃ g', _flow_recursive 3 2 [[2; 0]; [1; 1]] 0 0 = Ok g' ∧
        cell g' (1, 0)%nat ≠ 1.
Proof.
  destruct (flow_fills_open_cells_only 2 [[2; 0]; [1; 1]] 0 0 3)
    as (g' & R & _ & _ & Hcl).
  - split; [reflexivity|]. repeat constructor.
  - split; simpl; lia.
  - reflexivity.
  - vm_compute. lia.
  - exists g'. split; [exact R|]. apply Hcl.
    + split; simpl; lia.
    + right. simpl. split; [done|]. by left.
Defined.

End PercolationFlow.
Module PercolationExamples.
Import PercolationSimulation.

Example percolate_2x2 :
  (self ← __init__ [[1; 0]; [1; 1]]; percolate 5 self)
  = Ok ({| n := 2; grid := [[1; 0]; [1; 1]];
           grid_filled := [[2; 0]; [2; 2]] |}, true).
Proof. vm_compute. reflexivity. Qed.

Example percolate_2x2_blocked :
  (self ← __init__ [[1; 0]; [0; 1]]; percolate 5 self)
  = Ok ({| n := 2; grid := [[1; 0]; [0; 1]];
           grid_filled := [[2; 0]; [0; 1]] |}, false).
Proof. vm_compute. reflexivity. Qed.

End PercolationExamples.

(** ** Sandpile: what a step does to the grid and to the history *)

Section StepChanges.
Import AbelianSandpile.
Context (n : nat).
Implicit Types (g : ndarray) (c x y : pos) (ts : list pos).

Lemma zsum_cons {A} (f : A → Z) a l : zsum f (a :: l) = f a + zsum f l.
Proof. done. Qed.

Lemma legal_inb ts : ∀ g, legal n g ts → Forall (inb n) ts.
Proof.
  induction ts as [|c ts IH]; intros g Hl; [done|].
  destruct Hl as (Hc & _ & Hl). apply Forall_cons. split; [done|]. by eapply IH.
Qed.

(** The count of a cell after a sequence of avalanches: four grains leave
    it for each of its own avalanches, one arrives for each avalanche of a
    neighbour. *)
Lemma cell_topple_all ts : ∀ g y,
  square n g → Forall (inb n) ts →
  cell (topple_all n g ts) y
  = cell g y - 4 * occ y ts + zsum (λ c, occ y (nbrs n c)) ts.
Proof.
  induction ts as [|c ts IH]; intros g y Hsq Hts.
  { unfold topple_all, occ. simpl. lia. }
  apply Forall_cons in Hts as [Hc Hts].
  change (topple_all n g (c :: ts)) with (topple_all n (topple n g c) ts).
  rewrite IH by (done || by apply square_topple).
  rewrite cell_topple by done. rewrite occ_cons, zsum_cons.
  destruct (decide (y = c)) as [->|Hne].
  - rewrite decide_True by done. lia.
  - rewrite decide_False by done. lia.
Qed.

Lemma zsum_ge_occ (f : pos → Z) c ts :
  (∀ x, 0 ≤ f x) → f c * occ c ts ≤ zsum f ts.
Proof.
  intros Hf. induction ts as [|x ts IH].
  { unfold occ. simpl. lia. }
  rewrite occ_cons, zsum_cons. case_decide as E.
  - subst x. lia.
  - pose proof (Hf x). lia.
Qed.

Lemma occ_elem_of x l : x ∈ l → 1 ≤ occ x l.
Proof.
  induction 1 as [|y l Hin IH]; rewrite occ_cons.
  - rewrite decide_True by done. pose proof (occ_nonneg x l). lia.
  - case_decide; lia.
Qed.

Lemma occ_nbrs_adjacent c y :
  inb n c → inb n y → adjacent c y → occ y (nbrs n c) = 1.
Proof.
  intros Hc Hy Hadj. pose proof (nbrs_occ_le n c y).
  assert (y ∈ nbrs n c) as Hin%occ_elem_of; [|lia].
  destruct c as [i j].
  unfold nbrs. cbn [fst snd]. rewrite !elem_of_app.
  destruct (adjacent_cases n i j y Hc Hy Hadj)
    as [[? ->]|[[? ->]|[[? ->]|[? ->]]]].
  - do 2 right. left. rewrite decide_True by done. by left.
  - do 3 right. rewrite decide_True by done. by left.
  - left. rewrite decide_True by done. by left.
  - right. left. rewrite decide_True by done. by left.
Qed.

(** A cell other than [x] has an in-bounds neighbour nearer to [x]. *)
Lemma nearer_neighbour x y :
  inb n x → inb n y → y ≠ x →
  ∃ y', inb n y' ∧ adjacent y' y ∧
        (Z.abs (Z.of_nat y'.1 - Z.of_nat x.1) + Z.abs (Z.of_nat y'.2 - Z.of_nat x.2)
         < Z.abs (Z.of_nat y.1 - Z.of_nat x.1) + Z.abs (Z.of_nat y.2 - Z.of_nat x.2)).
Proof.
  destruct x as [a b], y as [i j]. intros [Ha Hb] [Hi Hj] Hne. simpl in *.
  destruct (decide (i < a)%nat); [|destruct (decide (a < i)%nat);
    [|destruct (decide (j < b)%nat)]].
  - exists ((i + 1)%nat, j). unfold inb, adjacent. simpl. lia.
  - exists ((i - 1)%nat, j). unfold inb, adjacent. simpl. lia.
  - exists (i, (j + 1)%nat). unfold inb, adjacent. simpl. lia.
  - exists (i, (j - 1)%nat). unfold inb, adjacent. simpl.
    assert (i = a) by lia. assert (j ≠ b) by congruence. lia.
Qed.

(** When a sequence of avalanches started by one grain at [x] restores
    the grid, every cell has toppled. *)
Lemma restored_all_topple g x ts :
  square n g → inb n x → Forall (inb n) ts →
  topple_all n (addc g x 1) ts = g →
  ∀ y, inb n y → 1 ≤ occ y ts.
Proof.
  intros Hsq Hx Hts Heq.
  assert (∀ y, inb n y →
    4 * occ y ts = (if decide (y = x) then 1 else 0)
                   + zsum (λ c, occ y (nbrs n c)) ts) as Hbal.
  { intros y Hy.
    pose proof (cell_topple_all ts (addc g x 1) y
                  (square_addc n g x 1 Hsq) Hts) as E.
    rewrite Heq in E. rewrite (cell_addc n) in E by done.
    repeat case_decide; lia. }
  assert (∀ d y, inb n y →
    Z.abs (Z.of_nat y.1 - Z.of_nat x.1) + Z.abs (Z.of_nat y.2 - Z.of_nat x.2)
    < Z.of_nat d → 1 ≤ occ y ts) as Hind.
  { induction d as [|d IH]; intros y Hy Hd; [lia|].
    specialize (Hbal y Hy).
    assert (0 ≤ zsum (λ c, occ y (nbrs n c)) ts) as Hnn.
    { apply zsum_nonneg. intros c _. apply occ_nonneg. }
    destruct (decide (y = x)) as [->|Hne]; [lia|].
    destruct (nearer_neighbour x y Hx Hy Hne) as (y' & Hy' & Hadj & Hlt).
    assert (1 ≤ occ y' ts) as Hy1 by (apply IH; [done|lia]).
    pose proof (zsum_ge_occ (λ c, occ y (nbrs n c)) y' ts
                  (λ c, occ_nonneg y (nbrs n c))) as Hge.
    cbv beta in Hge. rewrite (occ_nbrs_adjacent y' y) in Hge by done. lia. }
  intros y Hy.
  apply (Hind (Z.to_nat (Z.abs (Z.of_nat y.1 - Z.of_nat x.1)
                         + Z.abs (Z.of_nat y.2 - Z.of_nat x.2)) + 1)%nat y Hy).
  lia.
Qed.

Lemma lost_nonneg c : 0 ≤ lost n c.
Proof. rewrite lost_sides. repeat case_decide; lia. Qed.

(** One grain and the avalanches it starts never restore the grid. *)
Lemma topple_all_changes g x ts :
  square n g → inb n x → legal n (addc g x 1) ts →
  topple_all n (addc g x 1) ts ≠ g.
Proof.
  intros Hsq Hx Hl Heq.
  pose proof (legal_inb ts _ Hl) as Hts.
  pose proof (grid_sum_topple_all n ts (addc g x 1)
                (square_addc n g x 1 Hsq) Hl) as Hsum.
  rewrite Heq, (grid_sum_addc n) in Hsum by done.
  assert (inb n (0, 0)%nat) as H0 by (destruct Hx; split; simpl; lia).
  pose proof (restored_all_topple g x ts Hsq Hx Hts Heq _ H0) as Hocc.
  pose proof (zsum_ge_occ (lost n) (0, 0)%nat ts (lost_nonneg)) as Hge.
  assert (2 ≤ lost n (0, 0)%nat).
  { rewrite lost_sides. simpl. repeat case_decide; lia. }
  nia.
Qed.

End StepChanges.

Section StepFacts.
Import AbelianSandpile.
Context (n : nat).
Implicit Types (g : ndarray) (site : pos).

Lemma step_at_changes g site fuel g' :
  good n g → inb n site → (step_fuel n ≤ fuel)%nat →
  step_at fuel n g site = Ok g' → g' ≠ g ∧ good n g'.
Proof.
  intros (Hsq & Hnn & Hst) Hsite Hfuel Hrun.
  destruct (step_at_runs n g site Hsq Hnn Hsite)
    as (g1 & ts & Hall & -> & Hl & Hsq1 & Hnn1 & Hst1).
  pose proof (step_fuel_enough n g site Hst Hsite).
  pose proof (potential_nonneg n g Hnn). pose proof (weight_pos n site Hsite).
  destruct (Hall fuel) as [_ R]; [lia|].
  rewrite R in Hrun. injection Hrun as <-. split.
  - by apply topple_all_changes.
  - split; [done|]. split; [done|]. by apply Hst1.
Qed.

Lemma step_at_total g site fuel :
  good n g → inb n site → (step_fuel n ≤ fuel)%nat →
  ∃ g', step_at fuel n g site = Ok g'.
Proof.
  intros (Hsq & Hnn & Hst) Hsite Hfuel.
  destruct (step_at_runs n g site Hsq Hnn Hsite) as (g1 & ts & Hall & _).
  pose proof (step_fuel_enough n g site Hst Hsite).
  pose proof (potential_nonneg n g Hnn). pose proof (weight_pos n site Hsite).
  destruct (Hall fuel) as [_ R]; [lia|]. by exists g1.
Qed.

Lemma filter_nil_not {A} (P : A → Prop) `{∀ x, Decision (P x)} (l : list A) :
  filter P l = [] → ∀ x, x ∈ l → ¬ P x.
Proof.
  intros Hnil x Hin HP.
  assert (x ∈ filter P l) as Hx by by apply list_elem_of_filter.
  rewrite Hnil in Hx. by apply not_elem_of_nil in Hx.
Qed.

Lemma check_difference_pos r c (a b : ndarray) :
  rect r c a → rect r c b → a ≠ b →
  ∃ d, check_difference a b = Ok d ∧ 1 ≤ d.
Proof.
  intros Ha Hb Hne. rewrite (check_difference_rect r c) by done.
  eexists. split; [done|].
  destruct (filter _ _) as [|x l] eqn:E; [|simpl; lia].
  destruct Hne. apply (rect_ext r c); try done.
  intros x Hx1 Hx2.
  destruct (decide (cell a x = cell b x)) as [|Hd]; [done|].
  destruct (filter_nil_not _ _ E x); [|done].
  by apply elem_of_coords_rc.
Qed.

End StepFacts.

Section HistoryFacts.
Import AbelianSandpile.
Context {rng : Type} `{NumpyRandomSpec rng}.
Context (N fuel : nat).

Lemma stream_history_chain n_step : ∀ a (r : rng) tr,
  (0 < N)%nat → (step_fuel N ≤ fuel)%nat → good N a →
  stream_history fuel n_step N a r = Ok tr →
  ∀ k x y, (a :: tr) !! k = Some x → (a :: tr) !! S k = Some y →
           y ≠ x ∧ good N x ∧ good N y.
Proof.
  induction n_step as [|n_step IH]; intros a r tr HN Hfuel Ha Hrun k x y Hx Hy.
  { injection Hrun as <-. by destruct k. }
  cbn [stream_history] in Hrun.
  destruct (np_random_choice N r) as [site r1] eqn:E.
  pose proof (choice_inb N r HN) as Hsite. rewrite E in Hsite. simpl in Hsite.
  destruct (step_at fuel N a site) as [a1|] eqn:E1; [|done].
  cbn [mbind result_bind] in Hrun.
  destruct (step_at_changes N a site fuel a1 Ha Hsite Hfuel E1) as [Hne Ha1].
  destruct (stream_history fuel n_step N a1 r1) as [l|] eqn:E2; [|done].
  cbn [mbind result_bind] in Hrun. injection Hrun as <-.
  destruct k as [|k].
  - injection Hx as <-. injection Hy as <-. done.
  - by apply (IH a1 r1 l HN Hfuel Ha1 E2 k).
Qed.

(** Construct, then simulate. *)
Lemma run_spec (seed : option Z) (n_step : nat) (w : world rng) :
  (0 < N)%nat → (step_fuel N ≤ fuel)%nat →
  ∃ self w' a0 tr,
    run fuel N seed n_step w = Ok (self, w') ∧
    obj_inv N self w' ∧ good N a0 ∧
    stream_history fuel n_step N a0
      (np_random_choice_grid N (np_random_seed seed (np_random w))).2 = Ok tr ∧
    snapshots self w' = Some <$> (a0 :: tr) ∧
    heap w' !! grid self = Some (default a0 (last tr)).
Proof.
  intros HN Hfuel.
  destruct (init_inv N seed w) as (self & w1 & I & Hinv).
  pose proof I as I'. rewrite init_spec in I'. injection I' as E1 E2.
  set (a0 := (np_random_choice_grid N (np_random_seed seed (np_random w))).1) in *.
  assert (heap w1 !! grid self = Some a0) as Ha.
  { rewrite <- E1, <- E2. cbn [grid heap].
    rewrite lookup_app_r by lia. by rewrite Nat.sub_diag. }
  assert (snapshots self w1 = [Some a0]) as Hs.
  { rewrite <- E1, <- E2. unfold snapshots. cbn [history heap fmap list_fmap].
    rewrite lookup_app_r by lia.
    replace (S (length (heap w)) - length (heap w))%nat with 1%nat by lia.
    done. }
  assert (np_random w1
          = (np_random_choice_grid N (np_random_seed seed (np_random w))).2) as Hr.
  { by rewrite <- E2. }
  destruct (simulate_inv N fuel HN Hfuel n_step self w1 a0 Hinv Ha)
    as (self' & w' & tr & S & Hinv' & _ & _ & T & Hsn & Hg & _).
  exists self', w', a0, tr. unfold run. rewrite I. cbn [mbind result_bind].
  split; [done|]. split; [done|]. split; [apply choice_grid_good|].
  split; [by rewrite <- Hr|]. split; [by rewrite Hsn, Hs|done].
Qed.

End HistoryFacts.

Module SandpileProperties.
Import AbelianSandpile.

(** X18: a step always changes the grid. On an n by n grid with counts
    between 0 and 3, the grid after the grain is added at any in-bounds
    site and the avalanches have run differs from the grid before, and
    [check_difference] of the two is at least 1. *)
Theorem step_changes_grid (n : nat) (g : ndarray) (site : pos) (fuel : nat) :
  good n g → inb n site → (step_fuel n ≤ fuel)%nat →
  ∃ g' d, step_at fuel n g site = Ok g' ∧ g' ≠ g ∧
          check_difference g g' = Ok d ∧ 1 ≤ d.
Proof.
  intros Hg Hsite Hfuel.
  destruct (step_at_total n g site fuel Hg Hsite Hfuel) as (g' & R).
  destruct (step_at_changes n g site fuel g' Hg Hsite Hfuel R)
    as [Hne (Hsq' & _)].
  destruct (check_difference_pos n n g g') as (d & Hd & Hpos);
    [by destruct Hg|done|done|].
  by exists g', d.
Qed.

Lemma step_changes_grid_witness :
  ∃ g' d, step_at 100 2 [[3; 3]; [3; 3]] (0, 0)%nat = Ok g' ∧
          g' ≠ [[3; 3]; [3; 3]] ∧
          check_difference [[3; 3]; [3; 3]] g' = Ok d ∧ 1 ≤ d.
Proof.
  apply (step_changes_grid 2 [[3; 3]; [3; 3]] (0, 0)%nat 100).
  - split; [|split].
    + split; [reflexivity|]. repeat constructor.
    + intros [[|[|i]] [|[|j]]] [Hi Hj]; simpl in *; try lia; vm_compute; congruence.
    + intros [[|[|i]] [|[|j]]] [Hi Hj]; simpl in *; try lia; vm_compute; congruence.
  - split; simpl; lia.
  - vm_compute. lia.
Defined.

(** X19: the snapshots of a run are pairwise different from one to the
    next. After construction and [simulate(n_step)], [history] holds
    n_step + 1 grids, each with counts between 0 and 3, and any two
    consecutive ones differ at one site at least. *)
Theorem history_entries_differ {rng : Type} `{NumpyRandomSpec rng}
    (N fuel : nat) (seed : option Z) (n_step : nat) (w : world rng) :
  (0 < N)%nat → (step_fuel N ≤ fuel)%nat →
  ∃ self w' hist,
    run fuel N seed n_step w = Ok (self, w') ∧
    snapshots self w' = Some <$> hist ∧
    length hist = S n_step ∧
    Forall (good N) hist ∧
    ∀ k x y, hist !! k = Some x → hist !! S k = Some y →
      good N x ∧ good N y ∧
      ∃ d, check_difference x y = Ok d ∧ 1 ≤ d.
Proof.
  intros HN Hfuel.
  destruct (run_spec N fuel seed n_step w HN Hfuel)
    as (self & w' & a0 & tr & R & Hinv & Ha0 & T & Hs & _).
  exists self, w', (a0 :: tr). split; [done|]. split; [done|]. split.
  { simpl. f_equal. by eapply stream_history_length. }
  split.
  { destruct Hinv as (_ & _ & _ & Hhist).
    apply Forall_lookup_2. intros k x Hx.
    assert (snapshots self w' !! k = Some (Some x)) as Hk.
    { by rewrite Hs, list_lookup_fmap, Hx. }
    unfold snapshots in Hk. rewrite list_lookup_fmap in Hk.
    destruct (history self !! k) as [l|] eqn:El; [|done].
    simpl in Hk. injection Hk as Hk.
    eapply Forall_lookup_1 in Hhist; [|exact El].
    destruct Hhist as (a & Ha & Hg). rewrite Hk in Ha. by injection Ha as <-. }
  intros k x y Hx Hy.
  destruct (stream_history_chain N fuel n_step a0 _ tr HN Hfuel Ha0 T k x y Hx Hy)
    as (Hne & Hgx & Hgy).
  split; [done|]. split; [done|].
  apply (check_difference_pos N N); [by destruct Hgx|by destruct Hgy|done].
Qed.

Lemma history_entries_differ_witness :
  ∃ self w' hist,
    @run nat counter_random 100 2 (Some 0) 3 (mkworld [] 5%nat) = Ok (self, w') ∧
    snapshots self w' = Some <$> hist ∧
    length hist = 4%nat.
Proof.
  destruct (@history_entries_differ nat counter_random counter_random_spec
              2 100 (Some 0) 3 (mkworld [] 5%nat))
    as (self & w' & hist & R & Hs & Hl & _).
  - lia.
  - vm_compute. lia.
  - by exists self, w', hist.
Defined.

(** X20: only [simulate] records. After construction and
    [simulate(n_step)] the last entry of [history] equals the grid; a call
    of [step] made directly afterwards changes the grid and leaves
    [history] as it was, so that the last entry no longer equals the
    grid. *)
Theorem step_outside_simulate_not_recorded {rng : Type} `{NumpyRandomSpec rng}
    (N fuel : nat) (seed : option Z) (n_step : nat) (w : world rng) :
  (0 < N)%nat → (step_fuel N ≤ fuel)%nat →
  ∃ self w1 a,
    run fuel N seed n_step w = Ok (self, w1) ∧
    heap w1 !! grid self = Some a ∧
    last (snapshots self w1) = Some (Some a) ∧
    ∃ w2 a',
      step fuel self w1 = Ok (self, w2) ∧
      heap w2 !! grid self = Some a' ∧ a' ≠ a ∧
      snapshots self w2 = snapshots self w1.
Proof.
  intros HN Hfuel.
  destruct (run_spec N fuel seed n_step w HN Hfuel)
    as (self & w1 & a0 & tr & R & Hinv & Ha0 & T & Hs & Hg).
  exists self, w1, (default a0 (last tr)). split; [done|]. split; [done|].
  split.
  { rewrite Hs, fmap_last. rewrite last_cons. by destruct (last tr). }
  destruct (step_inv N fuel HN Hfuel self w1 Hinv) as (w2 & S & _ & Hs2).
  pose proof Hinv as (Hn & (a & Ha & Hgood) & _).
  rewrite Hg in Ha. injection Ha as <-.
  destruct (step_ok N fuel HN Hfuel self w1 _ Hn Hg Hgood)
    as (a' & Hat & S' & _).
  rewrite S in S'. injection S' as ->.
  exists (mkworld (<[grid self:=a']> (heap w1))
                  (np_random_choice N (np_random w1)).2), a'.
  split; [done|]. split.
  { cbn [heap]. apply list_lookup_insert_eq. by apply lookup_lt_Some in Hg. }
  split; [|done].
  eapply step_at_changes; [exact Hgood| |exact Hfuel|exact Hat].
  by apply choice_inb.
Qed.

Lemma step_outside_simulate_not_recorded_witness :
  ∃ self w1 a,
    @run nat counter_random 100 2 (Some 0) 3 (mkworld [] 5%nat) = Ok (self, w1) ∧
    heap w1 !! grid self = Some a ∧
    last (snapshots self w1) = Some (Some a) ∧
    ∃ w2 a',
      @step nat counter_random 100 self w1 = Ok (self, w2) ∧
      heap w2 !! grid self = Some a' ∧ a' ≠ a.
Proof.
  destruct (@step_outside_simulate_not_recorded nat counter_random
              counter_random_spec 2 100 (Some 0) 3 (mkworld [] 5%nat))
    as (self & w1 & a & R & Ha & Hl & w2 & a' & S & Ha' & Hne & _).
  - lia.
  - vm_compute. lia.
  - exists self, w1, a. repeat (split; [done|]). by exists w2, a'.
Defined.

End SandpileProperties.

Section SimulateFacts.
Import AbelianSandpile.
Context {rng : Type} `{NumpyRandom rng}.

Lemma simulate_app fuel a : ∀ b self (w : world rng),
  simulate fuel (a + b) self w
  = ('(self', w') ← simulate fuel a self w; simulate fuel b self' w').
Proof.
  induction a as [|a IH]; intros b self w; [done|].
  cbn [Nat.add simulate].
  destruct (step fuel self w) as [[self1 w1]|]; [|done].
  cbn [mbind result_bind].
  destruct (np_copy (grid self1) w1) as [[l w2]|]; [|done].
  cbn [mbind result_bind]. apply IH.
Qed.

End SimulateFacts.

Section NoAvalanche.
Import AbelianSandpile.
Context (n : nat).

Lemma step_at_quiet g site fuel :
  square n g → inb n site → cell g site < 3 → (3 ≤ fuel)%nat →
  step_at fuel n g site = Ok (addc g site 1).
Proof.
  intros Hsq Hsite Hv Hfuel.
  destruct fuel as [|[|[|fuel]]]; try lia.
  unfold step_at. destruct site as [i j].
  rewrite (iadd_ok n) by done. cbn [mbind result_bind fst snd].
  cbn [while_loop length]. rewrite decide_False by done.
  cbn [for_loop lookup list_lookup].
  rewrite (examine_ok n) by (done || by apply square_addc).
  rewrite decide_True.
  2: { rewrite (cell_addc n) by done. rewrite decide_True by done. lia. }
  cbn [mbind result_bind]. done.
Qed.

End NoAvalanche.

Section CheckDifferenceFacts.
Import AbelianSandpile.

Lemma filter_length_triangle {A} (P Q R : A → Prop)
    `{∀ x, Decision (P x)} `{∀ x, Decision (Q x)} `{∀ x, Decision (R x)}
    (l : list A) :
  (∀ x, P x → Q x ∨ R x) →
  (length (filter P l) ≤ length (filter Q l) + length (filter R l))%nat.
Proof.
  intros Himp. induction l as [|x l IH]; [done|].
  rewrite !filter_cons.
  destruct (decide (P x)) as [HP|]; [destruct (Himp x HP)|];
    repeat case_decide; simpl; try lia; done.
Qed.

Lemma broadcast_dim_sym d1 d2 : broadcast_dim d1 d2 = broadcast_dim d2 d1.
Proof. unfold broadcast_dim. repeat case_decide; congruence. Qed.

Lemma check_difference_sym (a b : ndarray) :
  check_difference a b = check_difference b a.
Proof.
  unfold check_difference.
  rewrite (broadcast_dim_sym (shape a).1), (broadcast_dim_sym (shape a).2).
  destruct (broadcast_dim _ _) as [r|]; [|done].
  destruct (broadcast_dim _ _) as [c|]; [|done].
  do 3 f_equal. apply filter_ext_elem. intros x _. split; intros Hne E; by apply Hne.
Qed.

Lemma check_difference_one_cell r c (v : Z) (b : ndarray) :
  rect r c b → (0 < r)%nat → (0 < c)%nat →
  check_difference [[v]] b
  = Ok (Z.of_nat (length (filter (λ x, v ≠ cell b x) (coords_rc r c)))).
Proof.
  intros Hb Hr Hc. unfold check_difference.
  rewrite (shape_rect r c b Hb). rewrite decide_False by lia.
  change (shape [[v]]) with (1%nat, 1%nat). cbn [fst snd].
  assert (∀ d, broadcast_dim 1 d = Some d) as Hd.
  { intros d. unfold broadcast_dim. repeat case_decide; congruence. }
  rewrite !Hd. do 3 f_equal. apply filter_ext_elem.
  intros x [Hx1 Hx2]%elem_of_coords_rc.
  rewrite (broadcast_cell_same r c b) by done.
  by unfold broadcast_cell.
Qed.

End CheckDifferenceFacts.

Module SandpileMoreProperties.
Import AbelianSandpile.

(** X21: a sandpile of size 0 can be constructed and cannot be stepped:
    the constructor succeeds, [simulate(0)] does nothing, and [step] and
    [simulate] with one step or more raise ValueError (no site can be
    drawn below 0). *)
Theorem sandpile_of_size_zero {rng : Type} `{NumpyRandom rng}
    (random_state : option Z) (w : world rng) (fuel n_step : nat) :
  ∃ self w',
    __init__ 0 random_state w = Ok (self, w') ∧ n self = 0%nat ∧
    step fuel self w' = Raise ValueError ∧
    simulate fuel 0 self w' = Ok (self, w') ∧
    simulate fuel (S n_step) self w' = Raise ValueError.
Proof.
  unfold __init__.
  destruct (np_random_choice_grid 0 _) as [a r].
  unfold np_copy. cbn [heap np_random].
  rewrite lookup_app_r by lia. rewrite Nat.sub_diag. cbn [lookup list_lookup].
  cbn [mbind result_bind]. eexists _, _. split; [done|]. by repeat split.
Qed.

(** X22: [simulate] composes: [simulate(a + b)] is [simulate(a)] followed
    by [simulate(b)], with the same grid, the same history and the same
    state of the generator at the end, and the same exception if one is
    raised. *)
Theorem simulate_add {rng : Type} `{NumpyRandom rng}
    (fuel a b : nat) (self : t) (w : world rng) :
  simulate fuel (a + b) self w
  = ('(self', w') ← simulate fuel a self w; simulate fuel b self' w').
Proof. apply simulate_app. Qed.

(** X23: a grain dropped on a site that holds fewer than 3 grains starts
    no avalanche, whatever the other cells hold: the step adds one grain
    at that site and changes no other cell, not even one that holds 4
    grains or more. *)
Theorem step_without_avalanche (n : nat) (g : ndarray) (site : pos)
    (fuel : nat) :
  square n g → inb n site → cell g site < 3 → (3 ≤ fuel)%nat →
  step_at fuel n g site = Ok (addc g site 1) ∧
  cell (addc g site 1) site = cell g site + 1 ∧
  ∀ c, inb n c → c ≠ site → cell (addc g site 1) c = cell g c.
Proof.
  intros Hsq Hsite Hv Hfuel. split; [by apply step_at_quiet|]. split.
  - rewrite (cell_addc n) by done. by rewrite decide_True.
  - intros c Hc Hne. rewrite (cell_addc n) by done.
    rewrite decide_False by done. lia.
Qed.

Lemma step_without_avalanche_witness :
  step_at 3 2 [[2; 3]; [3; 3]] (0, 0)%nat = Ok [[3; 3]; [3; 3]].
Proof.
  apply (step_without_avalanche 2 [[2; 3]; [3; 3]] (0, 0)%nat 3).
  - split; [reflexivity|]. repeat constructor.
  - split; simpl; lia.
  - vm_compute. reflexivity.
  - lia.
Defined.

(** X24: [check_difference] satisfies the triangle inequality on grids of
    one shape: the number of sites at which the first and the third
    differ is at most the number for the first and the second plus the
    number for the second and the third. *)
Theorem check_difference_triangle (r c : nat) (a b d : ndarray) :
  rect r c a → rect r c b → rect r c d →
  ∃ x y z,
    check_difference a b = Ok x ∧ check_difference b d = Ok y ∧
    check_difference a d = Ok z ∧ z ≤ x + y.
Proof.
  intros Ha Hb Hd.
  rewrite !(check_difference_rect r c) by done.
  eexists _, _, _. repeat (split; [done|]).
  pose proof (filter_length_triangle
                (λ x, cell a x ≠ cell d x) (λ x, cell a x ≠ cell b x)
                (λ x, cell b x ≠ cell d x) (coords_rc r c)) as Ht.
  cbv beta in Ht. apply Nat2Z.inj_le in Ht; [lia|].
  intros x Hne. destruct (decide (cell a x = cell b x)) as [E|]; [|by left].
  right. by rewrite <- E.
Qed.

Lemma check_difference_triangle_witness :
  ∃ x y z,
    check_difference [[1; 2]; [3; 4]] [[1; 0]; [3; 4]] = Ok x ∧
    check_difference [[1; 0]; [3; 4]] [[1; 0]; [0; 4]] = Ok y ∧
    check_difference [[1; 2]; [3; 4]] [[1; 0]; [0; 4]] = Ok z ∧ z ≤ x + y.
Proof.
  apply (check_difference_triangle 2 2);
    (split; [reflexivity|]; repeat constructor).
Defined.

(** X25: [check_difference] is symmetric for all arguments: it returns
    the same count, or raises the same exception, when its two arguments
    are exchanged, whatever their shapes. *)
Theorem check_difference_symmetric (a b : ndarray) :
  check_difference a b = check_difference b a.
Proof. apply check_difference_sym. Qed.

(** X26: a grid of one cell is compared with every cell of the other
    grid: for a one-cell grid holding v and a grid of r rows and c
    columns, [check_difference] raises nothing and counts the cells of the
    second grid that differ from v. *)
Theorem check_difference_against_one_cell (r c : nat) (v : Z) (b : ndarray) :
  rect r c b → (0 < r)%nat → (0 < c)%nat →
  check_difference [[v]] b
  = Ok (Z.of_nat (length (filter (λ x, v ≠ cell b x) (coords_rc r c)))).
Proof. apply check_difference_one_cell. Qed.

Lemma check_difference_against_one_cell_witness :
  check_difference [[3]] [[3; 2]; [3; 0]] = Ok 2.
Proof.
  apply (check_difference_against_one_cell 2 2 3 [[3; 2]; [3; 0]]).
  - split; [reflexivity|]. repeat constructor.
  - lia.
  - lia.
Defined.

End SandpileMoreProperties.

Section AvalancheSize.
Import AbelianSandpile.
Context (n : nat).
Implicit Types (g : ndarray) (ts : list pos).

Lemma potential_topple_all ts : ∀ g,
  square n g → legal n g ts →
  potential n (topple_all n g ts) + 4 * Z.of_nat (length ts) ≤ potential n g.
Proof.
  induction ts as [|c ts IH]; intros g Hsq Hl.
  { simpl. unfold topple_all. simpl. lia. }
  destruct Hl as (Hc & _ & Hl).
  change (topple_all n g (c :: ts)) with (topple_all n (topple n g c) ts).
  pose proof (IH _ (square_topple n g c Hsq) Hl).
  pose proof (potential_topple n g c Hsq Hc).
  rewrite length_cons. lia.
Qed.

Lemma zsum_bind {A B} (f : B → Z) (k : A → list B) (l : list A) :
  zsum f (l ≫= k) = zsum (λ a, zsum f (k a)) l.
Proof.
  induction l as [|a l IH]; [done|].
  cbn [mbind list_bind]. rewrite zsum_app, zsum_cons. by rewrite IH.
Qed.

Lemma zsum_fmap {A B} (f : B → Z) (h : A → B) (l : list A) :
  zsum f (h <$> l) = zsum (λ a, f (h a)) l.
Proof.
  induction l as [|a l IH]; [done|].
  cbn [fmap list_fmap]. rewrite !zsum_cons. by rewrite IH.
Qed.

Lemma zsum_const {A} (z : Z) (l : list A) :
  zsum (λ _, z) l = Z.of_nat (length l) * z.
Proof.
  induction l as [|a l IH]; [done|]. rewrite zsum_cons, IH, length_cons. lia.
Qed.

Lemma zsum_plus {A} (f1 f2 : A → Z) (l : list A) :
  zsum (λ a, f1 a + f2 a) l = zsum f1 l + zsum f2 l.
Proof.
  induction l as [|a l IH]; [done|]. rewrite !zsum_cons, IH. lia.
Qed.

Lemma zsum_side (m : Z) k :
  6 * zsum (λ t, (Z.of_nat t + 1) * (m - Z.of_nat t)) (seq 0 k)
  = Z.of_nat k * (Z.of_nat k + 1) * (3 * m - 2 * Z.of_nat k + 2).
Proof.
  induction k as [|k IH]; [done|].
  rewrite seq_S, zsum_app, zsum_cons. cbn [zsum foldr Nat.add]. nia.
Qed.

Lemma weight_total :
  3 * zsum (weight n) (coords n)
  = Z.of_nat n * Z.of_nat n * (Z.of_nat n + 1) * (Z.of_nat n + 2).
Proof.
  unfold coords. rewrite zsum_bind.
  rewrite (zsum_ext _ (λ i, Z.of_nat n * ((Z.of_nat i + 1) * (Z.of_nat n - Z.of_nat i))
                            + zsum (λ t, (Z.of_nat t + 1) * (Z.of_nat n - Z.of_nat t))
                                   (seq 0 n))).
  2: { intros i _. rewrite zsum_fmap. unfold weight. cbn [fst snd].
       rewrite zsum_plus, zsum_const, length_seq. done. }
  rewrite zsum_plus, zsum_const, length_seq.
  pose proof (zsum_side (Z.of_nat n) n) as E.
  assert (zsum (λ i, Z.of_nat n * ((Z.of_nat i + 1) * (Z.of_nat n - Z.of_nat i)))
               (seq 0 n)
          = Z.of_nat n * zsum (λ t, (Z.of_nat t + 1) * (Z.of_nat n - Z.of_nat t))
                              (seq 0 n)) as ->.
  { generalize (seq 0 n). intros l. induction l as [|a l IH]; [simpl; lia|].
    rewrite !zsum_cons, IH. lia. }
  nia.
Qed.

(** The avalanches of one step on a grid with counts between 0 and 3. *)
Lemma avalanche_size g site fuel g' ts :
  good n g → inb n site →
  step_at_log fuel n g site = Ok (g', ts) →
  3 * Z.of_nat (length ts)
  ≤ Z.of_nat n * Z.of_nat n * (Z.of_nat n + 1) * (Z.of_nat n + 2).
Proof.
  intros (Hsq & Hnn & Hst) Hsite Hrun.
  destruct (step_at_runs n g site Hsq Hnn Hsite)
    as (g1 & ts1 & Hall & -> & Hl & Hsq1 & Hnn1 & _).
  set (fuel' := Nat.max fuel (Z.to_nat (potential n g + weight n site) + 3)).
  destruct (Hall fuel') as [R _]; [lia|].
  rewrite (step_at_log_mono n fuel fuel' g site _ Hrun) in R by lia.
  injection R as -> ->.
  pose proof (potential_topple_all ts1 _ (square_addc n g site 1 Hsq) Hl) as Hp.
  rewrite (potential_addc n) in Hp by done.
  pose proof (potential_nonneg n _ Hnn1).
  pose proof (potential_le n g Hst).
  pose proof (weight_le_total n site Hsite).
  pose proof weight_total. lia.
Qed.

End AvalancheSize.

Module SandpileBounds.
Import AbelianSandpile.

(** X27: an avalanche is bounded by the size of the grid. One step on an
    n by n grid with counts between 0 and 3 topples at most
    n*n*(n+1)*(n+2)/3 times, counting a cell as often as it topples,
    wherever the grain is dropped. *)
Theorem avalanche_size_bound (n : nat) (g : ndarray) (site : pos)
    (fuel : nat) :
  good n g → inb n site → (step_fuel n ≤ fuel)%nat →
  ∃ g' ts,
    step_at fuel n g site = Ok g' ∧
    step_at_log fuel n g site = Ok (g', ts) ∧
    3 * Z.of_nat (length ts)
    ≤ Z.of_nat n * Z.of_nat n * (Z.of_nat n + 1) * (Z.of_nat n + 2).
Proof.
  intros Hg Hsite Hfuel. pose proof Hg as (Hsq & Hnn & Hst).
  destruct (step_at_runs n g site Hsq Hnn Hsite) as (g' & ts & Hall & _).
  pose proof (step_fuel_enough n g site Hst Hsite).
  pose proof (potential_nonneg n g Hnn). pose proof (weight_pos n site Hsite).
  destruct (Hall fuel) as [R1 R2]; [lia|].
  exists g', ts. split; [done|]. split; [done|].
  by apply (avalanche_size n g site fuel g' ts).
Qed.

Lemma avalanche_size_bound_witness :
  ∃ g' ts,
    step_at 100 2 [[3; 3]; [3; 3]] (0, 0)%nat = Ok g' ∧
    step_at_log 100 2 [[3; 3]; [3; 3]] (0, 0)%nat = Ok (g', ts) ∧
    3 * Z.of_nat (length ts) ≤ 2 * 2 * (2 + 1) * (2 + 2).
Proof.
  apply (avalanche_size_bound 2 [[3; 3]; [3; 3]] (0, 0)%nat 100).
  - split; [|split].
    + split; [reflexivity|]. repeat constructor.
    + intros [[|[|i]] [|[|j]]] [Hi Hj]; simpl in *; try lia; vm_compute; congruence.
    + intros [[|[|i]] [|[|j]]] [Hi Hj]; simpl in *; try lia; vm_compute; congruence.
  - split; simpl; lia.
  - vm_compute. lia.
Defined.

End SandpileBounds.

Module SandpileAvalanche.
Import AbelianSandpile.

(** X30: on an n by n grid with counts between 0 and 3, a step starts an
    avalanche exactly when the site the grain is dropped on holds 3
    grains: with fewer than 3 no cell topples and the grid only gains the
    grain; with 3 the first cell to topple is the drop site. *)
Theorem avalanche_starts_at_full_site (n : nat) (g : ndarray) (site : pos)
    (fuel : nat) :
  good n g → inb n site → (step_fuel n ≤ fuel)%nat →
  ∃ g' ts,
    step_at fuel n g site = Ok g' ∧
    step_at_log fuel n g site = Ok (g', ts) ∧
    (cell g site < 3 → ts = [] ∧ g' = addc g site 1) ∧
    (cell g site = 3 → ∃ ts', ts = site :: ts').
Proof.
  intros (Hsq & Hnn & Hst) Hsite Hfuel.
  destruct (step_at_runs n g site Hsq Hnn Hsite)
    as (g' & ts & Hall & -> & Hl & _ & _ & Hst').
  pose proof (step_fuel_enough n g site Hst Hsite).
  pose proof (potential_nonneg n g Hnn). pose proof (weight_pos n site Hsite).
  destruct (Hall fuel) as [R1 R2]; [lia|].
  exists (topple_all n (addc g site 1) ts), ts.
  split; [done|]. split; [done|].
  assert (∀ c ts', ts = c :: ts' → c = site ∧ cell g site = 3) as Hfirst.
  { intros c ts' ->. destruct Hl as (Hc & Hv & _).
    rewrite (cell_addc n) in Hv by done. pose proof (Hst c Hc).
    pose proof (Hst site Hsite).
    destruct (decide (c = site)) as [->|]; [split; [done|lia]|lia]. }
  split.
  - intros Hv. destruct ts as [|c ts']; [done|].
    destruct (Hfirst c ts' eq_refl) as [_ ?]. lia.
  - intros Hv. destruct ts as [|c ts'].
    + specialize (Hst' Hst site Hsite). unfold topple_all in Hst'.
      simpl in Hst'. rewrite (cell_addc n) in Hst' by done.
      rewrite decide_True in Hst' by done. lia.
    + destruct (Hfirst c ts' eq_refl) as [-> _]. by exists ts'.
Qed.

Lemma avalanche_starts_at_full_site_witness :
  ∃ g' ts,
    step_at 100 2 [[3; 3]; [3; 3]] (0, 0)%nat = Ok g' ∧
    step_at_log 100 2 [[3; 3]; [3; 3]] (0, 0)%nat = Ok (g', ts) ∧
    ∃ ts', ts = (0, 0)%nat :: ts'.
Proof.
  destruct (avalanche_starts_at_full_site 2 [[3; 3]; [3; 3]] (0, 0)%nat 100)
    as (g' & ts & R1 & R2 & _ & Hfull).
  - split; [|split].
    + split; [reflexivity|]. repeat constructor.
    + intros [[|[|i]] [|[|j]]] [Hi Hj]; simpl in *; try lia; vm_compute; congruence.
    + intros [[|[|i]] [|[|j]]] [Hi Hj]; simpl in *; try lia; vm_compute; congruence.
  - split; simpl; lia.
  - vm_compute. lia.
  - exists g', ts. split; [exact R1|]. split; [exact R2|]. by apply Hfull.
Defined.

End SandpileAvalanche.
